(** * Fix-and-verify pipeline: a shallow embedding and its properties

    The development follows the TypeScript sources of the bug-fix
    verification agent:

    - [lib/bug-fixer.ts]: [analyzeRelevantFiles], [parseFixResponse],
      [generateSimpleDiff], [applyFix], [rollbackFix];
    - [lib/test-runner.ts]: [runTests], [startDevServer], [waitForServer];
    - [lib/verification-pipeline.ts]: [runVerificationPipeline];
    - [lib/fix-and-verify-pipeline.ts]: [runFixAndVerifyPipeline];
    - [lib/config.ts]: [AgentConfig], [getConfig].

    Effectful code is embedded in a state-and-exception monad.  The file
    system is a finite map from path strings to file contents, together
    with the paths that name directories and the paths that cannot be
    written; [config.maxRetries] is a number, not necessarily whole; the
    external services (the model API, the Playwright runner, the dev
    server) answer through oracles indexed by the number of earlier calls,
    so that every behaviour of a single run is covered by a choice of
    oracle. *)

From Stdlib Require Import ZArith QArith Qround String Ascii List Bool Lia DecimalString.
From stdpp Require Import gmap strings list fin_maps.

Open Scope string_scope.
Open Scope list_scope.
Open Scope Z_scope.

(** ** Outcomes and the state-and-exception monad *)

(** A JavaScript call either returns a value or throws; [Diverged] is the
    outcome of a loop whose iteration budget ran out (shown below never to
    happen for the budgets the pipeline uses). *)
Inductive Outcome (A : Type) : Type :=
| Returned (a : A)
| Thrown (msg : string)
| Diverged.

Arguments Returned {A} a.
Arguments Thrown {A} msg.
Arguments Diverged {A}.

Definition M (S A : Type) : Type := S -> S * Outcome A.

Definition ret {S A} (a : A) : M S A := fun s => (s, Returned a).

Definition throw {S A} (msg : string) : M S A := fun s => (s, Thrown msg).

Definition bind {S A B} (m : M S A) (k : A -> M S B) : M S B :=
  fun s =>
    match m s with
    | (s', Returned a) => k a s'
    | (s', Thrown msg) => (s', Thrown msg)
    | (s', Diverged) => (s', Diverged)
    end.

Notation "x <- m ;; k" := (bind m (fun x => k))
  (at level 100, m at next level, right associativity).
Notation "m1 ;;; m2" := (bind m1 (fun _ => m2))
  (at level 100, right associativity).

(** [try { m } catch (error) { h error.message }]. *)
Definition try_catch {S A} (m : M S A) (h : string -> M S A) : M S A :=
  fun s =>
    match m s with
    | (s', Thrown msg) => h msg s'
    | r => r
    end.

(** The result of a [try] block as data: [inl msg] when it threw. *)
Definition attempt_ {S A} (m : M S A) : M S (string + A) :=
  fun s =>
    match m s with
    | (s', Returned a) => (s', Returned (inr a))
    | (s', Thrown msg) => (s', Returned (inl msg))
    | (s', Diverged) => (s', Diverged)
    end.

(** [try { m } finally { f }]: [f] runs on both exits; when [f] completes
    normally the outcome of [m] stands, when [f] throws its exception
    replaces it. *)
Definition try_finally {S A} (m : M S A) (f : M S unit) : M S A :=
  fun s =>
    match m s with
    | (s', Diverged) => (s', Diverged)
    | (s', r) =>
        match f s' with
        | (s'', Returned _) => (s'', r)
        | (s'', Thrown msg) => (s'', Thrown msg)
        | (s'', Diverged) => (s'', Diverged)
        end
    end.

Definition gets {S A} (f : S -> A) : M S A := fun s => (s, Returned (f s)).

Definition modify {S} (f : S -> S) : M S unit := fun s => (f s, Returned tt).

(** ** Paths and the file system *)

(** Node's [path] module, POSIX flavour.  A path is cut at every [/] into
    segments; [path.resolve] walks them from the root, dropping empty
    segments and [.], and going up one level at [..] (staying at the root
    when there is none). *)
Definition isAbsolute (p : string) : bool := String.prefix "/" p.

Fixpoint segments (p : string) : list string :=
  match p with
  | EmptyString => [""]
  | String c rest =>
      if Ascii.eqb c "/" then "" :: segments rest
      else match segments rest with
           | segment :: more => String c segment :: more
           | [] => [String c ""]
           end
  end.

(** [above] holds the directories walked into so far, innermost first. *)
Fixpoint walk (above : list string) (segs : list string) : list string :=
  match segs with
  | [] => above
  | segment :: rest =>
      if String.eqb segment "" || String.eqb segment "." then walk above rest
      else if String.eqb segment ".." then walk (tail above) rest
      else walk (segment :: above) rest
  end.

Definition components (p : string) : list string := rev (walk [] (segments p)).

(** [p] below [root].  The workspace root is an absolute path ([getConfig]
    takes it from the workspace folder or from [process.cwd()]); a root
    that is not absolute is read from the root directory, which then
    stands for the working directory of the process. *)
Definition absolute (root p : string) : string :=
  if isAbsolute p then p
  else if isAbsolute root then root +:+ "/" +:+ p
  else "/" +:+ root +:+ "/" +:+ p.

(** [path.resolve(root, p)], and [path.join(root, p)] as well, the two
    agreeing on an absolute [root]. *)
Definition resolve (root p : string) : string :=
  "/" +:+ String.concat "/" (components (absolute root p)).

Fixpoint dropCommon (from to : list string) : list string * list string :=
  match from, to with
  | a :: from', b :: to' => if String.eqb a b then dropCommon from' to' else (from, to)
  | _, _ => (from, to)
  end.

(** [path.relative(from, to)]: up from [from] to the last directory the
    two paths share, then down to [to]. *)
Definition relative (from to : string) : string :=
  let rest := dropCommon (components (absolute "" from)) (components (absolute "" to)) in
  String.concat "/" (map (fun _ => "..") rest.1 ++ rest.2).

(** The workspace store.  [files] maps a path to the content of the regular
    file at that path, kept as the bytes of its UTF-8 encoding;
    [directories] is the set of paths that name a directory; [readOnly] is
    the set of other paths at which [fs.writeFileSync] throws (a read-only
    file, a file in a directory that cannot be written).  The last two are
    fixed for the duration of a run: the directories that [fs.mkdirSync]
    creates for a new file are not recorded.  A path in [directories] is a
    directory whatever [files] holds for it. *)
Record FS : Type := MkStore {
  files : gmap string string;
  readOnly : gset string;
  directories : gset string;
}.

(** The paths at which [fs.writeFileSync] throws. *)
Definition locked (fs : FS) : gset string := readOnly fs ∪ directories fs.

(** A store without directories. *)
Definition mkFS (files : gmap string string) (readOnly : gset string) : FS :=
  MkStore files readOnly ∅.

Definition existsSync (p : string) : M FS bool :=
  gets (fun fs =>
          bool_decide (p ∈ directories fs)
          || match files fs !! p with Some _ => true | None => false end).

Definition readFileSync (p : string) : M FS string :=
  fun fs =>
    if decide (p ∈ directories fs)
    then (fs, Thrown "EISDIR: illegal operation on a directory, read")
    else match files fs !! p with
         | Some c => (fs, Returned c)
         | None => (fs, Thrown ("ENOENT: no such file or directory, open '" +:+ p +:+ "'"))
         end.

Definition writeFileSync (p content : string) : M FS unit :=
  fun fs =>
    if decide (p ∈ directories fs)
    then (fs, Thrown ("EISDIR: illegal operation on a directory, open '" +:+ p +:+ "'"))
    else if decide (p ∈ readOnly fs)
    then (fs, Thrown ("EACCES: permission denied, open '" +:+ p +:+ "'"))
    else (MkStore (<[p := content]> (files fs)) (readOnly fs) (directories fs),
          Returned tt).

Definition unlinkSync (p : string) : M FS unit :=
  fun fs =>
    if decide (p ∈ directories fs)
    then (fs, Thrown ("EISDIR: illegal operation on a directory, unlink '" +:+ p +:+ "'"))
    else match files fs !! p with
         | Some _ => (MkStore (delete p (files fs)) (readOnly fs) (directories fs),
                      Returned tt)
         | None => (fs, Thrown ("ENOENT: no such file or directory, unlink '" +:+ p +:+ "'"))
         end.

(** [content.length] of a file read as UTF-8: the number of UTF-16 code
    units of the text.  A byte that opens a sequence of up to three bytes
    stands for one unit, a byte that opens a sequence of four for two (a
    surrogate pair), a continuation byte for none; for well-formed UTF-8
    this is the length of the decoded string. *)
Definition unitsOf (b : ascii) : nat :=
  let n := nat_of_ascii b in
  if (n <? 128)%nat then 1%nat
  else if (n <? 192)%nat then 0%nat
  else if (n <? 240)%nat then 1%nat
  else 2%nat.

Fixpoint jsLength (s : string) : nat :=
  match s with
  | EmptyString => 0%nat
  | String b rest => (unitsOf b + jsLength rest)%nat
  end.

(** ** Configuration ([lib/config.ts]) *)

(** The fields of [AgentConfig] that the pipeline reads.  [maxRetries] is
    a [number] that nothing rounds or checks: whatever finite number the
    setting holds, a fraction as well as a whole number, reaches the two
    loops that compare their counters with it. *)
Record AgentConfig : Type := mkConfig {
  baseUrl : string;
  devServerCommand : string;
  maxRetries : Q;
  enableVisualAnalysis : bool;
  workspaceRoot : string;
  codebaseContextFile : string;
}.

(** The settings [getConfig] reads; [None] is an unset key. *)
Record Settings : Type := mkSettings {
  set_baseUrl : option string;
  set_devServerCommand : option string;
  set_maxRetries : option Q;
  set_enableVisualAnalysis : option bool;
  set_codebaseContextFile : option string;
}.

(** JavaScript's [a || b] on strings and numbers: [b] replaces a falsy [a]. *)
Definition or_string (a : option string) (b : string) : string :=
  match a with
  | Some s => if String.eqb s "" then b else s
  | None => b
  end.

Definition or_number (a : option Q) (b : Q) : Q :=
  match a with
  | Some n => if Qeq_bool n 0 then b else n
  | None => b
  end.

(** [count >= limit] and the number of passes of
    [for (let i = 1; i <= limit; i++)], for a counter that holds whole
    numbers and a limit that is any number. *)
Definition reaches (count : Z) (limit : Q) : bool := Qle_bool limit (inject_Z count).

Definition passes (limit : Q) : nat := Z.to_nat (Qfloor limit).

Arguments reaches : simpl never.
Arguments passes : simpl never.

Definition getConfig (settings : Settings) (workspaceRoot : string) : AgentConfig :=
  {| baseUrl := or_string (set_baseUrl settings) "http://localhost:3000";
     devServerCommand := or_string (set_devServerCommand settings) "npm run dev";
     maxRetries := or_number (set_maxRetries settings) 3;
     enableVisualAnalysis := default true (set_enableVisualAnalysis settings);
     workspaceRoot := workspaceRoot;
     codebaseContextFile := or_string (set_codebaseContextFile settings) "" |}.

(** ** Data model of [lib/bug-fixer.ts] *)

(** Field names are those of the interfaces; where two interfaces share a
    field name the projections carry a prefix ([rf_] for [RelevantFile],
    [bk_] for the entries of [FixBackup], and so on). *)
Record CodebaseContext : Type := mkContext {
  ctx_content : string;
  ctx_filePath : string;
}.

Record RelevantFile : Type := mkRelevantFile {
  rf_relativePath : string;
  rf_absolutePath : string;
  rf_content : string;
  rf_reason : string;
}.

Record FileChange : Type := mkFileChange {
  filePath : string;
  relativePath : string;
  originalContent : string;
  modifiedContent : string;
  diff : string;
}.

Record FixResult : Type := mkFixResult {
  changes : list FileChange;
  explanation : string;
  approach : string;
}.

Record BackupFile : Type := mkBackupFile {
  bk_filePath : string;
  bk_originalContent : string;
}.

Record FixBackup : Type := mkFixBackup {
  timestamp : Z;
  bk_files : list BackupFile;
}.

(** ** [applyFix] and [rollbackFix] *)

Definition changePath (config : AgentConfig) (change : FileChange) : string :=
  if isAbsolute (filePath change)
  then filePath change
  else resolve (workspaceRoot config) (filePath change).

(** The body of [for (const change of fixResult.changes)]; [backup] is the
    list [backup.files] built so far. *)
Fixpoint applyChanges (config : AgentConfig) (cs : list FileChange)
    (backup : list BackupFile) : M FS (list BackupFile) :=
  match cs with
  | [] => ret backup
  | change :: rest =>
      let absolutePath := changePath config change in
      present <- existsSync absolutePath ;;
      entry <- (if (present : bool)
                then content <- readFileSync absolutePath ;;
                     ret (mkBackupFile absolutePath content)
                else ret (mkBackupFile absolutePath "")) ;;
      let backup := backup ++ [entry] in
      writeFileSync absolutePath (modifiedContent change) ;;;
      applyChanges config rest backup
  end.

(** [now] is the value of [Date.now()]. *)
Definition applyFix (config : AgentConfig) (now : Z) (fixResult : FixResult)
    : M FS FixBackup :=
  files <- applyChanges config (changes fixResult) [] ;;
  ret (mkFixBackup now files).

Definition rollbackFile (file : BackupFile) : M FS unit :=
  if String.eqb (bk_originalContent file) ""
  then present <- existsSync (bk_filePath file) ;;
       if (present : bool) then unlinkSync (bk_filePath file) else ret tt
  else writeFileSync (bk_filePath file) (bk_originalContent file).

Fixpoint rollbackFiles (fs : list BackupFile) : M FS unit :=
  match fs with
  | [] => ret tt
  | file :: rest => rollbackFile file ;;; rollbackFiles rest
  end.

Definition rollbackFix (backup : FixBackup) : M FS unit :=
  rollbackFiles (bk_files backup).

(** ** [generateSimpleDiff] *)

Definition newline : ascii := ascii_of_nat 10.

Definition nl : string := String newline "".

(** [s.split('\n')]: the empty string splits into one empty line. *)
Fixpoint split_lines (s : string) : list string :=
  match s with
  | EmptyString => [""]
  | String c rest =>
      if Ascii.eqb c newline then "" :: split_lines rest
      else match split_lines rest with
           | line :: lines => String c line :: lines
           | [] => [String c ""]
           end
  end.

(** Decimal rendering of a number inside a template literal. *)
Definition showZ (n : Z) : string := NilZero.string_of_int (Z.to_int n).

(** A template literal prints a missing array element as [undefined]. *)
Definition lineText (l : option string) : string := default "undefined" l.

Record DiffState : Type := mkDiffState {
  diffLines : list string;
  inHunk : bool;
  hunkStart : Z;
  hunkLines : list string;
}.

Definition hunkHeader (start : Z) : string :=
  "@@ -" +:+ showZ (start + 1) +:+ " +" +:+ showZ (start + 1) +:+ " @@".

(** [l.startsWith(c)] for a one-character [c]. *)
Definition startsWith (c : ascii) (l : string) : bool :=
  match l with
  | String a _ => Ascii.eqb a c
  | EmptyString => false
  end.

(** [l.startsWith(' ')] *)
Definition isContext (l : string) : bool := startsWith " " l.

(** One iteration of [for (let i = 0; i < maxLen; i++)]. *)
Definition diffStep (origLines modLines : list string) (st : DiffState) (i : nat)
    : DiffState :=
  let origLine := origLines !! i in
  let modLine := modLines !! i in
  if decide (origLine = modLine) then
    if inHunk st then
      let hunkLines' := hunkLines st ++ [" " +:+ lineText origLine] in
      if (3 <=? length (List.filter isContext hunkLines'))%nat
      then mkDiffState (diffLines st ++ hunkHeader (hunkStart st) :: hunkLines')
                       false (hunkStart st) []
      else mkDiffState (diffLines st) true (hunkStart st) hunkLines'
    else st
  else
    let st1 :=
      if inHunk st then st
      else mkDiffState (diffLines st) true (Z.max 0 (Z.of_nat i - 1))
             (if (0 <? i)%nat
              then hunkLines st ++ [" " +:+ lineText (origLines !! (i - 1)%nat)]
              else hunkLines st) in
    let edits :=
      match origLine, modLine with
      | Some o, Some m => ["-" +:+ o; "+" +:+ m]
      | Some o, None => ["-" +:+ o]
      | None, Some m => ["+" +:+ m]
      | None, None => []
      end in
    mkDiffState (diffLines st1) (inHunk st1) (hunkStart st1) (hunkLines st1 ++ edits).

Definition diffInit (fileName : string) : DiffState :=
  mkDiffState ["--- a/" +:+ fileName; "+++ b/" +:+ fileName] false (-1) [].

(** The "flush remaining hunk" step after the loop. *)
Definition diffFlush (st : DiffState) : list string :=
  if (0 <? length (hunkLines st))%nat
  then diffLines st ++ hunkHeader (hunkStart st) :: hunkLines st
  else diffLines st.

(** The array [diffLines] just before [join]. *)
Definition generateSimpleDiffLines (fileName original modified : string)
    : list string :=
  let origLines := split_lines original in
  let modLines := split_lines modified in
  let maxLen := Nat.max (length origLines) (length modLines) in
  diffFlush (fold_left (diffStep origLines modLines) (seq 0 maxLen) (diffInit fileName)).

Definition generateSimpleDiff (fileName original modified : string) : string :=
  String.concat nl (generateSimpleDiffLines fileName original modified).

(** ** [parseFixResponse] and [generateFix] *)

(** What the fix-proposal service yields for one [generateFix] call, after
    [JSON.parse] and the shape check.  [FixThrows] stands for every way the
    call throws: the API request rejects, the text is not JSON, [changes] is
    missing or not an array, or an entry is ill-typed. *)
Inductive FixResponse : Type :=
| FixThrows (msg : string)
| FixParsed (explanation approach : option string)
            (changes : list (string * string)).

(** The callback of [parsed.changes.map]; [change] is
    [(change.filePath, change.modifiedContent)]. *)
Definition parseChange (relevantFiles : list RelevantFile) (workspaceRoot : string)
    (change : string * string) : M FS FileChange :=
  let relativePath := change.1 in
  let absolutePath := resolve workspaceRoot relativePath in
  let originalFile :=
    List.find (fun f => String.eqb (rf_relativePath f) relativePath) relevantFiles in
  originalContent <-
    (match originalFile with
     | Some f =>
         if String.eqb (rf_content f) ""
         then present <- existsSync absolutePath ;;
              if (present : bool) then readFileSync absolutePath else ret ""
         else ret (rf_content f)
     | None =>
         present <- existsSync absolutePath ;;
         if (present : bool) then readFileSync absolutePath else ret ""
     end) ;;
  let modifiedContent := change.2 in
  ret (mkFileChange absolutePath relativePath originalContent modifiedContent
         (generateSimpleDiff relativePath originalContent modifiedContent)).

Fixpoint mapM {S A B} (f : A -> M S B) (l : list A) : M S (list B) :=
  match l with
  | [] => ret []
  | x :: rest => y <- f x ;; ys <- mapM f rest ;; ret (y :: ys)
  end.

Definition parseFixResponse (response : FixResponse)
    (relevantFiles : list RelevantFile) (workspaceRoot : string) : M FS FixResult :=
  match response with
  | FixThrows msg => throw msg
  | FixParsed explanation approach changes =>
      changes <- mapM (parseChange relevantFiles workspaceRoot) changes ;;
      ret (mkFixResult changes
             (or_string explanation "No explanation provided")
             (or_string approach "No approach summary provided"))
  end.

(** ** [readCodebaseContext] and [analyzeRelevantFiles] *)

Fixpoint firstExisting (candidates : list string) : M FS (option CodebaseContext) :=
  match candidates with
  | [] => ret None
  | candidate :: rest =>
      present <- existsSync candidate ;;
      if (present : bool)
      then content <- readFileSync candidate ;;
           ret (Some (mkContext content candidate))
      else firstExisting rest
  end.

Definition readCodebaseContext (config : AgentConfig) : M FS (option CodebaseContext) :=
  let root := workspaceRoot config in
  firstExisting
    ((if String.eqb (codebaseContextFile config) "" then []
      else [resolve root (codebaseContextFile config)])
     ++ [resolve root "codebase-context.md"; resolve root "test-context.md";
         resolve root "ARCHITECTURE.md"; resolve root "docs/architecture.md"]).

(** An element of the array the file-selection service returned:
    [Suggested path reason] is an object with a string [path]; every other
    JSON value makes [path.resolve] throw a [TypeError]. *)
Inductive SuggestedEntry : Type :=
| Suggested (path reason : string)
| MalformedEntry.

Inductive SuggestResponse : Type :=
| SuggestApiError (msg : string)   (* [client.messages.create] rejects *)
| SuggestNoArray                   (* no [\[...\]] in the response text *)
| SuggestBadJson                   (* [JSON.parse] throws *)
| SuggestArray (suggestedFiles : list SuggestedEntry).

(** The state of [analyzeRelevantFiles]: the store and the array
    [relevantFiles], which survives an exception caught inside the call. *)
Definition liftFS {L A} (m : M FS A) : M (FS * L) A :=
  fun s => match m s.1 with (fs', r) => ((fs', s.2), r) end.

Definition push {A} (x : A) : M (FS * list A) unit :=
  modify (fun s => (s.1, s.2 ++ [x])).

Definition hintPath (config : AgentConfig) (filePath : string) : string :=
  if isAbsolute filePath then filePath else resolve (workspaceRoot config) filePath.

Fixpoint addHintFiles (config : AgentConfig) (hintFiles : list string)
    : M (FS * list RelevantFile) unit :=
  match hintFiles with
  | [] => ret tt
  | filePath :: rest =>
      let absolutePath := hintPath config filePath in
      present <- liftFS (existsSync absolutePath) ;;
      (if (present : bool)
       then content <- liftFS (readFileSync absolutePath) ;;
            push (mkRelevantFile (relative (workspaceRoot config) absolutePath)
                    absolutePath content "User-specified file")
       else ret tt) ;;;
      addHintFiles config rest
  end.

(** The size cap on service-suggested files: [content.length <= 50000]. *)
Definition sizeCap : Z := 50000.

Fixpoint addSuggestedFiles (config : AgentConfig) (suggestedFiles : list SuggestedEntry)
    : M (FS * list RelevantFile) unit :=
  match suggestedFiles with
  | [] => ret tt
  | MalformedEntry :: _ =>
      throw "The path argument must be of type string"
  | Suggested path reason :: rest =>
      let absolutePath := resolve (workspaceRoot config) path in
      present <- liftFS (existsSync absolutePath) ;;
      known <- gets (fun s =>
        existsb (fun f => String.eqb (rf_absolutePath f) absolutePath) s.2) ;;
      (if (present : bool) && negb known
       then content <- liftFS (readFileSync absolutePath) ;;
            if Z.of_nat (jsLength content) <=? sizeCap
            then push (mkRelevantFile path absolutePath content reason)
            else ret tt
       else ret tt) ;;;
      addSuggestedFiles config rest
  end.

Definition analyzeRelevantFiles (config : AgentConfig) (response : SuggestResponse)
    (hintFiles : option (list string)) : M FS (list RelevantFile) :=
  fun fs =>
    let body : M (FS * list RelevantFile) unit :=
      addHintFiles config (default [] hintFiles) ;;;
      match response with
      | SuggestApiError msg => throw msg
      | SuggestNoArray => ret tt
      | SuggestBadJson => try_catch (throw "Unexpected token") (fun _ => ret tt)
      | SuggestArray suggestedFiles =>
          try_catch (addSuggestedFiles config suggestedFiles) (fun _ => ret tt)
      end in
    match body (fs, []) with
    | (s, Returned _) => (s.1, Returned s.2)
    | (s, Thrown msg) => (s.1, Thrown msg)
    | (s, Diverged) => (s.1, Diverged)
    end.

(** ** The world of a run *)

Record TestGenerationInput : Type := mkTestGenInput {
  tg_bugDescription : string;
  tg_changedFiles : list string;
  tg_testContext : option string;
  tg_baseUrl : option string;
}.

Record TestGenerationResult : Type := mkTestGen {
  testFilePath : string;
  testCode : string;
  testName : string;
}.

Record TestResult : Type := mkTestResult {
  passed : bool;
  videos : list string;
  screenshots : list string;
  traces : list string;
  errorMessage : option string;
  duration : Z;
  stdout : string;
  stderr : string;
}.

Record VisualReport : Type := mkVisualReport {
  vr_bugDescription : string;
  vr_overallAssessment : string;
  vr_passed : bool;
}.

(** Answers of the external collaborators. *)
Inductive GenResponse : Type :=
| GenThrows (msg : string)
| GenOk (test : TestGenerationResult).

(** What happens inside the [try] block of [runTests] once the server is up:
    [executePlaywright] resolves and the artifact scan succeeds, or the scan
    throws. *)
Inductive RunnerResponse : Type :=
| RunnerThrows (msg : string)
| RunnerDone (result : TestResult).

Inductive VisualResponse : Type :=
| VisualThrows (msg : string)
| VisualOk (report : VisualReport).

(** The collaborators of a run.  Each answer may depend on the number of
    earlier calls of its kind and on what the call passes: the previous
    attempt for a fix, the previous test and its error for a regenerated
    test, the bug description and the screenshots for the visual report. *)
Record Env : Type := mkEnv {
  suggestResponse : SuggestResponse;
  fixResponse : nat -> option (FixResult * string) -> FixResponse;
  testGenResponse : nat -> TestGenerationInput -> GenResponse;
  regenResponse : nat -> TestGenerationInput -> string -> string -> GenResponse;
  serverReady : nat -> bool;
  runnerResponse : nat -> RunnerResponse;
  visualResponse : nat -> string -> list string -> VisualResponse;
  dateNow : nat -> Z;
}.

(** The calls a run makes to its collaborators, newest first. *)
Inductive Event : Type :=
| EvGenerateFix
| EvGenerateTest
| EvRegenerateTest
| EvRunTests
| EvSpawn (pid : positive)
| EvKill (pid : positive)
| EvAnalyzeScreenshots.

Record World : Type := mkWorld {
  env : Env;
  store : FS;
  running : gset positive;
  trace : list Event;
}.

Definition liftStore {A} (m : M FS A) : M World A :=
  fun w =>
    match m (store w) with
    | (fs', r) => (mkWorld (env w) fs' (running w) (trace w), r)
    end.

Definition logEvent (e : Event) : M World unit :=
  modify (fun w => mkWorld (env w) (store w) (running w) (e :: trace w)).

Definition isGenerateFix (e : Event) : bool :=
  match e with EvGenerateFix => true | _ => false end.
Definition isGenerateTest (e : Event) : bool :=
  match e with EvGenerateTest => true | _ => false end.
Definition isRegenerateTest (e : Event) : bool :=
  match e with EvRegenerateTest => true | _ => false end.
Definition isRunTests (e : Event) : bool :=
  match e with EvRunTests => true | _ => false end.
Definition isSpawn (e : Event) : bool :=
  match e with EvSpawn _ => true | _ => false end.
Definition isAnalyzeScreenshots (e : Event) : bool :=
  match e with EvAnalyzeScreenshots => true | _ => false end.

Definition countEvents (kind : Event -> bool) (tr : list Event) : nat :=
  length (List.filter kind tr).

(** The number of earlier calls of one kind: the index of the next answer. *)
Definition callIndex (kind : Event -> bool) : M World nat :=
  gets (fun w => countEvents kind (trace w)).

(** ** [lib/test-runner.ts] *)

Record ChildProcess : Type := mkChild { pid : option positive }.

Record RunnerOptions : Type := mkRunnerOptions {
  opt_testFilePath : option string;
  opt_startServer : bool;
}.

(** [spawn]: the child gets a pid that no earlier child had. *)
Definition spawn : M World ChildProcess :=
  n <- callIndex isSpawn ;;
  let p := Pos.of_succ_nat n in
  modify (fun w => mkWorld (env w) (store w) ({[p]} ∪ running w) (EvSpawn p :: trace w)) ;;;
  ret (mkChild (Some p)).

(** The polling loop of [waitForServer] either sees a response below 500
    before [timeoutMs] elapses or throws; which of the two is the server's
    choice, read from the oracle. *)
Definition waitForServer (url : string) (timeoutMs : Z) (n : nat) : M World unit :=
  ready <- gets (fun w => serverReady (env w) n) ;;
  if (ready : bool) then ret tt
  else throw ("Dev server did not become ready at " +:+ url +:+ " within "
              +:+ showZ timeoutMs +:+ "ms").

Definition startDevServer (config : AgentConfig) : M World ChildProcess :=
  n <- callIndex isSpawn ;;
  serverProcess <- spawn ;;
  waitForServer (baseUrl config) 30000 n ;;;
  ret serverProcess.

(** [execSync] of the kill command inside [try { } catch { }]. *)
Definition killProcessTree (p : positive) : M World unit :=
  modify (fun w => mkWorld (env w) (store w) (running w ∖ {[p]}) (EvKill p :: trace w)).

(** [executePlaywright] followed by the three [collectFiles] scans. *)
Definition executeAndCollect (n : nat) : M World TestResult :=
  response <- gets (fun w => runnerResponse (env w) n) ;;
  match response with
  | RunnerThrows msg => throw msg
  | RunnerDone result => ret result
  end.

(** The [finally] block of [runTests]. *)
Definition killDevServer (serverProcess : option ChildProcess) : M World unit :=
  match serverProcess with
  | Some (mkChild (Some p)) => killProcessTree p
  | _ => ret tt
  end.

(** [serverProcess] is a local that the [try] block assigns only when
    [startDevServer] returns; the [finally] block reads it. *)
Definition runTests (config : AgentConfig) (options : RunnerOptions)
    : M World TestResult :=
  n <- callIndex isRunTests ;;
  logEvent EvRunTests ;;;
  fun w =>
    let started : World * Outcome (option ChildProcess) :=
      (if opt_startServer options
       then (child <- startDevServer config ;; ret (Some child)) w
       else (w, Returned None)) in
    let serverProcess : option ChildProcess :=
      match started.2 with Returned child => child | _ => None end in
    let tryBlock : M World TestResult :=
      fun w1 =>
        match started.2 with
        | Returned _ => executeAndCollect n w1
        | Thrown msg => (w1, Thrown msg)
        | Diverged => (w1, Diverged)
        end in
    try_finally tryBlock (killDevServer serverProcess) started.1.

(** ** [lib/verification-pipeline.ts] *)

Record VerificationInput : Type := mkVerificationInput {
  vi_bugDescription : string;
  vi_changedFiles : list string;
  vi_testContext : option string;
  vi_startServer : bool;
}.

Record VerificationResult : Type := mkVerificationResult {
  testGeneration : TestGenerationResult;
  testResult : TestResult;
  visualReport : option VisualReport;
  retryCount : Z;
  overallPassed : bool;
}.

(** [cleanTestResults] empties the runner's output directory, and
    [generateTest] and [regenerateTest] write the test source under
    [tests/generated]: both locations lie outside the files the store
    tracks. *)
Definition cleanTestResults (config : AgentConfig) : M World unit := ret tt.

Definition generateTest (config : AgentConfig) (input : TestGenerationInput)
    : M World TestGenerationResult :=
  n <- callIndex isGenerateTest ;;
  logEvent EvGenerateTest ;;;
  response <- gets (fun w => testGenResponse (env w) n input) ;;
  match response with GenThrows msg => throw msg | GenOk test => ret test end.

Definition regenerateTest (config : AgentConfig) (input : TestGenerationInput)
    (previousTest errorMessage : string) : M World TestGenerationResult :=
  n <- callIndex isRegenerateTest ;;
  logEvent EvRegenerateTest ;;;
  response <- gets (fun w => regenResponse (env w) n input previousTest errorMessage) ;;
  match response with GenThrows msg => throw msg | GenOk test => ret test end.

Definition analyzeScreenshots (config : AgentConfig) (bugDescription : string)
    (screenshotPaths : list string) : M World VisualReport :=
  n <- callIndex isAnalyzeScreenshots ;;
  logEvent EvAnalyzeScreenshots ;;;
  response <- gets (fun w => visualResponse (env w) n bugDescription screenshotPaths) ;;
  match response with VisualThrows msg => throw msg | VisualOk report => ret report end.

(** The input both test-generation calls of the pipeline pass. *)
Definition testInput (input : VerificationInput) : TestGenerationInput :=
  mkTestGenInput (vi_bugDescription input) (vi_changedFiles input)
    (vi_testContext input) None.

Definition diverge {S A} : M S A := fun s => (s, Diverged).

(** The [while (true)] loop of phase 2.  [budget] bounds the number of
    iterations the model follows; [Diverged] is the outcome when it is
    used up. *)
Fixpoint selfHealLoop (budget : nat) (config : AgentConfig) (input : VerificationInput)
    (testGen : TestGenerationResult) (retryCount : Z)
    : M World (TestGenerationResult * TestResult * Z) :=
  match budget with
  | O => diverge
  | S budget' =>
      testResult <- runTests config
        (mkRunnerOptions (Some (testFilePath testGen)) (vi_startServer input)) ;;
      if passed testResult then ret (testGen, testResult, retryCount)
      else
        let retryCount := retryCount + 1 in
        if reaches retryCount (maxRetries config) then ret (testGen, testResult, retryCount)
        else
          regenerated <- attempt_
            (regenerateTest config (testInput input) (testCode testGen)
               (or_string (errorMessage testResult) (stderr testResult))) ;;
          match regenerated with
          | inl _ => ret (testGen, testResult, retryCount)
          | inr testGen' => selfHealLoop budget' config input testGen' retryCount
          end
  end.

(** Phase 3, the advisory visual analysis: [visualReport] stays undefined
    when the analysis is off, when there is no screenshot, or when
    [analyzeScreenshots] throws. *)
Definition visualPhase (config : AgentConfig) (input : VerificationInput)
    (testResult : TestResult) : M World (option VisualReport) :=
  if enableVisualAnalysis config && (0 <? length (screenshots testResult))%nat
  then try_catch (report <- analyzeScreenshots config (vi_bugDescription input)
                              (screenshots testResult) ;;
                  ret (Some report))
                 (fun _ => ret None)
  else ret None.

Definition runVerificationPipeline (config : AgentConfig) (input : VerificationInput)
    : M World VerificationResult :=
  let retryCount := 0 in
  cleanTestResults config ;;;
  testGen <- try_catch (generateTest config (testInput input))
               (fun msg => throw ("Test generation failed: " +:+ msg)) ;;
  looped <- selfHealLoop (S (Z.to_nat (Qceiling (maxRetries config)))) config input
              testGen retryCount ;;
  let '(testGen, testResult, retryCount) := looped in
  visualReport <- visualPhase config input testResult ;;
  let overallPassed := passed testResult in
  ret (mkVerificationResult testGen testResult visualReport retryCount overallPassed).

(** ** [lib/fix-and-verify-pipeline.ts] *)

Record FixAndVerifyInput : Type := mkInput {
  in_bugDescription : string;
  in_hintFiles : option (list string);
  in_startServer : bool;
  in_testContext : option string;
}.

Record FixAttempt : Type := mkFixAttempt {
  attemptNumber : Z;
  fix_ : FixResult;   (* the field [fix] *)
  verification : option VerificationResult;
  error : option string;
}.

Record FixAndVerifyResult : Type := mkResult {
  succeeded : bool;
  attempts : list FixAttempt;
  finalFix : option FixResult;
  finalVerification : option VerificationResult;
  relevantFiles : list RelevantFile;
  codebaseContext : option CodebaseContext;
}.

Definition generateFix (config : AgentConfig) (relevantFiles : list RelevantFile)
    (previousAttempt : option (FixResult * string)) : M World FixResult :=
  n <- callIndex isGenerateFix ;;
  logEvent EvGenerateFix ;;;
  response <- gets (fun w => fixResponse (env w) n previousAttempt) ;;
  liftStore (parseFixResponse response relevantFiles (workspaceRoot config)).

(** [\[a, b, c\].filter(Boolean).join('\n---\n')] *)
Definition joinTruthy (parts : list string) : string :=
  String.concat (nl +:+ "---" +:+ nl)
    (List.filter (fun s => negb (String.eqb s "")) parts).

Definition verificationErrorOf (verification : VerificationResult) : string :=
  let joined :=
    joinTruthy
      [ or_string (errorMessage (testResult verification)) "";
        stderr (testResult verification);
        match visualReport verification with
        | Some report => vr_overallAssessment report
        | None => ""
        end ] in
  or_string (Some joined)
    "Verification tests failed but no specific error message was captured.".

(** The loop [for (let attempt = 1; attempt <= maxAttempts; attempt++)]:
    [remaining] is the number of passes still to run, that is the number of
    whole numbers from [attempt] up to [maxAttempts]. *)
Fixpoint attemptLoop (remaining : nat) (config : AgentConfig) (input : FixAndVerifyInput)
    (relevantFiles : list RelevantFile) (codebaseContext : option CodebaseContext)
    (attempt : Z) (previousAttempt : option (FixResult * string))
    (attempts : list FixAttempt) : M World FixAndVerifyResult :=
  match remaining with
  | O => ret (mkResult false attempts None None relevantFiles codebaseContext)
  | S remaining' =>
      let continue_ := attemptLoop remaining' config input relevantFiles
                         codebaseContext (attempt + 1) in
      generated <- attempt_ (generateFix config relevantFiles previousAttempt) ;;
      match generated with
      | inl msg =>
          continue_ previousAttempt
            (attempts ++ [mkFixAttempt attempt
                            (mkFixResult [] ("Fix generation error: " +:+ msg) "Failed")
                            None (Some msg)])
      | inr fix' =>
          now <- gets (fun w => dateNow (env w) (length (trace w))) ;;
          applied <- attempt_ (liftStore (applyFix config now fix')) ;;
          match applied with
          | inl msg =>
              continue_ previousAttempt
                (attempts ++ [mkFixAttempt attempt fix' None
                                (Some ("Apply failed: " +:+ msg))])
          | inr backup =>
              let changedFiles := map relativePath (changes fix') in
              verified <- attempt_ (runVerificationPipeline config
                            (mkVerificationInput (in_bugDescription input) changedFiles
                               (in_testContext input) (in_startServer input))) ;;
              match verified with
              | inl msg =>
                  liftStore (rollbackFix backup) ;;;
                  continue_ (Some (fix', msg))
                    (attempts ++ [mkFixAttempt attempt fix' None
                                    (Some ("Verification error: " +:+ msg))])
              | inr verification =>
                  let attempts := attempts ++ [mkFixAttempt attempt fix' (Some verification) None] in
                  if overallPassed verification
                  then ret (mkResult true attempts (Some fix') (Some verification)
                              relevantFiles codebaseContext)
                  else
                    liftStore (rollbackFix backup) ;;;
                    continue_ (Some (fix', verificationErrorOf verification)) attempts
              end
          end
      end
  end.

Definition runFixAndVerifyPipeline (config : AgentConfig) (input : FixAndVerifyInput)
    : M World FixAndVerifyResult :=
  let maxAttempts := maxRetries config in
  codebaseContext <- liftStore (readCodebaseContext config) ;;
  response <- gets (fun w => suggestResponse (env w)) ;;
  relevantFiles <- liftStore (analyzeRelevantFiles config response (in_hintFiles input)) ;;
  attemptLoop (passes maxAttempts) config input relevantFiles codebaseContext 1 None [].

(** ** Pure readings of [applyFix] and [rollbackFix] *)

(** What [rollbackFix] does to the file map for one backup entry that it
    can process. *)
Definition restoreEntry (m : gmap string string) (file : BackupFile)
    : gmap string string :=
  if String.eqb (bk_originalContent file) ""
  then delete (bk_filePath file) m
  else <[bk_filePath file := bk_originalContent file]> m.

(** A store with other file contents: what the rollback and the apply
    leave of a store they change. *)
Definition withFiles (m : gmap string string) (fs : FS) : FS :=
  MkStore m (readOnly fs) (directories fs).

(** What [fs.writeFileSync] throws at a path that cannot be written, and
    what [applyFix] throws at such a path: a directory is found to exist,
    and it is the reading of its content for the backup that fails. *)
Definition writeError (fs : FS) (p : string) : string :=
  if decide (p ∈ directories fs)
  then "EISDIR: illegal operation on a directory, open '" +:+ p +:+ "'"
  else "EACCES: permission denied, open '" +:+ p +:+ "'".

Definition applyError (fs : FS) (p : string) : string :=
  if decide (p ∈ directories fs)
  then "EISDIR: illegal operation on a directory, read"
  else "EACCES: permission denied, open '" +:+ p +:+ "'".

(** An entry at which [rollbackFix] throws: a content to write at a path
    that cannot be written, or a file to remove at a path that names a
    directory. *)
Definition blocked (fs : FS) (file : BackupFile) : bool :=
  if String.eqb (bk_originalContent file) ""
  then bool_decide (bk_filePath file ∈ directories fs)
  else bool_decide (bk_filePath file ∈ locked fs).

Definition rollbackError (fs : FS) (file : BackupFile) : string :=
  if String.eqb (bk_originalContent file) ""
  then "EISDIR: illegal operation on a directory, unlink '" +:+ bk_filePath file +:+ "'"
  else writeError fs (bk_filePath file).

Fixpoint unblockedPrefix (fs : FS) (es : list BackupFile) : list BackupFile :=
  match es with
  | [] => []
  | e :: rest => if blocked fs e then [] else e :: unblockedPrefix fs rest
  end.

Fixpoint rollbackOutcome (fs : FS) (es : list BackupFile) : Outcome unit :=
  match es with
  | [] => Returned tt
  | e :: rest =>
      if blocked fs e then Thrown (rollbackError fs e) else rollbackOutcome fs rest
  end.

(** The content at [p] after the entries [es] were restored, given the
    content [o] before. *)
Fixpoint restoredAt (p : string) (es : list BackupFile) (o : option string)
    : option string :=
  match es with
  | [] => o
  | e :: rest =>
      restoredAt p rest
        (if decide (bk_filePath e = p)
         then (if String.eqb (bk_originalContent e) "" then None
               else Some (bk_originalContent e))
         else o)
  end.

(** The backup entry [applyFix] records for path [p] in the file map [m]. *)
Definition snapshot (m : gmap string string) (p : string) : BackupFile :=
  mkBackupFile p (default "" (m !! p)).

Fixpoint applyPure (config : AgentConfig) (cs : list FileChange)
    (m : gmap string string) (backup : list BackupFile)
    : gmap string string * list BackupFile :=
  match cs with
  | [] => (m, backup)
  | change :: rest =>
      let p := changePath config change in
      applyPure config rest (<[p := modifiedContent change]> m) (backup ++ [snapshot m p])
  end.

(** Conditions on the input of [applyFix]: the changes name pairwise
    distinct files; no file they name exists with empty content. *)
Definition distinctTargets (config : AgentConfig) (fixResult : FixResult) : Prop :=
  NoDup (map (changePath config) (changes fixResult)).

Definition noEmptyTarget (config : AgentConfig) (fixResult : FixResult) (fs : FS) : Prop :=
  forall p, p ∈ map (changePath config) (changes fixResult) -> files fs !! p <> Some "".

(** The statement that apply followed by rollback restores the file map
    exactly, for every input that [admissible] accepts. *)
Definition apply_rollback_restores_exactly
    (admissible : AgentConfig -> FixResult -> FS -> Prop) : Prop :=
  forall (config : AgentConfig) (now : Z) (fixResult : FixResult)
         (fs fs1 fs2 : FS) (backup : FixBackup) (r : Outcome unit),
    admissible config fixResult fs ->
    applyFix config now fixResult fs = (fs1, Returned backup) ->
    rollbackFix backup fs1 = (fs2, r) ->
    files fs2 = files fs.

(** Sample inputs. *)
Definition sampleConfig : AgentConfig :=
  mkConfig "http://localhost:3000" "npm run dev" 3 true "/w" "".

Definition change (path modified : string) : FileChange :=
  mkFileChange path path "" modified "".

(** Reading a content back through the empty-string sentinel. *)
Definition throughSentinel (o : option string) : option string :=
  match o with
  | Some c => if String.eqb c "" then None else Some c
  | None => None
  end.


Definition sampleStore : FS := mkFS {[ "/w/a.ts" := "old" ]} ∅.

Definition sampleFix : FixResult :=
  mkFixResult [change "/w/a.ts" "new"; change "/w/b.ts" "fresh"] "e" "a".


(** ** The shape of the hunks of [generateSimpleDiff] *)

(** A hunk: the value of [hunkStart] and the lines under its header. *)
Definition renderHunk (h : Z * list string) : list string :=
  hunkHeader h.1 :: h.2.

Definition isEdit (l : string) : bool := startsWith "-" l || startsWith "+" l.

Definition contextCount (body : list string) : nat :=
  length (List.filter isContext body).

(** The number of context lines a hunk opens with. *)
Fixpoint leadingContext (body : list string) : nat :=
  match body with
  | l :: rest => if isContext l then S (leadingContext rest) else O
  | [] => O
  end.

Definition hasEdit (body : list string) : bool := existsb isEdit body.

(** A hunk holds context lines and changed lines, at least one of them
    changed, and opens with at most one context line. *)
Definition hunkShape (h : Z * list string) : Prop :=
  Forall (fun l => isContext l || isEdit l = true) h.2 /\
  hasEdit h.2 = true /\
  (leadingContext h.2 <= 1)%nat.

(** A hunk that the loop closed holds exactly three context lines; the
    hunk that is flushed after the loop holds at most two. *)
Definition closedHunk (h : Z * list string) : Prop :=
  hunkShape h /\ contextCount h.2 = 3%nat.

Definition lastHunk (h : Z * list string) : Prop :=
  hunkShape h /\ (contextCount h.2 <= 2)%nat.

(** Modelled from the spec: the body of the hunk that a unified diff with
    [k] lines of context shows when line [i] of [origLines] is replaced by
    [newLine] -- up to [k] unchanged lines before the change and up to [k]
    after it. *)
Definition unifiedHunk (k : nat) (origLines : list string) (i : nat) (newLine : string)
    : list string :=
  map (fun l => " " +:+ l) (take (Nat.min k i) (drop (i - k)%nat origLines))
  ++ ["-" +:+ lineText (origLines !! i); "+" +:+ newLine]
  ++ map (fun l => " " +:+ l) (take k (drop (S i) origLines)).

(** The statement that a diff carries 3 lines of context around a change,
    read on the replacement of a single line. *)
Definition diff_has_three_lines_of_context : Prop :=
  forall (fileName original modified : string) (i : nat) (old newLine : string),
    split_lines original !! i = Some old ->
    split_lines modified = <[i := newLine]> (split_lines original) ->
    old <> newLine ->
    exists header,
      generateSimpleDiffLines fileName original modified =
        ["--- a/" +:+ fileName; "+++ b/" +:+ fileName; header]
        ++ unifiedHunk 3 (split_lines original) i newLine.

(** The statement that the diff is a function of the two contents alone. *)
Definition diff_depends_on_contents_only : Prop :=
  forall (fileName fileName' original modified : string),
    generateSimpleDiff fileName original modified =
    generateSimpleDiff fileName' original modified.

Definition lines (ls : list string) : string := String.concat nl ls.

Definition nineLines : string :=
  lines ["l1"; "l2"; "l3"; "l4"; "l5"; "l6"; "l7"; "l8"; "l9"].

Definition nineLinesFixed : string :=
  lines ["l1"; "l2"; "l3"; "l4"; "X"; "l6"; "l7"; "l8"; "l9"].

Definition nineLinesStore : FS := mkFS {[ "/w/a.ts" := nineLines ]} ∅.

Definition nineLinesChange : FileChange :=
  mkFileChange "/w/a.ts" "a.ts" nineLines nineLinesFixed
    (generateSimpleDiff "a.ts" nineLines nineLinesFixed).

(** The lines pushed for a changed position. *)
Definition editsOf (origLine modLine : option string) : list string :=
  match origLine, modLine with
  | Some o, Some m => ["-" +:+ o; "+" +:+ m]
  | Some o, None => ["-" +:+ o]
  | None, Some m => ["+" +:+ m]
  | None, None => []
  end.


(** The loop invariant: the lines emitted so far are the two file headers
    followed by closed hunks, and the open hunk, if any, holds at most two
    context lines, at most one of them leading. *)
Definition diffInv (fileName : string) (st : DiffState) : Prop :=
  (exists hs,
      diffLines st = ["--- a/" +:+ fileName; "+++ b/" +:+ fileName]
                     ++ concat (map renderHunk hs) /\
      Forall closedHunk hs) /\
  Forall (fun l => isContext l || isEdit l = true) (hunkLines st) /\
  (inHunk st = false -> hunkLines st = []) /\
  (inHunk st = true -> hasEdit (hunkLines st) = true) /\
  (contextCount (hunkLines st) <= 2)%nat /\
  (leadingContext (hunkLines st) <= 1)%nat.


(** ** Pure readings of [analyzeRelevantFiles] *)

(** The entries for the hint files: one per hint that exists on disk, in
    hint order. *)
Definition hintedFiles (config : AgentConfig) (hintFiles : list string)
    (m : gmap string string) : list RelevantFile :=
  omap (fun filePath =>
          let absolutePath := hintPath config filePath in
          match m !! absolutePath with
          | Some content =>
              Some (mkRelevantFile (relative (workspaceRoot config) absolutePath)
                      absolutePath content "User-specified file")
          | None => None
          end) hintFiles.

(** The candidates the loop over [suggestedFiles] gets to see: the
    well-formed entries before the first ill-formed one. *)
Fixpoint wellFormedPrefix (entries : list SuggestedEntry) : list (string * string) :=
  match entries with
  | Suggested path reason :: rest => (path, reason) :: wellFormedPrefix rest
  | _ => []
  end.

Definition candidates (response : SuggestResponse) : list (string * string) :=
  match response with
  | SuggestArray entries => wellFormedPrefix entries
  | _ => []
  end.

(** The candidates the loop gets to read: those before the first entry
    that is ill-formed or names a directory.  Reading a directory throws,
    and the [catch] around the loop ends it there as it does at an
    ill-formed entry. *)
Fixpoint readablePrefix (config : AgentConfig) (fs : FS) (entries : list SuggestedEntry)
    : list (string * string) :=
  match entries with
  | Suggested path reason :: rest =>
      if bool_decide (resolve (workspaceRoot config) path ∈ directories fs) then []
      else (path, reason) :: readablePrefix config fs rest
  | _ => []
  end.

Definition offeredCandidates (config : AgentConfig) (fs : FS) (response : SuggestResponse)
    : list (string * string) :=
  match response with
  | SuggestArray entries => readablePrefix config fs entries
  | _ => []
  end.

Definition hasMalformed (entries : list SuggestedEntry) : bool :=
  existsb (fun e => match e with MalformedEntry => true | _ => false end) entries.

(** A malformed service response: no array in the text, text that is not
    JSON, or an array with an ill-formed element. *)
Definition malformed (response : SuggestResponse) : bool :=
  match response with
  | SuggestApiError _ => false
  | SuggestNoArray => true
  | SuggestBadJson => true
  | SuggestArray entries => hasMalformed entries
  end.

Definition isKnown (absolutePath : string) (known : list RelevantFile) : bool :=
  existsb (fun f => String.eqb (rf_absolutePath f) absolutePath) known.

(** The array [relevantFiles] after the loop over [entries], started with
    [known]. *)
Fixpoint acceptedFiles (config : AgentConfig) (fs : FS)
    (entries : list SuggestedEntry) (known : list RelevantFile) : list RelevantFile :=
  match entries with
  | [] => known
  | MalformedEntry :: _ => known
  | Suggested path reason :: rest =>
      let absolutePath := resolve (workspaceRoot config) path in
      if isKnown absolutePath known then acceptedFiles config fs rest known
      else if bool_decide (absolutePath ∈ directories fs) then known
      else
        match files fs !! absolutePath with
        | Some content =>
            if Z.of_nat (jsLength content) <=? sizeCap
            then acceptedFiles config fs rest
                   (known ++ [mkRelevantFile path absolutePath content reason])
            else acceptedFiles config fs rest known
        | None => acceptedFiles config fs rest known
        end
  end.

(** What holds of a service-suggested entry of the result. *)
Definition serviceSuggested (config : AgentConfig) (fs : FS)
    (f : RelevantFile) : Prop :=
  rf_absolutePath f = resolve (workspaceRoot config) (rf_relativePath f) /\
  (rf_absolutePath f ∉ directories fs) /\
  files fs !! rf_absolutePath f = Some (rf_content f) /\
  Z.of_nat (jsLength (rf_content f)) <= sizeCap.

(** The hinted paths, and the error the call throws when one of them
    names a directory. *)
Definition hintPaths (config : AgentConfig) (hintFiles : option (list string))
    : list string :=
  map (hintPath config) (default [] hintFiles).

Definition directoryRead : string := "EISDIR: illegal operation on a directory, read".

(** The statements of the file-selection claim that fail. *)
Definition relevant_files_unique : Prop :=
  forall config response hintFiles fs fs' result,
    analyzeRelevantFiles config response hintFiles fs = (fs', Returned result) ->
    NoDup (map rf_absolutePath result).

Definition malformed_response_gives_hints_alone : Prop :=
  forall config response hintFiles fs fs' result,
    malformed response = true ->
    analyzeRelevantFiles config response hintFiles fs = (fs', Returned result) ->
    result = hintedFiles config (default [] hintFiles) (files fs).

(** The request to the file-selection service itself failed. *)
Definition apiError (response : SuggestResponse) : bool :=
  match response with SuggestApiError _ => true | _ => false end.

Definition twoFileStore : FS :=
  mkFS (<["/w/b.ts" := "bee"]> {[ "/w/a.ts" := "old" ]}) ∅.

Definition partlyMalformed : SuggestResponse :=
  SuggestArray [Suggested "b.ts" "named in the trace"; MalformedEntry].

(** ** Reading a run off its trace *)

(** The number of test executions in each fix attempt, newest attempt
    first: [EvGenerateFix] opens an attempt and [EvRunTests] counts for the
    attempt that is open. *)
Fixpoint testsPerAttempt (tr : list Event) : list nat :=
  match tr with
  | [] => []
  | e :: older =>
      let rest := testsPerAttempt older in
      match e with
      | EvGenerateFix => O :: rest
      | EvRunTests =>
          match rest with
          | c :: cs => S c :: cs
          | [] => []
          end
      | _ => rest
      end
  end.

(** Replacing the visual-assessment service and the switch that enables it. *)
Definition setVisual (visual : nat -> string -> list string -> VisualResponse)
    (w : World) : World :=
  mkWorld
    (mkEnv (suggestResponse (env w)) (fixResponse (env w)) (testGenResponse (env w))
           (regenResponse (env w)) (serverReady (env w)) (runnerResponse (env w))
           visual (dateNow (env w)))
    (store w) (running w) (trace w).

Definition setVisualAnalysis (enabled : bool) (config : AgentConfig) : AgentConfig :=
  mkConfig (baseUrl config) (devServerCommand config) (maxRetries config) enabled
    (workspaceRoot config) (codebaseContextFile config).

(** Sample collaborators: a service that proposes nothing and a server that
    never answers. *)
Definition silentEnv : Env :=
  mkEnv SuggestNoArray
    (fun _ _ => FixThrows "no proposal")
    (fun _ _ => GenThrows "no test")
    (fun _ _ _ _ => GenThrows "no test")
    (fun _ => false)
    (fun _ => RunnerThrows "no run")
    (fun _ _ _ => VisualThrows "no report")
    (fun _ => 0).

Definition startWorld (e : Env) (fs : FS) : World := mkWorld e fs ∅ [].

Definition isProcessEvent (e : Event) : bool :=
  match e with EvSpawn _ | EvKill _ => true | _ => false end.

(** The pid of the next child that [spawn] creates. *)
Definition nextPid (w : World) : positive :=
  Pos.of_succ_nat (countEvents isSpawn (trace w)).

(** The statement that the dev server a call to [runTests] spawned is not
    running when the call is over, whatever its outcome. *)
Definition server_never_outlives_runTests : Prop :=
  forall (config : AgentConfig) (options : RunnerOptions) (w w' : World)
         (r : Outcome TestResult),
    opt_startServer options = true ->
    nextPid w ∉ running w ->
    runTests config options w = (w', r) ->
    nextPid w ∉ running w'.

(** The statement that a run which reports failure leaves every file as it
    was. *)
Definition failed_run_leaves_no_residue : Prop :=
  forall (config : AgentConfig) (input : FixAndVerifyInput) (w w' : World)
         (res : FixAndVerifyResult),
    runFixAndVerifyPipeline config input w = (w', Returned res) ->
    succeeded res = false ->
    files (store w') = files (store w).

(** A workspace in which [/w/b.ts] cannot be written, and a service that
    keeps proposing a change to [a.ts] followed by one to [b.ts]. *)
Definition lockedStore : FS := mkFS {[ "/w/a.ts" := "old" ]} {[ "/w/b.ts" ]}.

Definition twoFileEnv : Env :=
  mkEnv SuggestNoArray
    (fun _ _ => FixParsed (Some "reset the counter") (Some "assign zero")
                  [("a.ts", "new"); ("b.ts", "helper")])
    (fun _ _ => GenThrows "no test")
    (fun _ _ _ _ => GenThrows "no test")
    (fun _ => false)
    (fun _ => RunnerThrows "no run")
    (fun _ _ _ => VisualThrows "no report")
    (fun _ => 0).

Definition oneAttemptConfig : AgentConfig :=
  mkConfig "http://localhost:3000" "npm run dev" 1 true "/w" "".

Definition sampleInput : FixAndVerifyInput :=
  mkInput "counter does not reset to zero" None false None.

(** Scenario B of the specification: the first test run fails with
    "element not found", the regenerated test passes, and the visual
    assessment flags an issue. *)
Definition firstTest : TestGenerationResult :=
  mkTestGen "/w/tests/generated/fix-verification-counter.spec.ts" "test v1"
    "fix-verification-counter".

Definition healedTest : TestGenerationResult :=
  mkTestGen "/w/tests/generated/fix-verification-counter.spec.ts" "test v2"
    "fix-verification-counter".

Definition failedRun : TestResult :=
  mkTestResult false [] [] [] (Some "element not found") 1200 "" "".

Definition passedRun : TestResult :=
  mkTestResult true ["/w/test-results/video.webm"] ["/w/test-results/fix-verification.png"]
    [] None 900 "" "".

Definition flaggedReport : VisualReport :=
  mkVisualReport "counter does not reset to zero"
    "Found 1 visual issue(s) across 1 screenshot(s). Manual review recommended." false.

Definition scenarioEnv : Env :=
  mkEnv SuggestNoArray
    (fun _ _ => FixParsed (Some "reset the counter") (Some "assign zero")
                  [("a.ts", "new")])
    (fun _ _ => GenOk firstTest)
    (fun _ _ _ _ => GenOk healedTest)
    (fun _ => true)
    (fun n => match n with O => RunnerDone failedRun | _ => RunnerDone passedRun end)
    (fun _ _ _ => VisualOk flaggedReport)
    (fun _ => 0).

Definition scenarioVerification : VerificationInput :=
  mkVerificationInput "counter does not reset to zero" ["a.ts"] None true.

Definition scenarioVerdict : VerificationResult :=
  mkVerificationResult healedTest passedRun (Some flaggedReport) 1 true.



(** The path [applyFix] writes for a proposed change to [relativePath]. *)
Definition targetPath (config : AgentConfig) (relativePath : string) : string :=
  changePath config
    (mkFileChange (resolve (workspaceRoot config) relativePath) relativePath "" "" "").

(** A proposal that [applyFix] can carry out and [rollbackFix] can undo in
    the store [fs]: its changes name pairwise distinct files, each of them
    writable and none of them existing with empty content. *)
Definition appliesCleanly (config : AgentConfig) (fs : FS) (response : FixResponse)
    : Prop :=
  match response with
  | FixThrows _ => True
  | FixParsed _ _ cs =>
      NoDup (map (fun c => targetPath config c.1) cs) /\
      Forall (fun c => (targetPath config c.1 ∉ locked fs) /\
                       files fs !! targetPath config c.1 <> Some "") cs
  end.

(** ** Specifications of monadic code *)

(** [wp m Q s]: running [m] from [s] ends in a state and outcome that
    satisfy [Q]. *)
Definition wp {S A} (m : M S A) (Q : S -> Outcome A -> Prop) (s : S) : Prop :=
  Q (m s).1 (m s).2.


(** [grows w w' added]: from [w] to [w'] the collaborators are the same and
    the events [added] were logged. *)
Definition grows (w w' : World) (added : list Event) : Prop :=
  env w' = env w /\ trace w' = added ++ trace w.


(** [quiet added k]: the events [added] hold no fix generation and [k]
    test executions. *)
Definition quiet (added : list Event) (k : nat) : Prop :=
  Forall (fun e => isGenerateFix e = false) added /\
  countEvents isRunTests added = k.


(** Adding [k] test executions to the newest attempt. *)
Definition bump (k : nat) (per : list nat) : list nat :=
  match per with
  | c :: cs => (k + c)%nat :: cs
  | [] => []
  end.


(** The two limits as whole numbers: a counter reaches [maxRetries] when
    it reaches the next whole number at or above it, and the attempts
    that fit below [maxRetries] are those up to the whole number at or
    below it. *)
Definition retryLimit (config : AgentConfig) : Z := Qceiling (maxRetries config).

Definition attemptLimit (config : AgentConfig) : Z := Qfloor (maxRetries config).


(** What a run of [attemptLoop] that started at attempt number [attempt]
    with [remaining] iterations to go and the history [acc] guarantees. *)
Definition loopPost (config : AgentConfig) (remaining : nat) (attempt : Z)
    (acc : list FixAttempt) (w w' : World) (r : Outcome FixAndVerifyResult) : Prop :=
  exists (added : list Event) (per : list nat),
    grows w w' added /\
    (forall base, testsPerAttempt (added ++ base) = per ++ testsPerAttempt base) /\
    (length per <= remaining)%nat /\
    Forall (fun k => Z.of_nat k <= Z.max 1 (retryLimit config)) per /\
    countEvents isRunTests added = sum_list per /\
    countEvents isGenerateFix added = length per /\
    r <> Diverged /\
    forall res, r = Returned res ->
      exists news,
        attempts res = acc ++ news /\
        length news = length per /\
        (forall i a, news !! i = Some a -> attemptNumber a = attempt + Z.of_nat i) /\
        (forall i a v, news !! i = Some a -> verification a = Some v ->
                       overallPassed v = true ->
                       succeeded res = true /\ S i = length news /\
                       finalFix res = Some (fix_ a) /\ finalVerification res = Some v) /\
        (succeeded res = true ->
           exists a v, last news = Some a /\ verification a = Some v /\
                       overallPassed v = true /\
                       finalFix res = Some (fix_ a) /\ finalVerification res = Some v) /\
        (succeeded res = false ->
           finalFix res = None /\ finalVerification res = None /\
           length news = remaining).

(** ** Readings of the store and of a run's result *)

(** The candidates of [readCodebaseContext], in the order it tries them:
    the configured file when one is set, then the four default names. *)
Definition contextCandidates (config : AgentConfig) : list string :=
  let root := workspaceRoot config in
  (if String.eqb (codebaseContextFile config) "" then []
   else [resolve root (codebaseContextFile config)])
  ++ [resolve root "codebase-context.md"; resolve root "test-context.md";
      resolve root "ARCHITECTURE.md"; resolve root "docs/architecture.md"].

(** Nothing is at [p]: neither a file nor a directory. *)
Definition absent (fs : FS) (p : string) : Prop :=
  files fs !! p = None /\ (p ∉ directories fs).

(** The paths [applyFix] writes, in the order of the changes. *)
Definition targets (config : AgentConfig) (cs : list FileChange) : list string :=
  map (changePath config) cs.

(** The changes of [fixResult] are on disk: the file of every change that
    no later change of the same fix overwrites holds its modified
    content. *)
Definition applied (config : AgentConfig) (cs : list FileChange) (fs : FS) : Prop :=
  forall before c after,
    cs = before ++ c :: after ->
    changePath config c ∉ targets config after ->
    files fs !! changePath config c = Some (modifiedContent c).

(** What [rollbackFix] leaves at the path of a backup entry. *)
Definition restoredContent (e : BackupFile) : option string :=
  if String.eqb (bk_originalContent e) "" then None else Some (bk_originalContent e).

(** ** Readings of a diff *)

(** Position [i] counts as changed when the two files differ there; a
    position beyond the end of one file differs from any line of the
    other. *)
Definition changedAt (origLines modLines : list string) (i : nat) : bool :=
  negb (bool_decide (origLines !! i = modLines !! i)).

Definition changedPositions (origLines modLines : list string) : list nat :=
  List.filter (changedAt origLines modLines)
    (seq 0 (Nat.max (length origLines) (length modLines))).

(** The [-] and [+] lines of the changed positions, in order. *)
Definition changedLines (origLines modLines : list string) : list string :=
  concat (map (fun i => editsOf (origLines !! i) (modLines !! i))
              (changedPositions origLines modLines)).

(** ** Readings of a verification run *)

(** The error with which the test execution number [n] of a run ended, as
    the collaborators of the world [w] determine it: the readiness timeout
    of the dev server (spawn number [k]), or what the runner threw. *)
Definition runThrew (config : AgentConfig) (input : VerificationInput) (w : World)
    (n : nat) (msg : string) : Prop :=
  (vi_startServer input = true /\
   (exists k, serverReady (env w) k = false) /\
   msg = "Dev server did not become ready at " +:+ baseUrl config +:+ " within "
         +:+ showZ 30000 +:+ "ms") \/
  runnerResponse (env w) n = RunnerThrows msg.

(** ** Readings of a fix-and-verify run *)

(** An attempt that did not fix the bug, as [runFixAndVerifyPipeline]
    records it: its verification ran and failed, and it carries no error;
    or it carries no verification and the error of the phase that threw --
    the generation of the fix (the attempt then records a placeholder fix
    without changes), its application, or the verification. *)
Definition attemptFailed (a : FixAttempt) : Prop :=
  match verification a with
  | Some v => overallPassed v = false /\ error a = None
  | None =>
      (exists msg, error a = Some msg /\
                   fix_ a = mkFixResult [] ("Fix generation error: " +:+ msg) "Failed") \/
      (exists msg, error a = Some ("Apply failed: " +:+ msg)) \/
      (exists msg, error a = Some ("Verification error: " +:+ msg))
  end.

(** A service and a runner for a run in which every fix applies and every
    verification fails: the proposal changes [a.ts], the generated test
    fails each time it is executed. *)
Definition failingEnv : Env :=
  mkEnv SuggestNoArray
    (fun _ _ => FixParsed (Some "reset the counter") (Some "assign zero")
                  [("a.ts", "new")])
    (fun _ _ => GenOk firstTest)
    (fun _ _ _ _ => GenOk healedTest)
    (fun _ => true)
    (fun _ => RunnerDone failedRun)
    (fun _ _ _ => VisualThrows "no report")
    (fun _ => 0).

(** The result of a run that returned (the empty failure otherwise). *)
Definition resultOf (r : Outcome FixAndVerifyResult) : FixAndVerifyResult :=
  match r with
  | Returned res => res
  | _ => mkResult false [] None None [] None
  end.

(** ** The two limits *)

(** A configuration with [maxRetries] set to [limit]. *)
Definition numberConfig (limit : Q) : AgentConfig :=
  mkConfig "http://localhost:3000" "npm run dev" limit true "/w" "".

(** The statement that no attempt of a run executes the test more often
    than [maxRetries] says. *)
Definition tests_within_maxRetries : Prop :=
  forall (config : AgentConfig) (input : FixAndVerifyInput) (w : World)
         (added : list Event),
    trace (runFixAndVerifyPipeline config input w).1 = added ++ trace w ->
    Forall (fun k => (inject_Z (Z.of_nat k) <= maxRetries config)%Q)
      (testsPerAttempt added).


(** A run that only the two limits bring to an end: the fix service
    answers every request with a proposal that applies cleanly, every test
    is generated and regenerated, every execution of the test completes
    and fails, and the development server, when the run starts one, comes
    up. *)
Definition everyTestFails (config : AgentConfig) (input : FixAndVerifyInput)
    (w : World) : Prop :=
  (forall n prev, exists explanation approach cs,
      fixResponse (env w) n prev = FixParsed explanation approach cs) /\
  (forall n prev, appliesCleanly config (store w) (fixResponse (env w) n prev)) /\
  (forall n request, exists test, testGenResponse (env w) n request = GenOk test) /\
  (forall n request previousTest errorMessage,
      exists test, regenResponse (env w) n request previousTest errorMessage = GenOk test) /\
  (forall n, exists res, runnerResponse (env w) n = RunnerDone res /\ passed res = false) /\
  (in_startServer input = true -> forall n, serverReady (env w) n = true).

(** ** Text utilities of the panels and of the test generator *)

(** [s.replace(/c/g, r)] for a pattern that is the single character [c]
    and a replacement [r] that holds no [$]. *)
Fixpoint replaceAll (c : ascii) (r : string) (s : string) : string :=
  match s with
  | EmptyString => EmptyString
  | String a rest =>
      if Ascii.eqb a c then r +:+ replaceAll c r rest
      else String a (replaceAll c r rest)
  end.

Definition doubleQuote : ascii := ascii_of_nat 34.

(** [escapeHtml] of [webview/results-panel.ts] and [webview/live-panel.ts]:
    five replacements, one after the other.  The characters it looks for
    are ASCII, so the function reads the same on the bytes of the UTF-8
    form of a text as on its UTF-16 code units. *)
Definition escapeHtml (text : string) : string :=
  replaceAll "'" "&#039;"
    (replaceAll doubleQuote "&quot;"
       (replaceAll ">" "&gt;"
          (replaceAll "<" "&lt;"
             (replaceAll "&" "&amp;" text)))).

(** The image of one character under the five replacements together. *)
Definition escapeChar (a : ascii) : string :=
  if Ascii.eqb a "&" then "&amp;"
  else if Ascii.eqb a "<" then "&lt;"
  else if Ascii.eqb a ">" then "&gt;"
  else if Ascii.eqb a doubleQuote then "&quot;"
  else if Ascii.eqb a "'" then "&#039;"
  else String a "".

Definition entities : list string := ["&amp;"; "&lt;"; "&gt;"; "&quot;"; "&#039;"].

(** The characters that [escapeHtml] replaces. *)
Definition special (a : ascii) : bool :=
  Ascii.eqb a "&" || Ascii.eqb a "<" || Ascii.eqb a ">"
  || Ascii.eqb a doubleQuote || Ascii.eqb a "'".

(** A piece of escaped text: an entity, or a character that needs no
    escaping. *)
Definition escapedPiece (piece : string) : Prop :=
  piece ∈ entities \/ exists a, piece = String a "" /\ special a = false.

(** *** Strings as UTF-16 code units

    [generateTestName] and the parsing of a typed file list look at
    character classes ([\s], [trim]) that reach beyond ASCII, and
    [substring] counts code units: here a string is the list of its UTF-16
    code units. *)
Definition ofAscii (s : string) : list N :=
  map N_of_ascii (list_ascii_of_string s).

(** The class [\s] of a regular expression, which is also what [trim]
    strips: the white space and line terminator code points of
    ECMAScript. *)
Definition isWhiteSpace (c : N) : bool :=
  ((9 <=? c) && (c <=? 13) || (c =? 32) || (c =? 160) || (c =? 5760)
   || (8192 <=? c) && (c <=? 8202) || (c =? 8232) || (c =? 8233) || (c =? 8239)
   || (c =? 8287) || (c =? 12288) || (c =? 65279))%N.

(** [a-z] and [0-9]. *)
Definition isLowerOrDigit (c : N) : bool :=
  ((97 <=? c) && (c <=? 122) || (48 <=? c) && (c <=? 57))%N.

Definition dash : N := 45.

(** [s.replace(/\s+/g, '-')]: every maximal run of white space becomes one
    dash.  [inRun] tells that the unit before was white space. *)
Fixpoint dashRuns (inRun : bool) (s : list N) : list N :=
  match s with
  | [] => []
  | c :: rest =>
      if isWhiteSpace c
      then (if inRun then dashRuns true rest else dash :: dashRuns true rest)
      else c :: dashRuns false rest
  end.

Section TestName.

(** [String.prototype.toLowerCase], whose table is Unicode's; the
    properties below hold whatever it maps a string to. *)
Variable toLowerCase : list N -> list N.

(** [generateTestName] of [lib/test-generator.ts]. *)
Definition generateTestName (bugDescription : list N) : list N :=
  ofAscii "fix-verification-"
  ++ take 50
       (dashRuns false
          (List.filter (fun c => isLowerOrDigit c || isWhiteSpace c)
             (toLowerCase bugDescription))).

End TestName.

(** [toLowerCase] on ASCII letters, for sample inputs. *)
Definition asciiLower (s : list N) : list N :=
  map (fun c => if ((65 <=? c) && (c <=? 90))%N then (c + 32)%N else c) s.

(** *** The file list typed into the input box *)

Definition comma : N := 44.

(** [s.split(sep)] for a separator of one code unit. *)
Fixpoint splitOn (sep : N) (s : list N) : list (list N) :=
  match s with
  | [] => [[]]
  | c :: rest =>
      if (c =? sep)%N then [] :: splitOn sep rest
      else match splitOn sep rest with
           | piece :: pieces => (c :: piece) :: pieces
           | [] => [[c]]
           end
  end.

Fixpoint trimStart (s : list N) : list N :=
  match s with
  | c :: rest => if isWhiteSpace c then trimStart rest else s
  | [] => []
  end.

Definition trimEnd (s : list N) : list N := rev (trimStart (rev s)).

Definition trim (s : list N) : list N := trimEnd (trimStart s).

Definition isEmpty (s : list N) : bool :=
  match s with [] => true | _ => false end.

(** [input.split(',').map(f => f.trim()).filter(Boolean)], the expression
    with which the commands and the command-line script read a list of
    file paths. *)
Definition parseFileList (input : list N) : list (list N) :=
  List.filter (fun f => negb (isEmpty f)) (map trim (splitOn comma input)).

(** [names.join(sep)]. *)
Fixpoint joinWith (sep : list N) (names : list (list N)) : list N :=
  match names with
  | [] => []
  | [name] => name
  | name :: rest => name ++ sep ++ joinWith sep rest
  end.

(** A path as a user means it: not empty, without a comma, and with no
    white space at either end. *)
Definition plainName (name : list N) : Prop :=
  name <> [] /\ (comma ∉ name) /\
  (forall c, head name = Some c -> isWhiteSpace c = false) /\
  (forall c, last name = Some c -> isWhiteSpace c = false).

(** ** [lib/visual-analyzer.ts] *)

(** The pipeline above asks the analyzer for a report and reads three of
    its fields.  This module follows the analyzer itself: the loop over the
    screenshots, the reading of each reply, and the report built from the
    results. *)
Module VisualAnalyzer.

Record VisualAnalysisResult : Type := mkAnalysis {
  screenshot : string;
  assessment : string;
  issues : list string;
  confidence : string;
}.

(** The whole report object; [summary] keeps the fields of [VisualReport]
    above. *)
Record Report : Type := mkReport {
  bugDescription : string;
  overallAssessment : string;
  screenshots : list VisualAnalysisResult;
  passed : bool;
}.

Definition summary (report : Report) : VisualReport :=
  mkVisualReport (bugDescription report) (overallAssessment report) (passed report).

(** What the vision service yields for one screenshot: the request is
    rejected; the text holds no [{...}]; the matched text is not JSON; or
    it parses to an object, of which the analyzer reads a string
    [assessment], an array of strings [issues] and a string [confidence],
    each of them possibly missing. *)
Inductive Reply : Type :=
| ReplyThrows (msg : string)
| ReplyNoObject
| ReplyBadJson (responseText : string)
| ReplyParsed (assessment : option string) (issues : option (list string))
              (confidence : option string).

(** The service: its answer may depend on the number of earlier requests
    and on what the request carries -- the bug description, the path (from
    which the media type is taken) and the image data. *)
Definition Service : Type := nat -> string -> string -> string -> Reply.

(** The body of [for (const screenshotPath of screenshotPaths)]; [n]
    counts the requests made so far. *)
Fixpoint analyzeEach (service : Service) (bugDescription : string)
    (screenshotPaths : list string) (n : nat) (results : list VisualAnalysisResult)
    : M FS (list VisualAnalysisResult) :=
  match screenshotPaths with
  | [] => ret results
  | screenshotPath :: rest =>
      present <- existsSync screenshotPath ;;
      if (present : bool) then
        imageData <- readFileSync screenshotPath ;;
        match service n bugDescription screenshotPath imageData with
        | ReplyThrows msg => throw msg
        | ReplyNoObject => analyzeEach service bugDescription rest (S n) results
        | ReplyBadJson responseText =>
            analyzeEach service bugDescription rest (S n)
              (results ++ [mkAnalysis screenshotPath responseText [] "low"])
        | ReplyParsed assessment issues confidence =>
            analyzeEach service bugDescription rest (S n)
              (results ++ [mkAnalysis screenshotPath
                             (or_string assessment "No assessment available")
                             (default [] issues)
                             (or_string confidence "low")])
        end
      else analyzeEach service bugDescription rest n results
  end.

Definition isHigh (r : VisualAnalysisResult) : bool := String.eqb (confidence r) "high".

Definition showNat (n : nat) : string := showZ (Z.of_nat n).

Definition generateOverallAssessment (results : list VisualAnalysisResult) : string :=
  if (length results =? 0)%nat
  then "No screenshots were available for visual analysis."
  else
    let issueCount := fold_left (fun sum r => (sum + length (issues r))%nat) results 0%nat in
    let highConfidence := length (List.filter isHigh results) in
    if (issueCount =? 0)%nat && (highConfidence =? length results)%nat
    then "All screenshots look correct. No visual issues detected. High confidence that the fix is applied correctly."
    else if (0 <? issueCount)%nat
    then "Found " +:+ showNat issueCount +:+ " visual issue(s) across "
         +:+ showNat (length results) +:+ " screenshot(s). Manual review recommended."
    else "Analysis complete with " +:+ showNat highConfidence +:+ "/"
         +:+ showNat (length results)
         +:+ " high-confidence results. Some screenshots may need manual review.".

Definition analyzeScreenshots (service : Service) (bugDescription : string)
    (screenshotPaths : list string) : M FS Report :=
  results <- analyzeEach service bugDescription screenshotPaths 0 [] ;;
  let hasIssues := existsb (fun r => (0 <? length (issues r))%nat) results in
  let allHighConfidence := forallb isHigh results in
  ret (mkReport bugDescription (generateOverallAssessment results) results
         (negb hasIssues && allHighConfidence)).

End VisualAnalyzer.

(** The assessment of a report without results. *)
Definition nothingAnalysed : string :=
  "No screenshots were available for visual analysis.".

(** The screenshots of [screenshotPaths] that exist in the store as files. *)
Definition existingPaths (fs : FS) (screenshotPaths : list string) : list string :=
  List.filter (fun p => match files fs !! p with Some _ => true | None => false end)
    screenshotPaths.

Definition screenshotStore : FS :=
  mkFS {[ "/w/test-results/fix-verification.png" := "PNG" ]} ∅.

(** The requests of a call that nothing cuts short: the screenshot files
    that exist, in order, each with the reply to its request; the first
    request has number [n]. *)
Fixpoint requestsFrom (service : VisualAnalyzer.Service) (bugDescription : string)
    (fs : FS) (screenshotPaths : list string) (n : nat)
    : list (string * VisualAnalyzer.Reply) :=
  match screenshotPaths with
  | [] => []
  | p :: rest =>
      match files fs !! p with
      | Some imageData =>
          (p, service n bugDescription p imageData)
          :: requestsFrom service bugDescription fs rest (S n)
      | None => requestsFrom service bugDescription fs rest n
      end
  end.

(** The result pushed for a reply, if any. *)
Definition resultOfReply (request : string * VisualAnalyzer.Reply)
    : option VisualAnalyzer.VisualAnalysisResult :=
  match request.2 with
  | VisualAnalyzer.ReplyThrows _ => None
  | VisualAnalyzer.ReplyNoObject => None
  | VisualAnalyzer.ReplyBadJson responseText =>
      Some (VisualAnalyzer.mkAnalysis request.1 responseText [] "low")
  | VisualAnalyzer.ReplyParsed assessment issues confidence =>
      Some (VisualAnalyzer.mkAnalysis request.1
              (or_string assessment "No assessment available")
              (default [] issues)
              (or_string confidence "low"))
  end.

Definition isRejected (request : string * VisualAnalyzer.Reply) : bool :=
  match request.2 with VisualAnalyzer.ReplyThrows _ => true | _ => false end.

(** How the loop over the screenshots ends, given the requests it makes
    and the results it starts with: it throws at the first rejected
    request, and otherwise returns the results of the replies, in order. *)
Definition loopOutcome (requests : list (string * VisualAnalyzer.Reply))
    (results : list VisualAnalyzer.VisualAnalysisResult)
    : Outcome (list VisualAnalyzer.VisualAnalysisResult) :=
  match List.find isRejected requests with
  | Some (_, VisualAnalyzer.ReplyThrows msg) => Thrown msg
  | _ => Returned (results ++ omap resultOfReply requests)
  end.

(** ** The step list of [webview/live-panel.ts] *)

Module LivePanel.

Inductive Status : Type := pending | running | success | error | skipped.

(** A step as the panel holds it; an optional field that was never set, or
    was set to [undefined], reads as [None]. *)
Record LiveStep : Type := mkStep {
  id : string;
  label : string;
  status : Status;
  detail : option string;
  code : option string;
  codeLanguage : option string;
  duration : option Z;
}.

(** An object literal of type [Partial<LiveStep>]: for each field, [None]
    when the literal does not name it.  A literal may name an optional
    field and give it the value [undefined], which is [Some None]. *)
Record Updates : Type := mkUpdates {
  u_id : option string;
  u_label : option string;
  u_status : option Status;
  u_detail : option (option string);
  u_code : option (option string);
  u_codeLanguage : option (option string);
  u_duration : option (option Z);
}.

(** An object literal of type [LiveStep]: the three required fields, and
    the optional ones as in [Updates]. *)
Record StepLiteral : Type := mkLiteral {
  l_id : string;
  l_label : string;
  l_status : Status;
  l_detail : option (option string);
  l_code : option (option string);
  l_codeLanguage : option (option string);
  l_duration : option (option Z);
}.

Definition updatesOf (step : StepLiteral) : Updates :=
  mkUpdates (Some (l_id step)) (Some (l_label step)) (Some (l_status step))
    (l_detail step) (l_code step) (l_codeLanguage step) (l_duration step).

(** The object a literal denotes, as [push] stores it. *)
Definition stored (step : StepLiteral) : LiveStep :=
  mkStep (l_id step) (l_label step) (l_status step)
    (default None (l_detail step)) (default None (l_code step))
    (default None (l_codeLanguage step)) (default None (l_duration step)).

(** [Object.assign(target, source)]: every property the source has
    replaces that of the target. *)
Definition assign (target : LiveStep) (source : Updates) : LiveStep :=
  mkStep (default (id target) (u_id source))
    (default (label target) (u_label source))
    (default (status target) (u_status source))
    (default (detail target) (u_detail source))
    (default (code target) (u_code source))
    (default (codeLanguage target) (u_codeLanguage source))
    (default (duration target) (u_duration source)).

(** [this._steps.find(s => s.id === wanted)] *)
Definition find (wanted : string) (steps : list LiveStep) : option LiveStep :=
  List.find (fun s => String.eqb (id s) wanted) steps.

(** [Object.assign] on the object that [find] returned: the first step
    with the wanted id is changed in place. *)
Fixpoint assignFirst (wanted : string) (source : Updates) (steps : list LiveStep)
    : list LiveStep :=
  match steps with
  | [] => []
  | s :: rest =>
      if String.eqb (id s) wanted then assign s source :: rest
      else s :: assignFirst wanted source rest
  end.

(** [addStep] and [updateStep], as functions on the array [_steps].  The
    callers pass a fresh object literal each time, so the pushed object is
    reachable through the array only. *)
Definition addStep (step : StepLiteral) (steps : list LiveStep) : list LiveStep :=
  match find (l_id step) steps with
  | Some _ => assignFirst (l_id step) (updatesOf step) steps
  | None => steps ++ [stored step]
  end.

Definition updateStep (wanted : string) (updates : Updates) (steps : list LiveStep)
    : list LiveStep :=
  match find wanted steps with
  | Some _ => assignFirst wanted updates steps
  | None => steps
  end.

(** A call of one of the two methods. *)
Inductive Call : Type :=
| CallAdd (step : StepLiteral)
| CallUpdate (wanted : string) (updates : Updates).

Definition call (c : Call) (steps : list LiveStep) : list LiveStep :=
  match c with
  | CallAdd step => addStep step steps
  | CallUpdate wanted updates => updateStep wanted updates steps
  end.

(** The array after a sequence of calls on a panel that [createOrShow]
    just reset. *)
Definition after (calls : list Call) : list LiveStep :=
  fold_left (fun steps c => call c steps) calls [].

End LivePanel.

(** An update that leaves the id of its step alone, as every call site
    does. *)
Definition keepsId (c : LivePanel.Call) : Prop :=
  match c with
  | LivePanel.CallAdd _ => True
  | LivePanel.CallUpdate wanted updates =>
      LivePanel.u_id updates = None \/ LivePanel.u_id updates = Some wanted
  end.

(** What an optional field holds once a literal was added: what the literal
    gives for it and, where the literal does not name the field, what the
    step of that id held before (nothing when there was none). *)
Definition merged {A} (field : LivePanel.LiveStep -> option A)
    (before : option LivePanel.LiveStep) (given : option (option A)) : option A :=
  default (before ≫= field) given.

(** ** [extractCode] of [lib/test-generator.ts] *)

(** String methods on UTF-16 code units. *)
Module Units.

(** [s.startsWith(prefix)] and [s.endsWith(suffix)]. *)
Fixpoint startsWith (prefix s : list N) : bool :=
  match prefix, s with
  | [], _ => true
  | p :: prefix', c :: s' => (p =? c)%N && startsWith prefix' s'
  | _ :: _, [] => false
  end.

Definition endsWith (suffix s : list N) : bool :=
  startsWith (rev suffix) (rev s).

(** [s.indexOf(needle)]; [None] stands for [-1]. *)
Fixpoint indexOf (needle s : list N) : option nat :=
  if startsWith needle s then Some 0%nat
  else match s with
       | [] => None
       | _ :: rest => S <$> indexOf needle rest
       end.

End Units.

Definition importWord : list N := ofAscii "import".

Section ExtractCode.

(** The first capture group of the leftmost match of the code-fence
    pattern in the response, [None] when [match] returns [null].  The
    properties below hold whatever the pattern captures. *)
Variable fencedBody : list N -> option (list N).

Definition extractCode (response : list N) : list N :=
  match fencedBody response with
  | Some body => trim body
  | None =>
      if Units.startsWith importWord (trim response) then trim response
      else match Units.indexOf importWord response with
           | Some importIndex => trim (drop importIndex response)
           | None => trim response
           end
  end.

End ExtractCode.

(** ** [readDotEnv] of [lib/config.ts] *)

Definition lineFeed : N := 10.
Definition hash : N := 35.
Definition equalsSign : N := 61.
Definition doubleQuoteUnit : N := 34.
Definition singleQuoteUnit : N := 39.

Definition isQuoted (value : list N) : bool :=
  Units.startsWith [doubleQuoteUnit] value && Units.endsWith [doubleQuoteUnit] value
  || Units.startsWith [singleQuoteUnit] value && Units.endsWith [singleQuoteUnit] value.

(** [value.slice(1, -1)]: the units from index 1 up to the last one,
    which is left out. *)
Definition sliceInner (value : list N) : list N :=
  take (length value - 2) (drop 1 value).

Definition unquote (value : list N) : list N :=
  if isQuoted value then sliceInner value else value.

Definition protoKey : list N := ofAscii "__proto__".

(** [result[key] = value] on an object created by [{}]: the own
    properties of [result] are a finite map.  The key [__proto__] names
    the accessor inherited from [Object.prototype], whose setter ignores
    a string, so that no own property is created. *)
Definition assignKey (key value : list N) (result : gmap (list N) (list N))
    : gmap (list N) (list N) :=
  if decide (key = protoKey) then result else <[key := value]> result.

(** The body of the loop over the lines of the file. *)
Definition readLine (result : gmap (list N) (list N)) (line : list N)
    : gmap (list N) (list N) :=
  let trimmed := trim line in
  if isEmpty trimmed || Units.startsWith [hash] trimmed then result
  else match Units.indexOf [equalsSign] trimmed with
       | Some eqIndex =>
           if (0 <? eqIndex)%nat
           then let key := trim (take eqIndex trimmed) in
                let value := trim (drop (S eqIndex) trimmed) in
                assignKey key (unquote value) result
           else result
       | None => result
       end.

(** [readDotEnv] on the text of an existing, readable file; for a file
    that is absent or cannot be read the function returns the empty
    record. *)
Definition readDotEnvContent (content : list N) : gmap (list N) (list N) :=
  fold_left readLine (splitOn lineFeed content) ∅.

(** A key as it can come out of [readDotEnv]. *)
Definition envKey (key : list N) : Prop :=
  key <> [] /\ (equalsSign ∉ key) /\ (lineFeed ∉ key) /\ key <> protoKey /\
  head key <> Some hash /\
  (forall c, head key = Some c -> isWhiteSpace c = false) /\
  (forall c, last key = Some c -> isWhiteSpace c = false).

(** A value as it is written after the [=] sign: on one line, with no
    white space at either end. *)
Definition envValue (value : list N) : Prop :=
  (lineFeed ∉ value) /\
  (forall c, head value = Some c -> isWhiteSpace c = false) /\
  (forall c, last value = Some c -> isWhiteSpace c = false).

(** Blanks around a key or a value: white space other than a line feed. *)
Definition blanks (pad : list N) : Prop :=
  Forall (fun c => isWhiteSpace c = true /\ c <> lineFeed) pad.

(** * Properties *)

(** ** Monad and file-system facts *)

Lemma FS_eta (fs : FS) : MkStore (files fs) (readOnly fs) (directories fs) = fs.
Proof. by destruct fs. Qed.

Lemma withFiles_files (fs : FS) : withFiles (files fs) fs = fs.
Proof. apply FS_eta. Qed.

Lemma locked_mkFS (m : gmap string string) (lk : gset string) : locked (mkFS m lk) = lk.
Proof. unfold locked, mkFS. simpl. apply union_empty_r_L. Qed.

Lemma writeFileSync_spec (p content : string) (fs : FS) :
  writeFileSync p content fs =
    if decide (p ∈ locked fs)
    then (fs, Thrown (writeError fs p))
    else (withFiles (<[p := content]> (files fs)) fs, Returned tt).
Proof.
  unfold writeFileSync, writeError, locked.
  destruct (decide (p ∈ directories fs)) as [Hdir | Hdir].
  - rewrite decide_True; [done | by apply elem_of_union_r].
  - destruct (decide (p ∈ readOnly fs)) as [Hro | Hro].
    + rewrite decide_True; [done | by apply elem_of_union_l].
    + rewrite decide_False; [done |]. by intros [? | ?]%elem_of_union.
Qed.

Lemma rollbackFile_spec (file : BackupFile) (fs : FS) :
  rollbackFile file fs =
    if blocked fs file
    then (fs, Thrown (rollbackError fs file))
    else (withFiles (restoreEntry (files fs) file) fs, Returned tt).
Proof.
  unfold rollbackFile, blocked, rollbackError, restoreEntry.
  destruct (String.eqb (bk_originalContent file) "") eqn:Hsent; simpl.
  - unfold bind, existsSync, gets, unlinkSync, ret.
    destruct (decide (bk_filePath file ∈ directories fs)) as [Hdir | Hdir].
    + rewrite (bool_decide_eq_true_2 _ Hdir). simpl. by rewrite decide_True.
    + rewrite (bool_decide_eq_false_2 _ Hdir). simpl.
      destruct (files fs !! bk_filePath file) eqn:Hlook; simpl.
      * by rewrite decide_False, Hlook.
      * by rewrite delete_id, withFiles_files.
  - rewrite writeFileSync_spec.
    destruct (decide (bk_filePath file ∈ locked fs)) as [Hin | Hout].
    + by rewrite bool_decide_eq_true_2.
    + by rewrite bool_decide_eq_false_2.
Qed.

Lemma unblockedPrefix_withFiles (m : gmap string string) (fs : FS) (es : list BackupFile) :
  unblockedPrefix (withFiles m fs) es = unblockedPrefix fs es.
Proof.
  induction es as [| e es IH]; simpl; [done |].
  change (blocked (withFiles m fs) e) with (blocked fs e). by rewrite IH.
Qed.

Lemma rollbackOutcome_withFiles (m : gmap string string) (fs : FS) (es : list BackupFile) :
  rollbackOutcome (withFiles m fs) es = rollbackOutcome fs es.
Proof.
  induction es as [| e es IH]; simpl; [done |].
  change (blocked (withFiles m fs) e) with (blocked fs e). by rewrite IH.
Qed.

Lemma rollbackFiles_spec (es : list BackupFile) (fs : FS) :
  rollbackFiles es fs =
    (withFiles (foldl restoreEntry (files fs) (unblockedPrefix fs es)) fs,
     rollbackOutcome fs es).
Proof.
  revert fs. induction es as [| e es IH]; intros fs; simpl.
  - by rewrite withFiles_files.
  - unfold bind. rewrite rollbackFile_spec.
    destruct (blocked fs e); simpl.
    + by rewrite withFiles_files.
    + by rewrite IH, unblockedPrefix_withFiles, rollbackOutcome_withFiles.
Qed.

Lemma lookup_restoreEntry (m : gmap string string) (e : BackupFile) (p : string) :
  restoreEntry m e !! p =
    if decide (bk_filePath e = p)
    then (if String.eqb (bk_originalContent e) "" then None
          else Some (bk_originalContent e))
    else m !! p.
Proof.
  unfold restoreEntry.
  destruct (String.eqb (bk_originalContent e) ""); case_decide; subst.
  - apply lookup_delete_eq.
  - by apply lookup_delete_ne.
  - apply lookup_insert_eq.
  - by apply lookup_insert_ne.
Qed.

Lemma lookup_restored (es : list BackupFile) (m : gmap string string) (p : string) :
  foldl restoreEntry m es !! p = restoredAt p es (m !! p).
Proof.
  revert m. induction es as [| e es IH]; intros m; simpl; [done |].
  by rewrite IH, lookup_restoreEntry.
Qed.

(** Either the entries leave [p] alone, or they decide its content whatever
    it was before. *)
Lemma restoredAt_dichotomy (p : string) (es : list BackupFile) :
  (forall o, restoredAt p es o = o) \/
  (forall o o', restoredAt p es o = restoredAt p es o').
Proof.
  induction es as [| e es IH]; simpl; [by left |].
  case_decide; [by right |]. done.
Qed.

Lemma restoredAt_idempotent (p : string) (es : list BackupFile) (o : option string) :
  restoredAt p es (restoredAt p es o) = restoredAt p es o.
Proof.
  destruct (restoredAt_dichotomy p es) as [Hid | Hconst].
  - by rewrite !Hid.
  - apply Hconst.
Qed.

Lemma restore_idempotent (es : list BackupFile) (m : gmap string string) :
  foldl restoreEntry (foldl restoreEntry m es) es = foldl restoreEntry m es.
Proof.
  apply map_eq; intros p.
  by rewrite !lookup_restored, restoredAt_idempotent.
Qed.

(** C9 (rollback idempotence).  For every backup set and every store,
    running [rollbackFix] a second time, from the store the first run left,
    ends in the same store with the same outcome as the first run; in
    particular the sequence of two rollbacks equals a single rollback.  This
    covers backups with repeated paths and runs in which a restore throws. *)
Theorem rollbackFix_idempotent (backup : FixBackup) (fs : FS) :
  rollbackFix backup (rollbackFix backup fs).1 = rollbackFix backup fs /\
  (rollbackFix backup ;;; rollbackFix backup) fs = rollbackFix backup fs.
Proof.
  assert (Hsnd : rollbackFix backup (rollbackFix backup fs).1 = rollbackFix backup fs).
  { unfold rollbackFix. rewrite !rollbackFiles_spec. simpl.
    rewrite unblockedPrefix_withFiles, rollbackOutcome_withFiles.
    by rewrite restore_idempotent. }
  split; [done |].
  unfold bind. by destruct (rollbackFix backup fs) as [fs1 [[] | msg |]] eqn:Hfst.
Qed.

(** ** [applyFix] followed by [rollbackFix] *)

(** One pass of the loop of [applyFix]. *)
Lemma applyChanges_cons (config : AgentConfig) (c : FileChange) (cs : list FileChange)
    (backup : list BackupFile) (fs : FS) :
  applyChanges config (c :: cs) backup fs =
    if decide (changePath config c ∈ locked fs)
    then (fs, Thrown (applyError fs (changePath config c)))
    else applyChanges config cs (backup ++ [snapshot (files fs) (changePath config c)])
           (withFiles (<[changePath config c := modifiedContent c]> (files fs)) fs).
Proof.
  simpl. set (p := changePath config c).
  unfold bind at 1, existsSync, gets, applyError.
  destruct (decide (p ∈ directories fs)) as [Hdir | Hdir].
  - rewrite (bool_decide_eq_true_2 _ Hdir). simpl.
    rewrite decide_True by (by apply elem_of_union_r).
    unfold bind, readFileSync. by rewrite decide_True.
  - rewrite (bool_decide_eq_false_2 _ Hdir). simpl.
    assert (Hentry :
      (if match files fs !! p with Some _ => true | None => false end
       then content <- readFileSync p ;; ret (mkBackupFile p content)
       else ret (mkBackupFile p "")) fs
      = (fs, Returned (snapshot (files fs) p))).
    { unfold snapshot, bind, readFileSync, ret.
      destruct (files fs !! p) eqn:Hlook; simpl; [| done].
      by rewrite decide_False, Hlook. }
    unfold bind at 1. rewrite Hentry. unfold bind at 1. rewrite writeFileSync_spec.
    destruct (decide (p ∈ locked fs)) as [Hin | Hout]; [| done].
    unfold writeError. by rewrite decide_False.
Qed.

Lemma applyChanges_returned (config : AgentConfig) (cs : list FileChange) :
  forall (backup : list BackupFile) (fs fs1 : FS) (backup1 : list BackupFile),
    applyChanges config cs backup fs = (fs1, Returned backup1) ->
    Forall (fun c => changePath config c ∉ locked fs) cs /\
    fs1 = withFiles (applyPure config cs (files fs) backup).1 fs /\
    backup1 = (applyPure config cs (files fs) backup).2.
Proof.
  induction cs as [| c cs IH]; intros backup fs fs1 backup1.
  - simpl. unfold ret. intros [= <- <-]. by rewrite withFiles_files.
  - rewrite applyChanges_cons.
    destruct (decide (changePath config c ∈ locked fs)) as [Hin | Hout]; [done |].
    intros Hrest. apply IH in Hrest as (Hall & -> & ->). simpl. auto.
Qed.

Lemma blocked_free (fs : FS) (e : BackupFile) :
  bk_filePath e ∉ locked fs -> blocked fs e = false.
Proof.
  intros Hfree. unfold blocked.
  destruct (String.eqb (bk_originalContent e) "").
  - apply bool_decide_eq_false_2. intros Hdir. apply Hfree. by apply elem_of_union_r.
  - by apply bool_decide_eq_false_2.
Qed.

Lemma snapshot_insert_ne (m : gmap string string) (p q x : string) :
  p <> q -> snapshot (<[p := x]> m) q = snapshot m q.
Proof. intros Hne. unfold snapshot. by rewrite lookup_insert_ne. Qed.

Lemma applyPure_backup (config : AgentConfig) (cs : list FileChange) :
  forall (m : gmap string string) (backup : list BackupFile),
    NoDup (map (changePath config) cs) ->
    (applyPure config cs m backup).2 =
      backup ++ map (snapshot m) (map (changePath config) cs).
Proof.
  induction cs as [| c cs IH]; intros m backup Hnd; simpl.
  - by rewrite app_nil_r.
  - apply NoDup_cons in Hnd as [Hnotin Hnd].
    rewrite IH by done. rewrite <- app_assoc. simpl. do 2 f_equal.
    apply map_ext_in. intros q Hq. apply snapshot_insert_ne.
    intros <-. apply Hnotin. by apply list_elem_of_In.
Qed.

Lemma applyPure_lookup_other (config : AgentConfig) (cs : list FileChange) (p : string) :
  forall (m : gmap string string) (backup : list BackupFile),
    p ∉ map (changePath config) cs ->
    (applyPure config cs m backup).1 !! p = m !! p.
Proof.
  induction cs as [| c cs IH]; intros m backup Hp; simpl; [done |].
  simpl in Hp. apply not_elem_of_cons in Hp as [Hne Hp].
  rewrite IH by done. by apply lookup_insert_ne.
Qed.

Lemma restoredAt_snapshots (m : gmap string string) (p : string) (ps : list string) :
  forall o,
    restoredAt p (map (snapshot m) ps) o =
      if decide (p ∈ ps) then throughSentinel (m !! p) else o.
Proof.
  induction ps as [| q ps IH]; intros o; simpl.
  - done.
  - rewrite IH.
    destruct (decide (p ∈ ps)) as [Hin | Hout].
    + rewrite decide_True; [done | by apply list_elem_of_further].
    + destruct (decide (q = p)) as [-> | Hne].
      * rewrite decide_True by apply list_elem_of_here.
        unfold throughSentinel. by destruct (m !! p) as [c |].
      * rewrite decide_False; [done |].
        intros Hin. apply elem_of_cons in Hin as [-> | Hin]; done.
Qed.

Lemma apply_rollback_lookup (config : AgentConfig) (now : Z) (fixResult : FixResult)
    (fs fs1 : FS) (backup : FixBackup) :
  distinctTargets config fixResult ->
  applyFix config now fixResult fs = (fs1, Returned backup) ->
  exists m2,
    rollbackFix backup fs1 = (withFiles m2 fs, Returned tt) /\
    forall p, m2 !! p =
      if decide (p ∈ map (changePath config) (changes fixResult))
      then throughSentinel (files fs !! p)
      else files fs !! p.
Proof.
  intros Hnd Happly. unfold applyFix, bind in Happly.
  destruct (applyChanges config (changes fixResult) [] fs) as [fs' [b | msg |]] eqn:Hrun;
    try done.
  unfold ret in Happly. injection Happly as -> <-.
  apply applyChanges_returned in Hrun as (Hfree & -> & ->).
  rewrite applyPure_backup by done. simpl.
  unfold rollbackFix. simpl. rewrite rollbackFiles_spec.
  rewrite unblockedPrefix_withFiles, rollbackOutcome_withFiles. simpl.
  set (ps := map (changePath config) (changes fixResult)).
  assert (Hfree' : Forall (fun p => p ∉ locked fs) ps).
  { unfold ps. by apply Forall_map. }
  assert (Hpre : unblockedPrefix fs (map (snapshot (files fs)) ps)
                 = map (snapshot (files fs)) ps).
  { clear -Hfree'. induction Hfree' as [| q qs Hq _ IH]; simpl; [done |].
    rewrite blocked_free by done. by rewrite IH. }
  assert (Hout : rollbackOutcome fs (map (snapshot (files fs)) ps) = Returned tt).
  { clear -Hfree'. induction Hfree' as [| q qs Hq _ IH]; simpl; [done |].
    by rewrite blocked_free. }
  rewrite Hpre, Hout. eexists. split; [done |].
  intros p. rewrite lookup_restored, restoredAt_snapshots.
  case_decide as Hp; [done |]. by apply applyPure_lookup_other.
Qed.

(** With distinct targets, none of them an existing empty file, the store
    after apply and rollback is the store before. *)
Lemma apply_rollback_exact (config : AgentConfig) (now : Z) (fixResult : FixResult)
    (fs fs1 : FS) (backup : FixBackup) :
  distinctTargets config fixResult ->
  noEmptyTarget config fixResult fs ->
  applyFix config now fixResult fs = (fs1, Returned backup) ->
  rollbackFix backup fs1 = (fs, Returned tt).
Proof.
  intros Hnd Hne Happly.
  destruct (apply_rollback_lookup _ _ _ _ _ _ Hnd Happly) as (m2 & -> & Hlook).
  f_equal. rewrite <- (withFiles_files fs) at 2. f_equal.
  apply map_eq. intros p. rewrite Hlook. case_decide as Hp; [| done].
  specialize (Hne p Hp).
  destruct (files fs !! p) as [c |]; simpl; [| done].
  destruct (String.eqb c "") eqn:He; [| done].
  apply String.eqb_eq in He. subst c. by destruct Hne.
Qed.

(** C2 (apply then rollback), as amended.  When the changes of a fix name
    pairwise distinct files, [rollbackFix] on the backup that [applyFix]
    returned completes normally and leaves every path outside the fix
    untouched; a changed file that existed with non-empty content regains
    that content, and a changed file that did not exist is deleted.  A
    changed file that existed with empty content is deleted too, the empty
    string being the absence sentinel; when no such file is involved the
    whole store is restored exactly. *)
Theorem apply_then_rollback (config : AgentConfig) (now : Z) (fixResult : FixResult)
    (fs fs1 : FS) (backup : FixBackup) :
  distinctTargets config fixResult ->
  applyFix config now fixResult fs = (fs1, Returned backup) ->
  exists fs2,
    rollbackFix backup fs1 = (fs2, Returned tt) /\
    (forall p, p ∉ map (changePath config) (changes fixResult) ->
               files fs2 !! p = files fs !! p) /\
    (forall p c, p ∈ map (changePath config) (changes fixResult) ->
                 files fs !! p = Some c -> c <> "" -> files fs2 !! p = Some c) /\
    (forall p, p ∈ map (changePath config) (changes fixResult) ->
               files fs !! p = None -> files fs2 !! p = None) /\
    (forall p, p ∈ map (changePath config) (changes fixResult) ->
               files fs !! p = Some "" -> files fs2 !! p = None) /\
    (noEmptyTarget config fixResult fs -> fs2 = fs).
Proof.
  intros Hnd Happly.
  destruct (apply_rollback_lookup _ _ _ _ _ _ Hnd Happly) as (m2 & Hroll & Hlook).
  exists (withFiles m2 fs). split; [done |]. simpl.
  repeat split.
  - intros p Hp. by rewrite Hlook, decide_False.
  - intros p c Hp Hc Hne. rewrite Hlook, decide_True, Hc by done. simpl.
    destruct (String.eqb c "") eqn:He; [| done]. by apply String.eqb_eq in He.
  - intros p Hp Hc. by rewrite Hlook, decide_True, Hc.
  - intros p Hp Hc. by rewrite Hlook, decide_True, Hc.
  - intros Hne. pose proof (apply_rollback_exact _ _ _ _ _ _ Hnd Hne Happly) as Hexact.
    rewrite Hroll in Hexact. by injection Hexact.
Qed.

Lemma apply_then_rollback_witness :
  exists fs2,
    rollbackFix (mkFixBackup 0 [mkBackupFile "/w/a.ts" "old"; mkBackupFile "/w/b.ts" ""])
      (mkFS (<["/w/b.ts" := "fresh"]> (<["/w/a.ts" := "new"]> {[ "/w/a.ts" := "old" ]})) ∅)
      = (fs2, Returned tt) /\
    (forall p, p ∉ map (changePath sampleConfig) (changes sampleFix) ->
               files fs2 !! p = files sampleStore !! p) /\
    (forall p c, p ∈ map (changePath sampleConfig) (changes sampleFix) ->
                 files sampleStore !! p = Some c -> c <> "" -> files fs2 !! p = Some c) /\
    (forall p, p ∈ map (changePath sampleConfig) (changes sampleFix) ->
               files sampleStore !! p = None -> files fs2 !! p = None) /\
    (forall p, p ∈ map (changePath sampleConfig) (changes sampleFix) ->
               files sampleStore !! p = Some "" -> files fs2 !! p = None) /\
    (noEmptyTarget sampleConfig sampleFix sampleStore -> fs2 = sampleStore).
Proof.
  apply (apply_then_rollback sampleConfig 0 sampleFix sampleStore).
  - unfold distinctTargets. apply (bool_decide_unpack _). vm_compute. exact I.
  - reflexivity.
Defined.

(** C2, the statement as given fails.  With no condition on the input, an
    existing empty file is deleted by the rollback; excluding empty files,
    a fix that names the same file twice is rolled back to the content its
    first change wrote; excluding repeated files alone, the empty file is
    still lost. *)
Lemma apply_rollback_not_exact :
  ~ apply_rollback_restores_exactly (fun _ _ _ => True) /\
  ~ apply_rollback_restores_exactly (fun config fixResult fs =>
      noEmptyTarget config fixResult fs) /\
  ~ apply_rollback_restores_exactly (fun config fixResult _ =>
      distinctTargets config fixResult).
Proof.
  set (emptyFix := mkFixResult [change "/w/e.ts" "x"] "e" "a").
  set (emptyStore := mkFS {[ "/w/e.ts" := "" ]} ∅).
  assert (Hempty : forall admissible,
            admissible sampleConfig emptyFix emptyStore ->
            ~ apply_rollback_restores_exactly admissible).
  { intros admissible Hadm Hclaim.
    assert (Ha : applyFix sampleConfig 0 emptyFix emptyStore
                 = (mkFS {[ "/w/e.ts" := "x" ]} ∅,
                    Returned (mkFixBackup 0 [mkBackupFile "/w/e.ts" ""])))
      by (vm_compute; reflexivity).
    assert (Hr : rollbackFix (mkFixBackup 0 [mkBackupFile "/w/e.ts" ""])
                   (mkFS {[ "/w/e.ts" := "x" ]} ∅)
                 = (mkFS ∅ ∅, Returned tt))
      by (vm_compute; reflexivity).
    pose proof (Hclaim _ _ _ _ _ _ _ _ Hadm Ha Hr) as Heq.
    apply (f_equal (fun m : gmap string string => m !! "/w/e.ts")) in Heq.
    vm_compute in Heq. discriminate. }
  split; [| split].
  - by apply Hempty.
  - intros Hclaim.
    set (twice := mkFixResult [change "/w/a.ts" "m1"; change "/w/a.ts" "m2"] "e" "a").
    assert (Ha : applyFix sampleConfig 0 twice sampleStore
                 = (mkFS {[ "/w/a.ts" := "m2" ]} ∅,
                    Returned (mkFixBackup 0 [mkBackupFile "/w/a.ts" "old";
                                             mkBackupFile "/w/a.ts" "m1"])))
      by (vm_compute; reflexivity).
    assert (Hr : rollbackFix (mkFixBackup 0 [mkBackupFile "/w/a.ts" "old";
                                             mkBackupFile "/w/a.ts" "m1"])
                   (mkFS {[ "/w/a.ts" := "m2" ]} ∅)
                 = (mkFS {[ "/w/a.ts" := "m1" ]} ∅, Returned tt))
      by (vm_compute; reflexivity).
    assert (Hadm : noEmptyTarget sampleConfig twice sampleStore).
    { intros p Hp. simpl in Hp.
      assert (p = "/w/a.ts") as ->.
      { apply elem_of_cons in Hp as [-> | Hp]; [done |].
        apply elem_of_cons in Hp as [-> | Hp]; [done |].
        by apply elem_of_nil in Hp. }
      vm_compute. discriminate. }
    pose proof (Hclaim _ _ _ _ _ _ _ _ Hadm Ha Hr) as Heq.
    apply (f_equal (fun m : gmap string string => m !! "/w/a.ts")) in Heq.
    vm_compute in Heq. discriminate.
  - apply Hempty. unfold distinctTargets. simpl. apply NoDup_singleton.
Qed.

(** ** [generateSimpleDiff] *)

Lemma contextCount_app (l r : list string) :
  contextCount (l ++ r) = (contextCount l + contextCount r)%nat.
Proof. unfold contextCount. by rewrite List.filter_app, length_app. Qed.

Lemma hasEdit_app (l r : list string) : hasEdit (l ++ r) = hasEdit l || hasEdit r.
Proof. apply existsb_app. Qed.

Lemma isEdit_not_context (l : string) : isEdit l = true -> isContext l = false.
Proof.
  unfold isEdit, isContext. destruct l as [| a l]; simpl; [done |].
  destruct (Ascii.eqb_spec a "-") as [-> | ?]; [done |].
  destruct (Ascii.eqb_spec a "+") as [-> | ?]; done.
Qed.

Lemma leadingContext_app (l r : list string) :
  hasEdit l = true -> leadingContext (l ++ r) = leadingContext l.
Proof.
  induction l as [| x l IH]; simpl; [done |].
  destruct (isEdit x) eqn:Hx; simpl.
  - by rewrite (isEdit_not_context _ Hx).
  - intros Hl. destruct (isContext x); [| done]. by rewrite IH.
Qed.

Ltac side_goal := try done; try lia; try (unfold contextCount; simpl; lia).

Lemma diffInv_init (fileName : string) : diffInv fileName (diffInit fileName).
Proof.
  unfold diffInv, diffInit; simpl.
  repeat split; side_goal.
  exists []. by split.
Qed.

Lemma editsOf_shape (origLine modLine : option string) :
  origLine <> modLine ->
  Forall (fun l => isContext l || isEdit l = true) (editsOf origLine modLine) /\
  hasEdit (editsOf origLine modLine) = true /\
  contextCount (editsOf origLine modLine) = O.
Proof.
  intros Hne. destruct origLine as [o |], modLine as [m |]; simpl; try done.
  all: repeat split; repeat constructor.
Qed.

Lemma editsOf_leading (origLine modLine : option string) :
  leadingContext (editsOf origLine modLine) = O.
Proof. by destruct origLine, modLine. Qed.

Lemma diffStep_inv (fileName : string) (origLines modLines : list string)
    (st : DiffState) (i : nat) :
  diffInv fileName st -> diffInv fileName (diffStep origLines modLines st i).
Proof.
  intros ([hs [Hlines Hhs]] & Hall & Hclosed & Hopen & Hcount & Hlead).
  unfold diffStep. fold (editsOf (origLines !! i) (modLines !! i)).
  destruct (decide (origLines !! i = modLines !! i)) as [Heq | Hne].
  - destruct (inHunk st) eqn:Hin; [| by repeat split; eauto].
    specialize (Hopen eq_refl).
    set (body := hunkLines st ++ [" " +:+ lineText (origLines !! i)]).
    assert (Hbody : Forall (fun l => isContext l || isEdit l = true) body).
    { apply Forall_app. split; [done |]. by repeat constructor. }
    assert (Hc : contextCount body = S (contextCount (hunkLines st))).
    { unfold body. rewrite contextCount_app. unfold contextCount at 2. simpl. lia. }
    assert (He : hasEdit body = true).
    { unfold body. by rewrite hasEdit_app, Hopen. }
    assert (Hl : leadingContext body = leadingContext (hunkLines st)).
    { unfold body. by rewrite leadingContext_app. }
    change (length (List.filter isContext body)) with (contextCount body).
    destruct (3 <=? contextCount body)%nat eqn:Hfull.
    + unfold diffInv; simpl. repeat split; side_goal.
      exists (hs ++ [(hunkStart st, body)]). split.
      * rewrite Hlines, map_app, concat_app. simpl.
        by rewrite ?app_nil_r, <- ?app_assoc.
      * apply Forall_app. split; [done |]. constructor; [| done].
        apply Nat.leb_le in Hfull.
        unfold closedHunk, hunkShape; simpl. repeat split; side_goal.
    + apply Nat.leb_gt in Hfull.
      unfold diffInv; simpl. repeat split; side_goal.
      by exists hs.
  - destruct (editsOf_shape _ _ Hne) as (Hedits & Hhas & Hzero).
    destruct (inHunk st) eqn:Hin.
    + specialize (Hopen eq_refl).
      unfold diffInv; simpl.
      rewrite Hin, hasEdit_app, Hopen, contextCount_app, Hzero, leadingContext_app by done.
      repeat split; side_goal.
      * by exists hs.
      * by apply Forall_app.
    + rewrite (Hclosed eq_refl). simpl.
      set (lead := if (0 <? i)%nat
                   then [" " +:+ lineText (origLines !! (i - 1)%nat)] else []).
      assert (Hlead1 : Forall (fun l => isContext l || isEdit l = true) lead /\
                       (contextCount lead <= 1)%nat /\
                       (leadingContext (lead ++ editsOf (origLines !! i) (modLines !! i))
                        <= 1)%nat).
      { pose proof (editsOf_leading (origLines !! i) (modLines !! i)) as Hzl.
        unfold lead. destruct (0 <? i)%nat.
        - split; [by repeat constructor |]. split; [side_goal |].
          simpl. rewrite Hzl. lia.
        - split; [done |]. split; [side_goal |].
          simpl. rewrite Hzl. lia. }
      destruct Hlead1 as (Hl1 & Hl2 & Hl3).
      unfold diffInv; simpl.
      rewrite hasEdit_app, Hhas, orb_true_r, contextCount_app, Hzero.
      repeat split; side_goal.
      * by exists hs.
      * by apply Forall_app.
Qed.

Lemma diffLoop_inv (fileName : string) (origLines modLines : list string)
    (idx : list nat) (st : DiffState) :
  diffInv fileName st ->
  diffInv fileName (fold_left (diffStep origLines modLines) idx st).
Proof.
  revert st. induction idx as [| i idx IH]; intros st Hst; simpl; [done |].
  apply IH. by apply diffStep_inv.
Qed.

Lemma generateSimpleDiffLines_hunks (fileName original modified : string) :
  exists closed last : list (Z * list string),
    generateSimpleDiffLines fileName original modified =
      ["--- a/" +:+ fileName; "+++ b/" +:+ fileName]
      ++ concat (map renderHunk (closed ++ last)) /\
    Forall closedHunk closed /\ Forall lastHunk last /\ (length last <= 1)%nat.
Proof.
  unfold generateSimpleDiffLines.
  set (st := fold_left _ _ _).
  assert (Hinv : diffInv fileName st) by apply diffLoop_inv, diffInv_init.
  destruct Hinv as ([hs [Hlines Hhs]] & Hall & Hclosed & Hopen & Hcount & Hlead).
  unfold diffFlush. destruct (0 <? length (hunkLines st))%nat eqn:Hlen.
  - exists hs, [(hunkStart st, hunkLines st)]. split_and!; [| done | | done].
    + rewrite Hlines, map_app, concat_app. simpl.
      by rewrite ?app_nil_r, <- ?app_assoc.
    + constructor; [| done].
      unfold lastHunk, hunkShape; simpl. repeat split; side_goal.
      destruct (inHunk st) eqn:Hin; [by apply Hopen |].
      rewrite (Hclosed eq_refl) in Hlen. done.
  - exists hs, []. rewrite app_nil_r. split_and!; try done. simpl. lia.
Qed.

Lemma parseChange_diff (relevantFiles : list RelevantFile) (workspaceRoot : string)
    (change : string * string) (fs fs' : FS) (fc : FileChange) :
  parseChange relevantFiles workspaceRoot change fs = (fs', Returned fc) ->
  relativePath fc = change.1 /\
  modifiedContent fc = change.2 /\
  diff fc = generateSimpleDiff (relativePath fc) (originalContent fc) (modifiedContent fc).
Proof.
  unfold parseChange, bind.
  match goal with |- context [match ?m fs with _ => _ end] => destruct (m fs) as [fs1 [c | |]] end;
    try done.
  unfold ret. by intros [= <- <-].
Qed.

(** C7 (the diff of a file change), as amended.  The diff stored on a
    [FileChange] that [parseFixResponse] builds is [generateSimpleDiff]
    applied to the change's relative path, original content and modified
    content, so recomputing it from them gives the same string.  Its lines
    are the two file headers followed by hunks.  Every hunk holds a changed
    line and opens with at most one line of context; a hunk is closed as
    soon as it holds three context lines, so every hunk closed inside the
    loop holds exactly three and the hunk flushed at the end of the file,
    if there is one, at most two. *)
Theorem stored_diff_shape (relevantFiles : list RelevantFile) (workspaceRoot : string)
    (change : string * string) (fs fs' : FS) (fc : FileChange) :
  parseChange relevantFiles workspaceRoot change fs = (fs', Returned fc) ->
  diff fc = generateSimpleDiff (relativePath fc) (originalContent fc) (modifiedContent fc) /\
  exists closed last : list (Z * list string),
    diff fc = String.concat nl
                (["--- a/" +:+ relativePath fc; "+++ b/" +:+ relativePath fc]
                 ++ concat (map renderHunk (closed ++ last))) /\
    Forall closedHunk closed /\ Forall lastHunk last /\ (length last <= 1)%nat.
Proof.
  intros Hparse. apply parseChange_diff in Hparse as (_ & _ & Hdiff).
  split; [done |]. rewrite Hdiff. unfold generateSimpleDiff.
  destruct (generateSimpleDiffLines_hunks (relativePath fc) (originalContent fc)
              (modifiedContent fc)) as (closed & last & -> & Hrest).
  by exists closed, last.
Qed.

Lemma stored_diff_shape_witness :
  diff nineLinesChange =
    generateSimpleDiff (relativePath nineLinesChange) (originalContent nineLinesChange)
      (modifiedContent nineLinesChange) /\
  exists closed last : list (Z * list string),
    diff nineLinesChange =
      String.concat nl
        (["--- a/" +:+ relativePath nineLinesChange; "+++ b/" +:+ relativePath nineLinesChange]
         ++ concat (map renderHunk (closed ++ last))) /\
    Forall closedHunk closed /\ Forall lastHunk last /\ (length last <= 1)%nat.
Proof.
  apply (stored_diff_shape [] "/w" ("a.ts", nineLinesFixed) nineLinesStore nineLinesStore).
  vm_compute. reflexivity.
Defined.

(** The diff of the nine-line sample: one hunk with one line of context
    before the change and two after it. *)
Example nineLines_diff :
  generateSimpleDiffLines "a.ts" nineLines nineLinesFixed =
    ["--- a/a.ts"; "+++ b/a.ts"; "@@ -4 +4 @@"; " l4"; "-l5"; "+X"; " l6"; " l7"].
Proof. vm_compute. reflexivity. Qed.

(** C7, the statement as given fails.  Replacing line 5 of a nine-line file
    gives a hunk with one context line before the change and two after it,
    not three on either side; and the diff of the same two contents differs
    with the file name, which its header lines carry. *)
Lemma diff_context_not_three :
  ~ diff_has_three_lines_of_context /\ ~ diff_depends_on_contents_only.
Proof.
  split.
  - intros Hclaim.
    destruct (Hclaim "a.ts" nineLines nineLinesFixed 4%nat "l5" "X") as [header Heq];
      [by vm_compute | by vm_compute | discriminate |].
    vm_compute in Heq. discriminate.
  - intros Hclaim. specialize (Hclaim "a.ts" "b.ts" "" "").
    vm_compute in Hclaim. discriminate.
Qed.

(** ** [analyzeRelevantFiles] *)

(** The loop over the hint files: it throws at the first hint that names
    a directory, and pushes the hinted files otherwise. *)
Lemma addHintFiles_spec (config : AgentConfig) (hintFiles : list string) :
  forall (fs : FS) (known : list RelevantFile),
    exists known',
      addHintFiles config hintFiles (fs, known) =
        ((fs, known'),
         if decide (Exists (fun p => p ∈ directories fs) (map (hintPath config) hintFiles))
         then Thrown directoryRead else Returned tt) /\
      (Forall (fun p => p ∉ directories fs) (map (hintPath config) hintFiles) ->
       known' = known ++ hintedFiles config hintFiles (files fs)).
Proof.
  induction hintFiles as [| filePath rest IH]; intros fs known; simpl.
  - exists known. split; [done |]. by rewrite app_nil_r.
  - set (p := hintPath config filePath).
    unfold bind at 1, liftFS, existsSync, gets; simpl. fold p.
    destruct (decide (p ∈ directories fs)) as [Hdir | Hdir].
    + rewrite (bool_decide_eq_true_2 _ Hdir). simpl.
      unfold bind at 1. unfold bind at 1, readFileSync; simpl.
      rewrite (decide_True (P := p ∈ directories fs)) by done.
      rewrite decide_True by (by apply Exists_cons_hd).
      exists known. split; [done |]. intros Hall. by apply Forall_cons in Hall as [? _].
    + rewrite (bool_decide_eq_false_2 _ Hdir). simpl.
      assert (Hsame :
        (if decide (Exists (fun q => q ∈ directories fs)
                      (p :: map (hintPath config) rest))
         then Thrown directoryRead else Returned tt : Outcome unit)
        = (if decide (Exists (fun q => q ∈ directories fs) (map (hintPath config) rest))
           then Thrown directoryRead else Returned tt)).
      { destruct (decide (Exists _ (map (hintPath config) rest))) as [Hex | Hex].
        - rewrite decide_True; [done | by apply Exists_cons_tl].
        - rewrite decide_False; [done |]. by intros [? | ?]%Exists_cons. }
      rewrite Hsame.
      destruct (files fs !! p) as [content |] eqn:Hlook.
      * unfold bind at 1. unfold bind at 1, readFileSync; simpl.
        rewrite (decide_False (P := p ∈ directories fs)) by done. rewrite Hlook.
        unfold push, modify; simpl.
        destruct (IH fs (known ++ [mkRelevantFile (relative (workspaceRoot config) p) p
                                     content "User-specified file"]))
          as (known' & -> & Hknown').
        exists known'. split; [done |]. intros Hall.
        apply Forall_cons in Hall as [_ Hall]. rewrite (Hknown' Hall).
        by rewrite <- app_assoc.
      * unfold bind at 1, ret.
        destruct (IH fs known) as (known' & -> & Hknown').
        exists known'. split; [done |]. intros Hall.
        apply Forall_cons in Hall as [_ Hall]. by rewrite (Hknown' Hall).
Qed.

Lemma addSuggestedFiles_spec (config : AgentConfig) (entries : list SuggestedEntry) :
  forall (fs : FS) (known : list RelevantFile),
    exists r,
      addSuggestedFiles config entries (fs, known) =
        ((fs, acceptedFiles config fs entries known), r) /\
      r <> Diverged.
Proof.
  induction entries as [| [path reason |] rest IH]; intros fs known; simpl.
  - by exists (Returned tt).
  - set (p := resolve (workspaceRoot config) path).
    unfold bind at 1, liftFS, existsSync, gets; simpl.
    unfold bind at 1, gets; simpl. fold (isKnown p known). fold p.
    destruct (isKnown p known); simpl.
    { rewrite andb_false_r. unfold bind at 1, ret. apply IH. }
    rewrite andb_true_r.
    destruct (decide (p ∈ directories fs)) as [Hdir | Hdir].
    + rewrite (bool_decide_eq_true_2 _ Hdir). simpl.
      unfold bind at 1. unfold bind at 1, readFileSync; simpl.
      rewrite decide_True by done. by eexists.
    + rewrite (bool_decide_eq_false_2 _ Hdir). simpl.
      destruct (files fs !! p) as [content |] eqn:Hlook.
      * unfold bind at 1. unfold bind at 1, readFileSync; simpl.
        rewrite decide_False by done. rewrite Hlook.
        destruct (Z.of_nat (jsLength content) <=? sizeCap).
        -- unfold push, modify; simpl. apply IH.
        -- unfold ret. apply IH.
      * unfold bind at 1, ret. apply IH.
  - eexists. by split.
Qed.

Lemma isKnown_elem_of (p : string) (known : list RelevantFile) :
  isKnown p known = true <-> p ∈ map rf_absolutePath known.
Proof.
  unfold isKnown. rewrite existsb_exists, list_elem_of_fmap. split.
  - intros (f & Hin & Heq). exists f. apply String.eqb_eq in Heq.
    split; [done | by apply list_elem_of_In].
  - intros (f & -> & Hin). exists f. split; [by apply list_elem_of_In |].
    apply String.eqb_refl.
Qed.

(** The loop over the suggestions only appends, in service order, files
    that are on disk, within the size cap and not yet present; and it
    passes over no such candidate among those it gets to read. *)
Lemma acceptedFiles_spec (config : AgentConfig) (fs : FS)
    (entries : list SuggestedEntry) :
  forall known : list RelevantFile,
    Forall (fun f => rf_absolutePath f ∉ directories fs) known ->
    exists suggested,
      acceptedFiles config fs entries known = known ++ suggested /\
      map (fun f => (rf_relativePath f, rf_reason f)) suggested
        `sublist_of` readablePrefix config fs entries /\
      Forall (serviceSuggested config fs) suggested /\
      Forall (fun f => rf_absolutePath f ∉ map rf_absolutePath known) suggested /\
      NoDup (map rf_absolutePath suggested) /\
      (forall path reason content,
          (path, reason) ∈ readablePrefix config fs entries ->
          files fs !! resolve (workspaceRoot config) path = Some content ->
          Z.of_nat (jsLength content) <= sizeCap ->
          resolve (workspaceRoot config) path
            ∈ map rf_absolutePath (known ++ suggested)).
Proof.
  assert (Hnone : forall known : list RelevantFile,
            exists suggested : list RelevantFile,
              known = known ++ suggested /\
              map (fun f => (rf_relativePath f, rf_reason f)) suggested `sublist_of` [] /\
              Forall (serviceSuggested config fs) suggested /\
              Forall (fun f => rf_absolutePath f ∉ map rf_absolutePath known) suggested /\
              NoDup (map rf_absolutePath suggested) /\
              (forall path reason content,
                  (path, reason) ∈ @nil (string * string) ->
                  files fs !! resolve (workspaceRoot config) path = Some content ->
                  Z.of_nat (jsLength content) <= sizeCap ->
                  resolve (workspaceRoot config) path
                    ∈ map rf_absolutePath (known ++ suggested))).
  { intros known. exists []. rewrite app_nil_r. split_and!; try done; try constructor.
    intros ? ? ? Hin. by apply elem_of_nil in Hin. }
  induction entries as [| [path reason |] rest IH]; intros known Hfiles; simpl;
    [apply Hnone | | apply Hnone].
  set (p := resolve (workspaceRoot config) path).
  assert (Hskip :
    (forall content, files fs !! p = Some content ->
                     Z.of_nat (jsLength content) <= sizeCap ->
                     p ∈ map rf_absolutePath known) ->
    exists suggested,
      acceptedFiles config fs rest known = known ++ suggested /\
      map (fun f => (rf_relativePath f, rf_reason f)) suggested
        `sublist_of` (path, reason) :: readablePrefix config fs rest /\
      Forall (serviceSuggested config fs) suggested /\
      Forall (fun f => rf_absolutePath f ∉ map rf_absolutePath known) suggested /\
      NoDup (map rf_absolutePath suggested) /\
      (forall path' reason' content,
          (path', reason') ∈ (path, reason) :: readablePrefix config fs rest ->
          files fs !! resolve (workspaceRoot config) path' = Some content ->
          Z.of_nat (jsLength content) <= sizeCap ->
          resolve (workspaceRoot config) path'
            ∈ map rf_absolutePath (known ++ suggested))).
  { intros Hpresent.
    destruct (IH known Hfiles) as (suggested & Heq & Hsub & Hserv & Hnew & Hnd & Hall).
    exists suggested. split_and!; try done.
    - by apply sublist_cons.
    - intros path' reason' content Hin Hlook Hcap.
      apply elem_of_cons in Hin as [[= -> ->] | Hin]; [| by eapply Hall].
      rewrite map_app. apply elem_of_app. left. by eapply Hpresent. }
  destruct (isKnown p known) eqn:Hknown.
  { assert (Hin : p ∈ map rf_absolutePath known) by by apply isKnown_elem_of.
    assert (Hfile : p ∉ directories fs).
    { apply list_elem_of_fmap in Hin as (f & -> & Hf).
      rewrite Forall_forall in Hfiles. by apply Hfiles. }
    rewrite (bool_decide_eq_false_2 _ Hfile). by apply Hskip. }
  destruct (decide (p ∈ directories fs)) as [Hdir | Hdir].
  { rewrite (bool_decide_eq_true_2 _ Hdir). apply Hnone. }
  rewrite (bool_decide_eq_false_2 _ Hdir).
  destruct (files fs !! p) as [content |] eqn:Hlook; [| by apply Hskip].
  destruct (Z.of_nat (jsLength content) <=? sizeCap) eqn:Hcap.
  2: { apply Hskip. intros c [= <-] Hc. apply Z.leb_gt in Hcap. lia. }
  apply Z.leb_le in Hcap.
  set (f := mkRelevantFile path p content reason).
  destruct (IH (known ++ [f])) as (suggested & Heq & Hsub & Hserv & Hnew & Hnd & Hall).
  { apply Forall_app. split; [done |]. by repeat constructor. }
  exists (f :: suggested). rewrite Heq, <- app_assoc. simpl.
  assert (Hfresh : p ∉ map rf_absolutePath known).
  { intros Hin. apply isKnown_elem_of in Hin. congruence. }
  split_and!.
  + done.
  + by apply sublist_skip.
  + constructor; [| done]. unfold serviceSuggested, f; simpl. by split_and!.
  + constructor; [done |].
    eapply Forall_impl; [exact Hnew |]. simpl. intros g Hg Hin. apply Hg.
    rewrite map_app. apply elem_of_app. by left.
  + apply NoDup_cons. split; [| done].
    intros Hin. apply list_elem_of_fmap in Hin as (g & Hgp & Hg).
    rewrite Forall_forall in Hnew. apply (Hnew g Hg).
    rewrite map_app. apply elem_of_app. right. rewrite <- Hgp. simpl. by left.
  + intros path' reason' content' Hin Hlook' Hcap'.
    apply elem_of_cons in Hin as [[= -> ->] | Hin].
    * rewrite map_app. apply elem_of_app. right. simpl. by left.
    * specialize (Hall _ _ _ Hin Hlook' Hcap').
      by rewrite <- app_assoc in Hall.
Qed.

(** Every way [analyzeRelevantFiles] ends. *)
Lemma analyzeRelevantFiles_spec (config : AgentConfig) (response : SuggestResponse)
    (hintFiles : option (list string)) (fs : FS) :
  analyzeRelevantFiles config response hintFiles fs =
    (fs,
     if decide (Exists (fun p => p ∈ directories fs) (hintPaths config hintFiles))
     then Thrown directoryRead
     else match response with
          | SuggestApiError msg => Thrown msg
          | SuggestArray entries =>
              Returned (acceptedFiles config fs entries
                          (hintedFiles config (default [] hintFiles) (files fs)))
          | _ => Returned (hintedFiles config (default [] hintFiles) (files fs))
          end).
Proof.
  unfold analyzeRelevantFiles, bind, hintPaths.
  destruct (addHintFiles_spec config (default [] hintFiles) fs [])
    as (known' & -> & Hknown').
  destruct (decide (Exists _ _)) as [Hex | Hex]; [done |].
  rewrite Hknown' by (by apply Forall_Exists_neg). simpl.
  destruct response as [msg | | | entries]; try done.
  unfold try_catch.
  destruct (addSuggestedFiles_spec config entries fs
              (hintedFiles config (default [] hintFiles) (files fs)))
    as (r & -> & Hr).
  by destruct r.
Qed.

Lemma hintedFiles_files (config : AgentConfig) (hintFiles : list string) (fs : FS) :
  Forall (fun p => p ∉ directories fs) (map (hintPath config) hintFiles) ->
  Forall (fun f => rf_absolutePath f ∉ directories fs)
    (hintedFiles config hintFiles (files fs)).
Proof.
  induction hintFiles as [| h rest IH]; simpl; [constructor |].
  intros Hall. apply Forall_cons in Hall as [Hh Hall].
  unfold hintedFiles. simpl.
  destruct (files fs !! hintPath config h); [| by apply IH].
  constructor; [done | by apply IH].
Qed.

(** C8 (relevant-file selection), as amended.  [analyzeRelevantFiles]
    leaves the store as it was and throws in two cases only: a hint names
    a directory, or the request to the service fails; no response of the
    service, however malformed, makes it throw.  When it returns, its
    result is the hint files that exist on disk, in hint order, followed
    by service-suggested files in service order.  Each suggested file
    comes from a well-formed entry that the loop got to read -- one before
    every ill-formed entry and before every entry that names a directory
    -- is on disk and within the size cap; a candidate that the loop got to
    read, is on disk and is within the cap is never passed over unless its
    path is already present.  When the hint entries have pairwise distinct
    absolute paths, so has the whole result.  A response that cannot be
    parsed at all leaves the hinted set alone; an array keeps the
    suggestions accepted before the entry that ended the loop. *)
Theorem analyzeRelevantFiles_result (config : AgentConfig) (response : SuggestResponse)
    (hintFiles : option (list string)) (fs : FS) :
  let hinted := hintedFiles config (default [] hintFiles) (files fs) in
  let offered := offeredCandidates config fs response in
  match analyzeRelevantFiles config response hintFiles fs with
  | (fs', Returned result) =>
      fs' = fs /\
      apiError response = false /\
      Forall (fun p => p ∉ directories fs) (hintPaths config hintFiles) /\
      exists suggested,
        result = hinted ++ suggested /\
        map (fun f => (rf_relativePath f, rf_reason f)) suggested `sublist_of` offered /\
        Forall (serviceSuggested config fs) suggested /\
        (NoDup (map rf_absolutePath hinted) -> NoDup (map rf_absolutePath result)) /\
        (forall path reason content,
            (path, reason) ∈ offered ->
            files fs !! resolve (workspaceRoot config) path = Some content ->
            Z.of_nat (jsLength content) <= sizeCap ->
            resolve (workspaceRoot config) path ∈ map rf_absolutePath result) /\
        (response = SuggestNoArray \/ response = SuggestBadJson -> suggested = [])
  | (fs', Thrown msg) =>
      fs' = fs /\
      ((exists p, p ∈ hintPaths config hintFiles /\ p ∈ directories fs /\
                  msg = directoryRead) \/
       (Forall (fun p => p ∉ directories fs) (hintPaths config hintFiles) /\
        response = SuggestApiError msg))
  | (_, Diverged) => False
  end.
Proof.
  intros hinted offered. rewrite analyzeRelevantFiles_spec. fold hinted.
  destruct (decide (Exists _ _)) as [Hex | Hex].
  { split; [done |]. left. apply Exists_exists in Hex as (p & Hp & Hdir). by exists p. }
  apply Forall_Exists_neg in Hex.
  pose proof (hintedFiles_files config (default [] hintFiles) fs Hex) as Hfiles.
  fold hinted in Hfiles.
  destruct response as [msg | | | entries]; [split; [done | by right] | | |].
  1, 2: split_and!; try done; exists []; rewrite app_nil_r; split_and!; try done;
    intros ? ? ? Hin; by apply elem_of_nil in Hin.
  destruct (acceptedFiles_spec config fs entries hinted Hfiles)
    as (suggested & -> & Hsub & Hserv & Hnew & Hnd & Hall).
  split_and!; try done.
  exists suggested. split_and!; try done.
  - intros Hhinted. rewrite map_app. apply NoDup_app. split_and!; try done.
    intros p Hp Hin. apply list_elem_of_fmap in Hin as (g & -> & Hg).
    rewrite Forall_forall in Hnew. by apply (Hnew g Hg).
  - by intros [? | ?].
Qed.

(** C8, the statement as given fails.  A hint list that names one file
    twice yields two entries with the same absolute path; and a response
    whose array holds a well-formed entry before an ill-formed one yields
    the hinted file together with the suggested one. *)
Lemma analyzeRelevantFiles_not_as_stated :
  ~ relevant_files_unique /\ ~ malformed_response_gives_hints_alone.
Proof.
  split.
  - intros Hclaim.
    assert (Hrun : analyzeRelevantFiles sampleConfig SuggestNoArray
                     (Some ["a.ts"; "a.ts"]) sampleStore
                   = (sampleStore,
                      Returned [mkRelevantFile "a.ts" "/w/a.ts" "old" "User-specified file";
                                mkRelevantFile "a.ts" "/w/a.ts" "old" "User-specified file"]))
      by (vm_compute; reflexivity).
    apply Hclaim in Hrun. simpl in Hrun.
    apply NoDup_cons in Hrun as [Hnotin _]. apply Hnotin. by left.
  - intros Hclaim.
    assert (Hrun : analyzeRelevantFiles sampleConfig partlyMalformed
                     (Some ["a.ts"]) twoFileStore
                   = (twoFileStore,
                      Returned [mkRelevantFile "a.ts" "/w/a.ts" "old" "User-specified file";
                                mkRelevantFile "b.ts" "/w/b.ts" "bee" "named in the trace"]))
      by (vm_compute; reflexivity).
    apply Hclaim in Hrun; [| reflexivity].
    vm_compute in Hrun. discriminate.
Qed.

(** ** Reasoning about monadic code *)

Lemma wp_run {S A} (m : M S A) (Q : S -> Outcome A -> Prop) (s s' : S) (r : Outcome A) :
  wp m Q s -> m s = (s', r) -> Q s' r.
Proof. unfold wp. intros HQ Hm. by rewrite Hm in HQ. Qed.

Lemma wp_mono {S A} (m : M S A) (Q Q' : S -> Outcome A -> Prop) (s : S) :
  wp m Q s -> (forall s' r, Q s' r -> Q' s' r) -> wp m Q' s.
Proof. unfold wp. auto. Qed.

Lemma wp_ret {S A} (a : A) (Q : S -> Outcome A -> Prop) (s : S) :
  Q s (Returned a) -> wp (ret a) Q s.
Proof. done. Qed.

Lemma wp_throw {S A} (msg : string) (Q : S -> Outcome A -> Prop) (s : S) :
  Q s (Thrown msg) -> wp (throw msg) Q s.
Proof. done. Qed.

Lemma wp_gets {S A} (f : S -> A) (Q : S -> Outcome A -> Prop) (s : S) :
  Q s (Returned (f s)) -> wp (gets f) Q s.
Proof. done. Qed.

Lemma wp_modify {S} (f : S -> S) (Q : S -> Outcome unit -> Prop) (s : S) :
  Q (f s) (Returned tt) -> wp (modify f) Q s.
Proof. done. Qed.

Lemma wp_bind {S A B} (m : M S A) (k : A -> M S B) (Q : S -> Outcome B -> Prop) (s : S) :
  wp m (fun s1 r1 =>
          match r1 with
          | Returned a => wp (k a) Q s1
          | Thrown msg => Q s1 (Thrown msg)
          | Diverged => Q s1 Diverged
          end) s ->
  wp (bind m k) Q s.
Proof. unfold wp, bind. by destruct (m s) as [s1 [a | msg |]]. Qed.

Lemma wp_attempt {S A} (m : M S A) (Q : S -> Outcome (string + A) -> Prop) (s : S) :
  wp m (fun s1 r1 =>
          match r1 with
          | Returned a => Q s1 (Returned (inr a))
          | Thrown msg => Q s1 (Returned (inl msg))
          | Diverged => Q s1 Diverged
          end) s ->
  wp (attempt_ m) Q s.
Proof. unfold wp, attempt_. by destruct (m s) as [s1 [a | msg |]]. Qed.

Lemma wp_try_catch {S A} (m : M S A) (h : string -> M S A)
    (Q : S -> Outcome A -> Prop) (s : S) :
  wp m (fun s1 r1 =>
          match r1 with
          | Thrown msg => wp (h msg) Q s1
          | _ => Q s1 r1
          end) s ->
  wp (try_catch m h) Q s.
Proof. unfold wp, try_catch. by destruct (m s) as [s1 [a | msg |]]. Qed.

Lemma wp_try_finally {S A} (m : M S A) (f : M S unit)
    (Q : S -> Outcome A -> Prop) (s : S) :
  wp m (fun s1 r1 =>
          match r1 with
          | Diverged => Q s1 Diverged
          | _ => wp f (fun s2 r2 =>
                         match r2 with
                         | Returned _ => Q s2 r1
                         | Thrown msg => Q s2 (Thrown msg)
                         | Diverged => Q s2 Diverged
                         end) s1
          end) s ->
  wp (try_finally m f) Q s.
Proof.
  unfold wp, try_finally.
  destruct (m s) as [s1 [a | msg |]]; simpl; [| | done];
    by destruct (f s1) as [s2 [[] | msg2 |]].
Qed.

(** ** The effect of each call on the world *)

Lemma grows_refl (w : World) : grows w w [].
Proof. done. Qed.

Lemma grows_trans (w1 w2 w3 : World) (a1 a2 : list Event) :
  grows w1 w2 a1 -> grows w2 w3 a2 -> grows w1 w3 (a2 ++ a1).
Proof.
  intros [He1 Ht1] [He2 Ht2]. split; [congruence |].
  by rewrite Ht2, Ht1, app_assoc.
Qed.

Lemma wp_liftStore {A} (m : M FS A) (Q : World -> Outcome A -> Prop) (w : World) :
  (forall fs' r, m (store w) = (fs', r) ->
                 Q (mkWorld (env w) fs' (running w) (trace w)) r) ->
  wp (liftStore m) Q w.
Proof.
  intros HQ. unfold wp, liftStore.
  destruct (m (store w)) as [fs' r] eqn:Hm. by apply HQ.
Qed.

Lemma countEvents_app (kind : Event -> bool) (a b : list Event) :
  countEvents kind (a ++ b) = (countEvents kind a + countEvents kind b)%nat.
Proof. unfold countEvents. by rewrite List.filter_app, length_app. Qed.

(** *** The limits read from [config.maxRetries] *)

Lemma reaches_limit (config : AgentConfig) (count : Z) :
  reaches count (maxRetries config) = (count >=? retryLimit config).
Proof.
  unfold reaches, retryLimit. rewrite Z.geb_leb.
  apply eq_true_iff_eq. rewrite Qle_bool_iff, Z.leb_le. split.
  - intros Hle. apply Qceiling_resp_le in Hle. by rewrite Qceiling_Z in Hle.
  - intros Hle. eapply Qle_trans; [apply Qle_ceiling |]. by rewrite <- Zle_Qle.
Qed.

Lemma passes_limit (config : AgentConfig) :
  passes (maxRetries config) = Z.to_nat (attemptLimit config).
Proof. done. Qed.

Lemma limits_ordered (config : AgentConfig) : attemptLimit config <= retryLimit config.
Proof. unfold attemptLimit, retryLimit. rewrite Zle_Qle. apply Qle_floor_ceiling. Qed.


(** A setting that is a whole number is both limits. *)
Lemma whole_limits (config : AgentConfig) (n : Z) :
  (maxRetries config == inject_Z n)%Q ->
  attemptLimit config = n /\ retryLimit config = n.
Proof.
  intros Hwhole. unfold attemptLimit, retryLimit.
  by rewrite (Qfloor_comp _ _ Hwhole), (Qceiling_comp _ _ Hwhole), Qfloor_Z, Qceiling_Z.
Qed.

(** ** [runTests] *)

Ltac unfold_runner :=
  unfold runTests, startDevServer, spawn, waitForServer, executeAndCollect,
    killDevServer, killProcessTree, callIndex, logEvent, try_finally,
    bind, gets, modify, ret, throw, nextPid; simpl;
  change (countEvents isSpawn (EvRunTests :: ?t)) with (countEvents isSpawn t).

Lemma runTests_spec (config : AgentConfig) (options : RunnerOptions) (w : World) :
  wp (runTests config options)
     (fun w' r =>
        store w' = store w /\
        (exists procs, grows w w' (procs ++ [EvRunTests]) /\
                       Forall (fun e => isProcessEvent e = true) procs) /\
        r <> Diverged /\
        (forall res, r = Returned res ->
           runnerResponse (env w) (countEvents isRunTests (trace w)) = RunnerDone res)) w.
Proof.
  unfold wp. unfold_runner.
  destruct (opt_startServer options); simpl.
  - destruct (serverReady (env w) (countEvents isSpawn (trace w))); simpl.
    + destruct (runnerResponse (env w) (countEvents isRunTests (trace w))) as [msg | res];
        simpl; (split_and!; [done | | done | by intros ? [= <-] ]);
        eexists [_; _]; (split; [by split | by repeat constructor]).
    + split_and!; [done | | done | done].
      eexists [_]. split; [by split | by repeat constructor].
  - destruct (runnerResponse (env w) (countEvents isRunTests (trace w))) as [msg | res];
      simpl; (split_and!; [done | | done | by intros ? [= <-] ]);
      exists []; by split.
Qed.

(** When the server answers in time, the child that [runTests] spawned has
    been killed by the time the call is over, whether the call returns or
    throws. *)
Lemma runTests_kills_ready_server (config : AgentConfig) (options : RunnerOptions)
    (w w' : World) (r : Outcome TestResult) :
  opt_startServer options = true ->
  serverReady (env w) (countEvents isSpawn (trace w)) = true ->
  runTests config options w = (w', r) ->
  (nextPid w ∉ running w') /\
  (exists older, trace w' = EvKill (nextPid w) :: older).
Proof.
  intros Hstart Hready. unfold_runner. rewrite Hstart. simpl. rewrite Hready. simpl.
  destruct (runnerResponse (env w) (countEvents isRunTests (trace w))) as [msg | res];
    simpl; intros [= <- _]; simpl; (split; [| by eexists]);
    intros Hin; apply elem_of_difference in Hin as [_ Hout];
    apply Hout; by apply elem_of_singleton.
Qed.

(** When the server does not answer in time, [runTests] throws and the
    child it spawned is still in the process table: [startDevServer] threw
    before [serverProcess] was assigned, so the [finally] block has no pid
    to kill. *)
Lemma runTests_leaves_unready_server (config : AgentConfig) (options : RunnerOptions)
    (w : World) :
  opt_startServer options = true ->
  serverReady (env w) (countEvents isSpawn (trace w)) = false ->
  exists w' msg,
    runTests config options w = (w', Thrown msg) /\
    nextPid w ∈ running w' /\
    trace w' = EvSpawn (nextPid w) :: EvRunTests :: trace w.
Proof.
  intros Hstart Hready. unfold_runner. rewrite Hstart. simpl. rewrite Hready. simpl.
  do 2 eexists. split; [done |]. split; [| done].
  simpl. by apply elem_of_union_l, elem_of_singleton.
Qed.

(** C3 (server teardown), evaluated where it fails.  With [startServer]
    set and a server that never becomes ready, [runTests] throws the
    readiness-timeout error and the one child it spawned, pid 1, is still
    running: the only events are the test run and the spawn, and no kill
    follows. *)
Theorem runTests_timeout_leaks_server :
  exists w' msg,
    runTests sampleConfig (mkRunnerOptions None true) (startWorld silentEnv sampleStore)
      = (w', Thrown msg) /\
    msg = "Dev server did not become ready at http://localhost:3000 within 30000ms" /\
    running w' = {[ 1%positive ]} /\
    trace w' = [EvSpawn 1; EvRunTests].
Proof.
  do 2 eexists. split; [reflexivity |]. split; [done |]. split; [| done].
  simpl. apply union_empty_r_L.
Qed.

(** The teardown statement fails in general. *)
Lemma runTests_server_can_outlive :
  ~ server_never_outlives_runTests.
Proof.
  intros Hclaim.
  destruct (runTests_leaves_unready_server sampleConfig (mkRunnerOptions None true)
              (startWorld silentEnv sampleStore) eq_refl eq_refl)
    as (w' & msg & Hrun & Hin & _).
  eapply Hclaim; [| | exact Hrun | exact Hin]; [done |].
  simpl. apply not_elem_of_empty.
Qed.

(** ** [runVerificationPipeline] *)

Lemma quiet_nil : quiet [] 0.
Proof. by split. Qed.

Lemma quiet_app (a1 a2 : list Event) (k1 k2 : nat) :
  quiet a1 k1 -> quiet a2 k2 -> quiet (a2 ++ a1) (k2 + k1).
Proof.
  intros [Hf1 Hc1] [Hf2 Hc2]. split; [by apply Forall_app |].
  by rewrite countEvents_app, Hc1, Hc2.
Qed.

Lemma quiet_procs (procs : list Event) :
  Forall (fun e => isProcessEvent e = true) procs -> quiet procs 0.
Proof.
  induction 1 as [| e procs He _ [IHf IHc]]; [apply quiet_nil |].
  split.
  - constructor; [by destruct e | done].
  - unfold countEvents in *. simpl. by destruct e.
Qed.

Lemma quiet_run (procs : list Event) :
  Forall (fun e => isProcessEvent e = true) procs -> quiet (procs ++ [EvRunTests]) 1.
Proof.
  intros Hprocs. replace 1%nat with (0 + 1)%nat by done.
  apply quiet_app; [by split; [repeat constructor |] | by apply quiet_procs].
Qed.

Lemma generateTest_spec (config : AgentConfig) (input : TestGenerationInput) (w : World) :
  wp (generateTest config input)
     (fun w' r => store w' = store w /\ grows w w' [EvGenerateTest] /\ r <> Diverged) w.
Proof.
  unfold wp, generateTest, callIndex, logEvent, bind, gets, modify, ret, throw; simpl.
  by destruct (testGenResponse (env w) _ _).
Qed.

Lemma regenerateTest_spec (config : AgentConfig) (input : TestGenerationInput)
    (previousTest errorMessage : string) (w : World) :
  wp (regenerateTest config input previousTest errorMessage)
     (fun w' r => store w' = store w /\ grows w w' [EvRegenerateTest] /\ r <> Diverged) w.
Proof.
  unfold wp, regenerateTest, callIndex, logEvent, bind, gets, modify, ret, throw; simpl.
  by destruct (regenResponse (env w) _ _ _ _).
Qed.

Lemma analyzeScreenshots_spec (config : AgentConfig) (bugDescription : string)
    (screenshotPaths : list string) (w : World) :
  wp (analyzeScreenshots config bugDescription screenshotPaths)
     (fun w' r => store w' = store w /\ grows w w' [EvAnalyzeScreenshots] /\ r <> Diverged) w.
Proof.
  unfold wp, analyzeScreenshots, callIndex, logEvent, bind, gets, modify, ret, throw; simpl.
  by destruct (visualResponse (env w) _ _ _).
Qed.

Lemma visualPhase_spec (config : AgentConfig) (input : VerificationInput)
    (res : TestResult) (w : World) :
  wp (visualPhase config input res)
     (fun w' r =>
        store w' = store w /\
        (exists added, grows w w' added /\ quiet added 0) /\
        exists visualReport, r = Returned visualReport) w.
Proof.
  unfold visualPhase.
  destruct (enableVisualAnalysis config && (0 <? length (screenshots res))%nat).
  - apply wp_try_catch, wp_bind. eapply wp_mono; [apply analyzeScreenshots_spec |].
    intros w3 r3 (Hstore3 & Hgrow3 & Hnd3).
    assert (Hquiet3 : quiet [EvAnalyzeScreenshots] 0) by (by split; [repeat constructor |]).
    destruct r3 as [report | msg |]; [| | done]; apply wp_ret; split_and!; eauto.
  - apply wp_ret. split_and!; eauto using grows_refl, quiet_nil.
Qed.

(** The self-healing loop runs the test at least once and at most
    [maxRetries - retryCount] times (once when that is not positive), never
    uses up its budget, and hands back the result of its last run. *)
Lemma selfHealLoop_spec (config : AgentConfig) (input : VerificationInput) :
  forall (budget : nat) (testGen : TestGenerationResult) (retryCount : Z) (w : World),
    (Z.to_nat (retryLimit config - retryCount) <= budget)%nat ->
    (1 <= budget)%nat ->
    wp (selfHealLoop budget config input testGen retryCount)
       (fun w' r =>
          store w' = store w /\
          (exists added k,
              grows w w' added /\ quiet added k /\ (1 <= k)%nat /\
              Z.of_nat k <= Z.max 1 (retryLimit config - retryCount)) /\
          r <> Diverged /\
          (forall testGen' res retryCount',
              r = Returned (testGen', res, retryCount') ->
              runnerResponse (env w) (countEvents isRunTests (trace w') - 1)
                = RunnerDone res)) w.
Proof.
  induction budget as [| budget IH]; intros testGen retryCount w Hbudget Hpos; [lia |].
  simpl. apply wp_bind. eapply wp_mono; [apply runTests_spec |].
  intros w1 r1 (Hstore1 & (procs & Hgrow1 & Hprocs) & Hnd1 & Hres1).
  pose proof (quiet_run procs Hprocs) as Hquiet1.
  assert (Hlast1 : (countEvents isRunTests (trace w1) - 1
                    = countEvents isRunTests (trace w))%nat).
  { destruct Hgrow1 as [_ ->]. destruct Hquiet1 as [_ Hc].
    rewrite countEvents_app, Hc. lia. }
  assert (Hone : forall (r : Outcome (TestGenerationResult * TestResult * Z)),
            r <> Diverged ->
            (forall testGen' res retryCount',
                r = Returned (testGen', res, retryCount') ->
                r1 = Returned res) ->
            store w1 = store w /\
            (exists added k,
                grows w w1 added /\ quiet added k /\ (1 <= k)%nat /\
                Z.of_nat k <= Z.max 1 (retryLimit config - retryCount)) /\
            r <> Diverged /\
            (forall testGen' res retryCount',
                r = Returned (testGen', res, retryCount') ->
                runnerResponse (env w) (countEvents isRunTests (trace w1) - 1)
                  = RunnerDone res)).
  { intros r Hr Hsame. split_and!; try done.
    - exists (procs ++ [EvRunTests]), 1%nat. split_and!; try done. lia.
    - intros testGen' res retryCount' Heq. rewrite Hlast1.
      apply Hres1. by eapply Hsame. }
  destruct r1 as [res | msg |]; [| by apply Hone | done].
  destruct (passed res).
  { apply wp_ret. apply Hone; [done | by intros ? ? ? [= _ <- _]]. }
  rewrite reaches_limit. destruct (retryCount + 1 >=? retryLimit config) eqn:Hstop.
  { apply wp_ret. apply Hone; [done | by intros ? ? ? [= _ <- _]]. }
  rewrite Z.geb_leb in Hstop. apply Z.leb_gt in Hstop.
  apply wp_bind, wp_attempt. eapply wp_mono; [apply regenerateTest_spec |].
  intros w2 r2 (Hstore2 & Hgrow2 & Hnd2).
  assert (Hgrow12 : grows w w2 ([EvRegenerateTest] ++ procs ++ [EvRunTests]))
    by by eapply grows_trans.
  assert (Hquiet12 : quiet ([EvRegenerateTest] ++ procs ++ [EvRunTests]) (0 + 1))
    by (apply quiet_app; [done | by split; [repeat constructor |]]).
  destruct r2 as [testGen2 | msg |]; [| | done].
  - eapply wp_mono; [apply IH; lia |].
    intros w3 r3 (Hstore3 & (added & k & Hgrow3 & Hquiet3 & Hk1 & Hk2) & Hnd3 & Hres3).
    split_and!; try done.
    + congruence.
    + exists (added ++ [EvRegenerateTest] ++ procs ++ [EvRunTests]), (k + (0 + 1))%nat.
      split_and!; [by eapply grows_trans | by apply quiet_app | lia | lia].
    + intros testGen' res' retryCount' Heq.
      destruct Hgrow12 as [<- _]. by eapply Hres3.
  - apply wp_ret. split_and!; try done.
    + congruence.
    + exists ([EvRegenerateTest] ++ procs ++ [EvRunTests]), (0 + 1)%nat.
      split_and!; try done; lia.
    + intros ? ? ? [= _ <- _].
      destruct Hgrow2 as [_ ->]. simpl.
      change (countEvents isRunTests (EvRegenerateTest :: trace w1))
        with (countEvents isRunTests (trace w1)).
      rewrite Hlast1. by apply Hres1.
Qed.

Lemma runVerificationPipeline_spec (config : AgentConfig) (input : VerificationInput)
    (w : World) :
  wp (runVerificationPipeline config input)
     (fun w' r =>
        store w' = store w /\
        (exists added k,
            grows w w' added /\ quiet added k /\
            Z.of_nat k <= Z.max 1 (retryLimit config)) /\
        r <> Diverged /\
        (forall v, r = Returned v ->
           overallPassed v = passed (testResult v) /\
           exists n,
             countEvents isRunTests (trace w') = S n /\
             (countEvents isRunTests (trace w) <= n)%nat /\
             runnerResponse (env w) n = RunnerDone (testResult v))) w.
Proof.
  unfold runVerificationPipeline, cleanTestResults.
  apply wp_bind, wp_ret.
  apply wp_bind, wp_try_catch. eapply wp_mono; [apply generateTest_spec |].
  intros w1 r1 (Hstore1 & Hgrow1 & Hnd1).
  assert (Hquiet1 : quiet [EvGenerateTest] 0) by (by split; [repeat constructor |]).
  destruct r1 as [testGen | msg |]; [| | done].
  2: { apply wp_throw. split_and!; try done.
       exists [EvGenerateTest], 0%nat. split_and!; try done. lia. }
  apply wp_bind. eapply wp_mono; [apply selfHealLoop_spec; unfold retryLimit; lia |].
  intros w2 r2 (Hstore2 & (added & k & Hgrow2 & Hquiet2 & Hk1 & Hk2) & Hnd2 & Hres2).
  assert (Hgrow12 : grows w w2 (added ++ [EvGenerateTest])) by by eapply grows_trans.
  assert (Hquiet12 : quiet (added ++ [EvGenerateTest]) (k + 0)) by by apply quiet_app.
  rewrite Z.sub_0_r in Hk2.
  assert (Hcount2 : countEvents isRunTests (trace w2)
                    = (k + countEvents isRunTests (trace w))%nat).
  { destruct Hgrow12 as [_ ->]. destruct Hquiet12 as [_ Hc].
    rewrite countEvents_app, Hc. lia. }
  destruct r2 as [[[testGen2 res] retryCount2] | msg |]; [| | done].
  2: { split_and!; [congruence | | done | done].
       exists (added ++ [EvGenerateTest]), (k + 0)%nat. split_and!; try done. lia. }
  assert (Hfinal : forall w3 visualReport added3,
            store w3 = store w2 -> grows w2 w3 added3 -> quiet added3 0 ->
            store w3 = store w /\
            (exists added k,
                grows w w3 added /\ quiet added k /\
                Z.of_nat k <= Z.max 1 (retryLimit config)) /\
            Returned (mkVerificationResult testGen2 res visualReport retryCount2
                        (passed res)) <> Diverged /\
            (forall v,
               Returned (mkVerificationResult testGen2 res visualReport retryCount2
                           (passed res)) = Returned v ->
               overallPassed v = passed (testResult v) /\
               exists n,
                 countEvents isRunTests (trace w3) = S n /\
                 (countEvents isRunTests (trace w) <= n)%nat /\
                 runnerResponse (env w) n = RunnerDone (testResult v))).
  { intros w3 visualReport added3 Hstore3 Hgrow3 Hquiet3.
    assert (Hcount3 : countEvents isRunTests (trace w3) = countEvents isRunTests (trace w2)).
    { destruct Hgrow3 as [_ ->]. destruct Hquiet3 as [_ Hc].
      by rewrite countEvents_app, Hc. }
    split_and!; [congruence | | done |].
    - exists (added3 ++ added ++ [EvGenerateTest]), (0 + (k + 0))%nat.
      split_and!; [by eapply grows_trans | by apply quiet_app | lia].
    - intros v [= <-]. simpl. split; [done |].
      exists (countEvents isRunTests (trace w2) - 1)%nat. split_and!.
      + rewrite Hcount3, Hcount2. lia.
      + rewrite Hcount2. lia.
      + destruct Hgrow1 as [<- _]. by eapply Hres2. }
  apply wp_bind. eapply wp_mono; [apply visualPhase_spec |].
  intros w3 r3 (Hstore3 & (added3 & Hgrow3 & Hquiet3) & [visualReport ->]).
  apply wp_ret. by eapply Hfinal.
Qed.

(** Called on its own with [maxRetries = 0], the verification loop still
    runs the test once: the bound of [selfHealLoop_spec] is the larger of 1
    and [maxRetries].  Inside [runFixAndVerifyPipeline] no attempt is made
    in that case, so the loop is not entered at all. *)
Example verification_runs_once_without_budget :
  let config := mkConfig "http://localhost:3000" "npm run dev" 0 false "/w" "" in
  let run := runVerificationPipeline config scenarioVerification
               (startWorld scenarioEnv sampleStore) in
  countEvents isRunTests (trace run.1) = 1%nat /\
  trace (runFixAndVerifyPipeline config sampleInput (startWorld scenarioEnv sampleStore)).1
    = [].
Proof. split; by vm_compute. Qed.

(** *** The visual assessment does not reach the verdict *)

Lemma generateTest_setVisual (visual : nat -> string -> list string -> VisualResponse)
    (config : AgentConfig) (input : TestGenerationInput)
    (h : string -> M World TestGenerationResult) (w : World) :
  (forall msg w0, h msg (setVisual visual w0) = (setVisual visual (h msg w0).1, (h msg w0).2)) ->
  try_catch (generateTest config input) h (setVisual visual w)
    = (setVisual visual (try_catch (generateTest config input) h w).1,
       (try_catch (generateTest config input) h w).2).
Proof.
  intros Hh.
  unfold try_catch, generateTest, callIndex, logEvent, bind, gets, modify, ret, throw; simpl.
  destruct (testGenResponse (env w) _ _); [| done].
  apply (Hh msg (mkWorld (env w) (store w) (running w) (EvGenerateTest :: trace w))).
Qed.

Lemma regenerateTest_setVisual (visual : nat -> string -> list string -> VisualResponse)
    (config : AgentConfig) (input : TestGenerationInput)
    (previousTest errorMessage : string) (w : World) :
  attempt_ (regenerateTest config input previousTest errorMessage) (setVisual visual w)
    = (setVisual visual
         (attempt_ (regenerateTest config input previousTest errorMessage) w).1,
       (attempt_ (regenerateTest config input previousTest errorMessage) w).2).
Proof.
  unfold attempt_, regenerateTest, callIndex, logEvent, bind, gets, modify, ret, throw; simpl.
  by destruct (regenResponse (env w) _ _ _ _).
Qed.

Lemma runTests_setVisual (visual : nat -> string -> list string -> VisualResponse)
    (config : AgentConfig)
    (options : RunnerOptions) (w : World) :
  runTests config options (setVisual visual w)
    = (setVisual visual (runTests config options w).1, (runTests config options w).2).
Proof.
  unfold_runner.
  destruct (opt_startServer options); simpl.
  - destruct (serverReady (env w) _); simpl; [| done].
    by destruct (runnerResponse (env w) _).
  - by destruct (runnerResponse (env w) _).
Qed.

Lemma selfHealLoop_setVisual (visual : nat -> string -> list string -> VisualResponse)
    (enabled : bool)
    (config : AgentConfig) (input : VerificationInput) :
  forall (budget : nat) (testGen : TestGenerationResult) (retryCount : Z) (w : World),
    selfHealLoop budget (setVisualAnalysis enabled config) input testGen retryCount
      (setVisual visual w)
    = (setVisual visual (selfHealLoop budget config input testGen retryCount w).1,
       (selfHealLoop budget config input testGen retryCount w).2).
Proof.
  induction budget as [| budget IH]; intros testGen retryCount w; simpl; [done |].
  change (runTests (setVisualAnalysis enabled config) ?o) with (runTests config o).
  unfold bind at 1 3 5. rewrite runTests_setVisual.
  destruct (runTests config _ w) as [w1 [res | msg |]]; simpl; try done.
  destruct (passed res); [done |].
  rewrite reaches_limit. destruct (retryCount + 1 >=? retryLimit config); [done |].
  unfold bind.
  change (regenerateTest (setVisualAnalysis enabled config)) with (regenerateTest config).
  rewrite regenerateTest_setVisual.
  by destruct (attempt_ (regenerateTest config _ _ _) w1)
    as [w2 [[msg | testGen2] | msg |]]; simpl.
Qed.

Lemma visualPhase_returns (config : AgentConfig) (input : VerificationInput)
    (res : TestResult) (w : World) :
  exists w' visualReport,
    visualPhase config input res w = (w', Returned visualReport) /\
    forall report, visualReport = Some report ->
      exists n, visualResponse (env w) n (vi_bugDescription input) (screenshots res)
                = VisualOk report.
Proof.
  unfold visualPhase.
  destruct (enableVisualAnalysis config && (0 <? length (screenshots res))%nat).
  - unfold try_catch, analyzeScreenshots, callIndex, logEvent, bind, gets, modify, ret, throw;
      simpl.
    destruct (visualResponse (env w) (countEvents isAnalyzeScreenshots (trace w))
                (vi_bugDescription input) (screenshots res))
      as [msg | report] eqn:Hvisual.
    + do 2 eexists. split; [done |]. by intros.
    + do 2 eexists. split; [done |]. intros ? [= <-]. eauto.
  - do 2 eexists. split; [done |]. by intros.
Qed.

(** C6 (the verdict of the verification loop).  When
    [runVerificationPipeline] returns, [overallPassed] is the [passed] flag
    of the result it carries, and that result is the answer of the last
    test execution of the run.  A visual report is present only when the
    analysis returned one.  Whatever the visual-assessment service answers
    -- a report that flags issues, a report with [passed = false], an
    exception -- and whether the analysis is enabled or not, the pipeline
    still returns, with the same test result, the same retry count and the
    same verdict. *)
Theorem verification_verdict (config : AgentConfig) (input : VerificationInput)
    (w w' : World) (v : VerificationResult) :
  runVerificationPipeline config input w = (w', Returned v) ->
  overallPassed v = passed (testResult v) /\
  (exists n,
      countEvents isRunTests (trace w') = S n /\
      (countEvents isRunTests (trace w) <= n)%nat /\
      runnerResponse (env w) n = RunnerDone (testResult v)) /\
  (forall report, visualReport v = Some report ->
     exists n, visualResponse (env w) n (vi_bugDescription input)
                 (screenshots (testResult v)) = VisualOk report) /\
  (forall (enabled : bool) (visual : nat -> string -> list string -> VisualResponse),
     exists w2 v2,
       runVerificationPipeline (setVisualAnalysis enabled config) input (setVisual visual w)
         = (w2, Returned v2) /\
       overallPassed v2 = overallPassed v /\
       testResult v2 = testResult v /\
       testGeneration v2 = testGeneration v /\
       retryCount v2 = retryCount v).
Proof.
  intros Hrun.
  destruct (wp_run _ _ _ _ _ (runVerificationPipeline_spec config input w) Hrun)
    as (_ & _ & _ & Hverdict).
  destruct (Hverdict v eq_refl) as [Hpassed Hlast].
  split; [done |]. split; [done |].
  unfold runVerificationPipeline, cleanTestResults in *.
  unfold bind at 1, ret at 1 in Hrun. unfold bind at 1 in Hrun.
  destruct (try_catch (generateTest config (testInput input)) _ w)
    as [w1 [testGen | msg |]] eqn:Hgen; try done.
  unfold bind at 1 in Hrun.
  destruct (selfHealLoop _ config input testGen 0 w1)
    as [w2 [[[testGen2 res] retryCount2] | msg |]] eqn:Hloop; try done.
  unfold bind at 1 in Hrun.
  destruct (visualPhase_returns config input res w2) as (w3 & vr & Hvisual & Hreport).
  rewrite Hvisual in Hrun. unfold ret in Hrun. injection Hrun as <- <-.
  cbn [overallPassed testResult testGeneration retryCount visualReport].
  split.
  - intros report Hsome. destruct (Hreport report Hsome) as [n Hn]. exists n.
    assert (Henv : env w2 = env w); [| by rewrite <- Henv].
    assert (Henv1 : env w1 = env w).
    { pose proof (generateTest_spec config (testInput input) w) as Hspec.
      unfold wp in Hspec. unfold try_catch, throw in Hgen.
      destruct (generateTest config (testInput input) w) as [w0 [a | m |]]; simpl in *;
        injection Hgen as <- _; by destruct Hspec as (_ & [? _] & _). }
    pose proof (selfHealLoop_spec config input
                  (S (Z.to_nat (Qceiling (maxRetries config))))
                  testGen 0 w1 ltac:(unfold retryLimit; lia) ltac:(lia)) as Hspec.
    unfold wp in Hspec. rewrite Hloop in Hspec.
    destruct Hspec as (_ & (added & k & [Henv2 _] & _) & _). simpl in Henv2. congruence.
  - intros enabled visual.
    unfold bind at 1, ret at 1. unfold bind at 1.
    change (generateTest (setVisualAnalysis enabled config)) with (generateTest config).
    rewrite generateTest_setVisual by done. rewrite Hgen. cbn [fst snd].
    change (maxRetries (setVisualAnalysis enabled config)) with (maxRetries config).
    unfold bind at 1. rewrite selfHealLoop_setVisual, Hloop. cbn [fst snd].
    destruct (visualPhase_returns (setVisualAnalysis enabled config) input res
                (setVisual visual w2)) as (w4 & vr' & Hvisual' & _).
    unfold bind. rewrite Hvisual'. do 2 eexists. by split.
Qed.

Lemma verification_verdict_witness :
  let w := startWorld scenarioEnv sampleStore in
  let w' := (runVerificationPipeline sampleConfig scenarioVerification w).1 in
  overallPassed scenarioVerdict = passed (testResult scenarioVerdict) /\
  (exists n,
      countEvents isRunTests (trace w') = S n /\
      (countEvents isRunTests (trace w) <= n)%nat /\
      runnerResponse (env w) n = RunnerDone (testResult scenarioVerdict)) /\
  (forall report, visualReport scenarioVerdict = Some report ->
     exists n, visualResponse (env w) n (vi_bugDescription scenarioVerification)
                 (screenshots (testResult scenarioVerdict)) = VisualOk report) /\
  (forall (enabled : bool) (visual : nat -> string -> list string -> VisualResponse),
     exists w2 v2,
       runVerificationPipeline (setVisualAnalysis enabled sampleConfig)
         scenarioVerification (setVisual visual w) = (w2, Returned v2) /\
       overallPassed v2 = overallPassed scenarioVerdict /\
       testResult v2 = testResult scenarioVerdict /\
       testGeneration v2 = testGeneration scenarioVerdict /\
       retryCount v2 = retryCount scenarioVerdict).
Proof.
  apply (verification_verdict sampleConfig scenarioVerification
           (startWorld scenarioEnv sampleStore)).
  vm_compute. reflexivity.
Defined.

(** ** [runFixAndVerifyPipeline] *)

Lemma mapM_reads {A B} (f : A -> M FS B) (l : list A) (fs : FS) :
  (forall x fs0, (f x fs0).1 = fs0 /\ (f x fs0).2 <> Diverged) ->
  (mapM f l fs).1 = fs /\ (mapM f l fs).2 <> Diverged.
Proof.
  intros Hf. induction l as [| x l [IH1 IH2]]; simpl; [done |].
  unfold bind. destruct (Hf x fs) as [H1 H2].
  destruct (f x fs) as [fs1 [y | msg |]]; simpl in *; subst; try done.
  destruct (mapM f l fs) as [fs2 [ys | msg |]]; simpl in *; by subst.
Qed.

Lemma parseChange_reads (relevantFiles : list RelevantFile) (root : string)
    (change : string * string) (fs : FS) :
  (parseChange relevantFiles root change fs).1 = fs /\
  (parseChange relevantFiles root change fs).2 <> Diverged.
Proof.
  unfold parseChange, bind, existsSync, readFileSync, gets, ret.
  destruct (List.find _ relevantFiles) as [f |]; simpl.
  - destruct (String.eqb (rf_content f) ""); simpl; [| done].
    destruct (bool_decide _ || _); simpl; [| done].
    destruct (decide _); [done |]. by destruct (files fs !! resolve root change.1).
  - destruct (bool_decide _ || _); simpl; [| done].
    destruct (decide _); [done |]. by destruct (files fs !! resolve root change.1).
Qed.

Lemma parseFixResponse_reads (response : FixResponse) (relevantFiles : list RelevantFile)
    (root : string) (fs : FS) :
  (parseFixResponse response relevantFiles root fs).1 = fs /\
  (parseFixResponse response relevantFiles root fs).2 <> Diverged.
Proof.
  destruct response as [msg | explanation approach cs]; simpl; [done |].
  unfold bind.
  destruct (mapM_reads (parseChange relevantFiles root) cs fs
              (parseChange_reads relevantFiles root)) as [H1 H2].
  by destruct (mapM _ cs fs) as [fs1 [ys | msg |]]; simpl in *; subst.
Qed.

Lemma generateFix_spec (config : AgentConfig) (relevantFiles : list RelevantFile)
    (previousAttempt : option (FixResult * string)) (w : World) :
  wp (generateFix config relevantFiles previousAttempt)
     (fun w' r => store w' = store w /\ running w' = running w /\
                  grows w w' [EvGenerateFix] /\ r <> Diverged) w.
Proof.
  unfold wp, generateFix, callIndex, logEvent, liftStore, bind, gets, modify; simpl.
  destruct (parseFixResponse_reads
              (fixResponse (env w) (countEvents isGenerateFix (trace w)) previousAttempt)
              relevantFiles (workspaceRoot config) (store w)) as [H1 H2].
  by destruct (parseFixResponse _ _ _ (store w)) as [fs1 r]; simpl in *; subst.
Qed.

Lemma applyChanges_terminates (config : AgentConfig) (cs : list FileChange) :
  forall backup fs, (applyChanges config cs backup fs).2 <> Diverged.
Proof.
  induction cs as [| c cs IH]; intros backup fs; [done |].
  rewrite applyChanges_cons.
  destruct (decide (changePath config c ∈ locked fs)); [done | apply IH].
Qed.

Lemma applyFix_terminates (config : AgentConfig) (now : Z) (fixResult : FixResult) (fs : FS) :
  (applyFix config now fixResult fs).2 <> Diverged.
Proof.
  unfold applyFix, bind.
  pose proof (applyChanges_terminates config (changes fixResult) [] fs) as Hterm.
  by destruct (applyChanges config (changes fixResult) [] fs) as [fs1 [b | msg |]].
Qed.

Lemma rollbackFix_terminates (backup : FixBackup) (fs : FS) :
  (rollbackFix backup fs).2 <> Diverged.
Proof.
  unfold rollbackFix. rewrite rollbackFiles_spec. simpl.
  induction (bk_files backup) as [| e es IH]; simpl; [done |].
  by destruct (blocked fs e).
Qed.

(** *** Test executions per attempt *)

Lemma testsPerAttempt_noFix (x rest : list Event) :
  Forall (fun e => isGenerateFix e = false) x ->
  testsPerAttempt (x ++ rest) = bump (countEvents isRunTests x) (testsPerAttempt rest).
Proof.
  induction 1 as [| e x He _ IH]; simpl.
  - by destruct (testsPerAttempt rest).
  - unfold countEvents in *. rewrite IH.
    destruct e; simpl in *; try done.
    by destruct (testsPerAttempt rest).
Qed.

Lemma testsPerAttempt_quiet (x : list Event) (k : nat) (rest : list Event) :
  quiet x k -> testsPerAttempt (x ++ rest) = bump k (testsPerAttempt rest).
Proof. intros [Hfix <-]. by apply testsPerAttempt_noFix. Qed.

(** The events of one attempt: a fix generation, then [k] test runs. *)
Lemma testsPerAttempt_attempt (x : list Event) (k : nat) (base : list Event) :
  quiet x k ->
  testsPerAttempt ((x ++ [EvGenerateFix]) ++ base) = k :: testsPerAttempt base.
Proof.
  intros Hquiet. rewrite <- app_assoc. rewrite (testsPerAttempt_quiet x k) by done.
  simpl. by rewrite Nat.add_0_r.
Qed.

(** *** The loop over attempts *)

Lemma loopPost_exhausted (config : AgentConfig) (attempt : Z) (acc : list FixAttempt)
    (w : World) (relevantFiles : list RelevantFile) (ctx : option CodebaseContext) :
  loopPost config 0 attempt acc w w
    (Returned (mkResult false acc None None relevantFiles ctx)).
Proof.
  exists [], []. split_and!; try done.
  intros res [= <-]. exists []. simpl. rewrite app_nil_r. split_and!; try done.
Qed.

Lemma attempt_events (x : list Event) (k : nat) :
  quiet x k ->
  countEvents isRunTests (x ++ [EvGenerateFix]) = k /\
  countEvents isGenerateFix (x ++ [EvGenerateFix]) = 1%nat.
Proof.
  intros [Hfix Hcount]. rewrite !countEvents_app, Hcount. split; [done |].
  assert (countEvents isGenerateFix x = 0%nat) as ->; [| done].
  clear Hcount. unfold countEvents.
  induction Hfix as [| e x He _ IH]; simpl; [done |]. by rewrite He.
Qed.

Lemma loopPost_throw (config : AgentConfig) (remaining : nat) (attempt : Z)
    (acc : list FixAttempt) (w w1 : World) (x : list Event) (k : nat) (msg : string) :
  grows w w1 (x ++ [EvGenerateFix]) -> quiet x k ->
  Z.of_nat k <= Z.max 1 (retryLimit config) ->
  loopPost config (S remaining) attempt acc w w1 (Thrown msg).
Proof.
  intros Hgrow Hquiet Hk. destruct (attempt_events x k Hquiet) as [Ht Hf].
  exists (x ++ [EvGenerateFix]), [k]. split_and!; try done.
  - intros base. by apply testsPerAttempt_attempt.
  - simpl. lia.
  - by repeat constructor.
  - rewrite Ht. simpl. lia.
Qed.

Lemma loopPost_success (config : AgentConfig) (remaining : nat) (attempt : Z)
    (acc : list FixAttempt) (w w1 : World) (x : list Event) (k : nat)
    (fix' : FixResult) (v : VerificationResult)
    (relevantFiles : list RelevantFile) (ctx : option CodebaseContext) :
  grows w w1 (x ++ [EvGenerateFix]) -> quiet x k ->
  Z.of_nat k <= Z.max 1 (retryLimit config) ->
  overallPassed v = true ->
  loopPost config (S remaining) attempt acc w w1
    (Returned (mkResult true (acc ++ [mkFixAttempt attempt fix' (Some v) None])
                 (Some fix') (Some v) relevantFiles ctx)).
Proof.
  intros Hgrow Hquiet Hk Hpass. destruct (attempt_events x k Hquiet) as [Ht Hf].
  exists (x ++ [EvGenerateFix]), [k]. split_and!; try done.
  - intros base. by apply testsPerAttempt_attempt.
  - simpl. lia.
  - by repeat constructor.
  - rewrite Ht. simpl. lia.
  - intros res [= <-]. eexists [_]. simpl. split_and!; try done.
    + intros [| i] a; simpl; [| done]. intros [= <-]. simpl. lia.
    + intros [| i] a v'; simpl; [| done]. by intros [= <-] [= <-] _.
    + intros _. by do 2 eexists.
Qed.

Lemma loopPost_continue (config : AgentConfig) (remaining : nat) (attempt : Z)
    (acc : list FixAttempt) (w w1 w' : World) (x : list Event) (k : nat)
    (a : FixAttempt) (r : Outcome FixAndVerifyResult) :
  grows w w1 (x ++ [EvGenerateFix]) -> quiet x k ->
  Z.of_nat k <= Z.max 1 (retryLimit config) ->
  attemptNumber a = attempt ->
  (forall v, verification a = Some v -> overallPassed v = false) ->
  loopPost config remaining (attempt + 1) (acc ++ [a]) w1 w' r ->
  loopPost config (S remaining) attempt acc w w' r.
Proof.
  intros Hgrow Hquiet Hk Hnum Hfail
    (added & per & Hgrow' & Hper & Hlen & Hbound & Htests & Hfixes & Hnd & Hres).
  destruct (attempt_events x k Hquiet) as [Ht Hf].
  exists (added ++ x ++ [EvGenerateFix]), (per ++ [k]). split_and!; try done.
  - by eapply grows_trans.
  - intros base. rewrite <- app_assoc, Hper, (testsPerAttempt_attempt x k) by done.
    by rewrite <- app_assoc.
  - rewrite length_app. simpl. lia.
  - apply Forall_app. split; [done | by repeat constructor].
  - rewrite countEvents_app, Htests, Ht, sum_list_with_app. simpl. lia.
  - rewrite countEvents_app, Hfixes, Hf, length_app. simpl. lia.
  - intros res Hr. destruct (Hres res Hr)
      as (news & Hatt & Hlen' & Hnums & Hpass & Hsucc & Hexh).
    exists (a :: news). split_and!.
    + by rewrite Hatt, <- app_assoc.
    + rewrite length_app. simpl. lia.
    + intros [| i] b; simpl.
      * intros [= <-]. lia.
      * intros Hb. rewrite (Hnums i b Hb). lia.
    + intros [| i] b v; simpl.
      * intros [= <-] Hv Hp. rewrite (Hfail v Hv) in Hp. done.
      * intros Hb Hv Hp. destruct (Hpass i b v Hb Hv Hp) as (? & ? & ? & ?).
        split_and!; try done. lia.
    + intros Hs. destruct (Hsucc Hs) as (b & v & Hlast & Hrest).
      exists b, v. split; [| done].
      destruct news as [| n0 news0]; [done |]. done.
    + intros Hs. destruct (Hexh Hs) as (? & ? & ?). split_and!; try done.
      simpl. lia.
Qed.

Lemma grows_store (w : World) (fs : FS) (added : list Event) (w0 : World) :
  grows w0 w added ->
  grows w0 (mkWorld (env w) fs (running w) (trace w)) added.
Proof. done. Qed.

Lemma attemptLoop_spec (config : AgentConfig) (input : FixAndVerifyInput)
    (relevantFiles : list RelevantFile) (ctx : option CodebaseContext) :
  forall (remaining : nat) (attempt : Z) (previousAttempt : option (FixResult * string))
         (acc : list FixAttempt) (w : World),
    wp (attemptLoop remaining config input relevantFiles ctx attempt previousAttempt acc)
       (loopPost config remaining attempt acc w) w.
Proof.
  induction remaining as [| remaining IH]; intros attempt previousAttempt acc w; simpl.
  { apply wp_ret, loopPost_exhausted. }
  apply wp_bind, wp_attempt. eapply wp_mono; [apply generateFix_spec |].
  intros w1 r1 (Hstore1 & Hrunning1 & Hgrow1 & Hnd1).
  assert (Hgrow1' : grows w w1 ([] ++ [EvGenerateFix])) by done.
  destruct r1 as [fix' | msg |]; [| | done].
  2: { eapply wp_mono; [apply IH |]. intros w' r Hpost.
       refine (loopPost_continue _ _ _ _ _ _ _ [] 0%nat _ _ Hgrow1' quiet_nil _ _ _ Hpost);
         [lia | done | done]. }
  apply wp_bind, wp_gets. apply wp_bind, wp_attempt, wp_liftStore.
  intros fs2 r2 Happly.
  pose proof (applyFix_terminates config
                (dateNow (env w1) (length (trace w1))) fix' (store w1)) as Hterm.
  rewrite Happly in Hterm. simpl in Hterm.
  destruct r2 as [backup | msg |]; [| | done].
  2: { eapply wp_mono; [apply IH |]. intros w' r Hpost.
       refine (loopPost_continue _ _ _ _ _ _ _ [] 0%nat _ _
                 (grows_store _ _ _ _ Hgrow1') quiet_nil _ _ _ Hpost);
         [lia | done | done]. }
  apply wp_bind, wp_attempt. eapply wp_mono; [apply runVerificationPipeline_spec |].
  intros w3 r3 (Hstore3 & (added & k & Hgrow3 & Hquiet3 & Hk) & Hnd3 & _).
  assert (Hgrow13 : grows w w3 (added ++ [EvGenerateFix])).
  { eapply grows_trans; [| exact Hgrow3]. by apply grows_store. }
  assert (Hrollback : forall fs4 r4 prev (a : FixAttempt),
            rollbackFix backup (store w3) = (fs4, r4) ->
            attemptNumber a = attempt ->
            (forall v, verification a = Some v -> overallPassed v = false) ->
            wp (match r4 with
                | Returned _ =>
                    attemptLoop remaining config input relevantFiles ctx (attempt + 1)
                      prev (acc ++ [a])
                | Thrown msg => throw msg
                | Diverged => diverge
                end)
               (loopPost config (S remaining) attempt acc w)
               (mkWorld (env w3) fs4 (running w3) (trace w3))).
  { intros fs4 r4 prev a Hroll Hnum Hfail.
    pose proof (rollbackFix_terminates backup (store w3)) as Hterm4.
    rewrite Hroll in Hterm4. simpl in Hterm4.
    destruct r4 as [[] | msg |]; [| | done].
    - eapply wp_mono; [apply IH |]. intros w' r Hpost.
      refine (loopPost_continue _ _ _ _ _ _ _ added k _ _
                (grows_store _ _ _ _ Hgrow13) Hquiet3 Hk Hnum Hfail Hpost).
    - apply wp_throw. eapply (loopPost_throw _ _ _ _ _ _ added k);
        [by apply grows_store | done | done]. }
  destruct r3 as [v | msg |]; [| | done].
  - destruct (overallPassed v) eqn:Hpass.
    + apply wp_ret. by eapply loopPost_success.
    + apply wp_bind, wp_liftStore. intros fs4 r4 Hroll.
      specialize (Hrollback fs4 r4 (Some (fix', verificationErrorOf v))
                    (mkFixAttempt attempt fix' (Some v) None) Hroll eq_refl).
      destruct r4 as [[] | msg |]; apply Hrollback; by intros ? [= <-].
  - apply wp_bind, wp_liftStore. intros fs4 r4 Hroll.
    specialize (Hrollback fs4 r4 (Some (fix', msg))
                  (mkFixAttempt attempt fix' None (Some ("Verification error: " +:+ msg)))
                  Hroll eq_refl).
    destruct r4 as [[] | msg4 |]; by apply Hrollback.
Qed.

Lemma firstExisting_reads (candidates : list string) (fs : FS) :
  (firstExisting candidates fs).1 = fs /\ (firstExisting candidates fs).2 <> Diverged.
Proof.
  induction candidates as [| c cs IH]; simpl; [done |].
  unfold bind, existsSync, readFileSync, gets, ret.
  destruct (bool_decide _ || _); simpl; [| done].
  destruct (decide _); [done |]. by destruct (files fs !! c).
Qed.

Lemma analyzeRelevantFiles_reads (config : AgentConfig) (response : SuggestResponse)
    (hintFiles : option (list string)) (fs : FS) :
  (analyzeRelevantFiles config response hintFiles fs).1 = fs /\
  (analyzeRelevantFiles config response hintFiles fs).2 <> Diverged.
Proof.
  rewrite analyzeRelevantFiles_spec. split; [done |]. simpl.
  destruct (decide _); [done |]. by destruct response.
Qed.

Lemma runFixAndVerifyPipeline_spec (config : AgentConfig) (input : FixAndVerifyInput)
    (w : World) :
  wp (runFixAndVerifyPipeline config input)
     (loopPost config (Z.to_nat (attemptLimit config)) 1 [] w) w.
Proof.
  unfold runFixAndVerifyPipeline.
  assert (Hsame : mkWorld (env w) (store w) (running w) (trace w) = w) by by destruct w.
  assert (Hthrown : forall msg,
            loopPost config (Z.to_nat (attemptLimit config)) 1 [] w w (Thrown msg)).
  { intros msg. exists [], []. split_and!; try done. simpl. lia. }
  apply wp_bind, wp_liftStore. intros fs1 r1 Hctx.
  unfold readCodebaseContext in Hctx.
  match type of Hctx with firstExisting ?cands _ = _ =>
    destruct (firstExisting_reads cands (store w)) as [Hfs1 Hnd1] end.
  rewrite Hctx in Hfs1, Hnd1. simpl in Hfs1, Hnd1. subst fs1. rewrite Hsame.
  destruct r1 as [ctx | msg |]; [| apply Hthrown | done].
  apply wp_bind, wp_gets, wp_bind, wp_liftStore. simpl. intros fs2 r2 Hsel.
  destruct (analyzeRelevantFiles_reads config (suggestResponse (env w))
              (in_hintFiles input) (store w)) as [Hfs Hnd].
  rewrite Hsel in Hfs, Hnd. simpl in Hfs, Hnd. subst fs2.
  rewrite Hsame.
  destruct r2 as [relevantFiles | msg |]; [| apply Hthrown | done].
  apply attemptLoop_spec.
Qed.


(** The readings of a run that the bounds below share: the events the run
    added, and the number of test executions in each of its attempts. *)
Lemma pipeline_attempts (config : AgentConfig) (input : FixAndVerifyInput) (w : World) :
  exists added,
    trace (runFixAndVerifyPipeline config input w).1 = added ++ trace w /\
    (length (testsPerAttempt added) <= Z.to_nat (attemptLimit config))%nat /\
    Forall (fun k => Z.of_nat k <= retryLimit config) (testsPerAttempt added) /\
    countEvents isGenerateFix added = length (testsPerAttempt added) /\
    countEvents isRunTests added = sum_list (testsPerAttempt added) /\
    (runFixAndVerifyPipeline config input w).2 <> Diverged /\
    forall res, (runFixAndVerifyPipeline config input w).2 = Returned res ->
                length (attempts res) = length (testsPerAttempt added).
Proof.
  destruct (runFixAndVerifyPipeline_spec config input w)
    as (added & per & [_ Htrace] & Hper & Hlen & Hbound & Htests & Hfixes & Hnd & Hres).
  exists added. specialize (Hper []). rewrite !app_nil_r in Hper. rewrite Hper.
  split_and!; try done.
  - destruct per as [| k per]; [done |].
    simpl in Hlen. pose proof (limits_ordered config) as Hordered.
    eapply Forall_impl; [exact Hbound |]. simpl. lia.
  - intros res Hr. destruct (Hres res Hr) as (news & -> & <- & _). done.
Qed.


(** C4 (bounded retries), as amended.  In every run of
    [runFixAndVerifyPipeline], one fix generation opens each attempt and
    the test is executed within an attempt only; the run ends (it returns
    or throws).  [maxAttempts] is [config.maxRetries], a number that the
    loops compare their counters with: there are at most as many attempts
    as whole numbers from 1 up to it, and within an attempt the test is
    executed until the count reaches it, that is at most the next whole
    number at or above it.  When the setting is a whole number [n], both
    bounds are [n]. *)
Theorem bounded_attempts_and_retries (config : AgentConfig) (input : FixAndVerifyInput)
    (w : World) :
  let maxAttempts := maxRetries config in
  exists added,
    trace (runFixAndVerifyPipeline config input w).1 = added ++ trace w /\
    countEvents isGenerateFix added = length (testsPerAttempt added) /\
    Z.of_nat (length (testsPerAttempt added)) <= Z.max 0 (Qfloor maxAttempts) /\
    Forall (fun k => Z.of_nat k <= Qceiling (maxRetries config)) (testsPerAttempt added) /\
    (forall n : Z,
        (maxRetries config == inject_Z n)%Q ->
        Z.of_nat (length (testsPerAttempt added)) <= Z.max 0 n /\
        Forall (fun k => Z.of_nat k <= n) (testsPerAttempt added)) /\
    countEvents isRunTests added = sum_list (testsPerAttempt added) /\
    (runFixAndVerifyPipeline config input w).2 <> Diverged /\
    forall res, (runFixAndVerifyPipeline config input w).2 = Returned res ->
                Z.of_nat (length (attempts res)) <= Z.max 0 (Qfloor maxAttempts).
Proof.
  intros maxAttempts.
  destruct (pipeline_attempts config input w)
    as (added & Htrace & Hlen & Hbound & Hfixes & Htests & Hnd & Hres).
  unfold maxAttempts. fold (attemptLimit config) (retryLimit config).
  exists added. split_and!; try done; try lia.
  - intros n Hwhole. destruct (whole_limits config n Hwhole) as [Hfloor Hceiling].
    split; [lia | by rewrite <- Hceiling].
  - intros res Hr. rewrite (Hres res Hr). lia.
Qed.

(** C4, the statement as given fails: with [maxRetries] set to 2.5, each
    of the two attempts of a run in which every test fails executes the
    test three times. *)
Lemma fractional_setting_overruns : ~ tests_within_maxRetries.
Proof.
  intros Hclaim.
  specialize (Hclaim (numberConfig (5 # 2)) sampleInput (startWorld failingEnv sampleStore)
                (trace (runFixAndVerifyPipeline (numberConfig (5 # 2)) sampleInput
                          (startWorld failingEnv sampleStore)).1)
                ltac:(by rewrite app_nil_r)).
  assert (Hper : testsPerAttempt
                   (trace (runFixAndVerifyPipeline (numberConfig (5 # 2)) sampleInput
                             (startWorld failingEnv sampleStore)).1)
                 = [3; 3]%nat) by (vm_compute; reflexivity).
  rewrite Hper in Hclaim. apply Forall_cons in Hclaim as [Hthree _].
  by vm_compute in Hthree.
Qed.

(** The field both loops read is never zero in a configuration that
    [getConfig] built: an unset or zero setting reads as 3. *)
Lemma getConfig_maxRetries (settings : Settings) (root : string) :
  maxRetries (getConfig settings root) = or_number (set_maxRetries settings) 3 /\
  ~ (maxRetries (getConfig settings root) == 0)%Q.
Proof.
  split; [done |]. simpl. unfold or_number.
  destruct (set_maxRetries settings) as [n |]; [| done].
  destruct (Qeq_bool n 0) eqn:Hn; [done |]. by apply Qeq_bool_neq.
Qed.



(** ** Residue of a failed run *)

(** C1 (no residue), evaluated where it fails.  The service proposes a
    change to [a.ts] and one to [b.ts], and [b.ts] cannot be written.
    [applyFix] writes [a.ts], then throws; the pipeline records the attempt
    with its [Apply failed] error and goes on without a rollback, the backup
    having been lost with the exception.  The run returns with
    [succeeded = false] and [a.ts] holds the proposed content, not the
    content it had before the run. *)
Theorem partial_apply_leaves_residue :
  let run := runFixAndVerifyPipeline oneAttemptConfig sampleInput
               (startWorld twoFileEnv lockedStore) in
  (exists res,
      run.2 = Returned res /\
      succeeded res = false /\
      map error (attempts res)
        = [Some "Apply failed: EACCES: permission denied, open '/w/b.ts'"]) /\
  files lockedStore !! "/w/a.ts" = Some "old" /\
  files (store run.1) !! "/w/a.ts" = Some "new".
Proof.
  split; [| split].
  - eexists. split; [vm_compute; reflexivity |]. by split.
  - by vm_compute.
  - by vm_compute.
Qed.

(** The no-residue statement fails in general. *)
Lemma failed_run_can_leave_residue : ~ failed_run_leaves_no_residue.
Proof.
  intros Hclaim.
  destruct (runFixAndVerifyPipeline oneAttemptConfig sampleInput
              (startWorld twoFileEnv lockedStore)) as [w' r] eqn:Hrun.
  assert (Hr : exists res, r = Returned res /\ succeeded res = false /\
                           files (store w') !! "/w/a.ts" = Some "new").
  { vm_compute in Hrun. injection Hrun as <- <-. eexists. by split_and!. }
  destruct Hr as (res & -> & Hfail & Hnew).
  specialize (Hclaim _ _ _ _ _ Hrun Hfail). rewrite Hclaim in Hnew.
  by vm_compute in Hnew.
Qed.

(** *** Where the no-residue statement does hold *)

Lemma mapM_parseChange_paths (relevantFiles : list RelevantFile) (config : AgentConfig)
    (cs : list (string * string)) :
  forall fs fs' fcs,
    mapM (parseChange relevantFiles (workspaceRoot config)) cs fs = (fs', Returned fcs) ->
    map (changePath config) fcs = map (fun c => targetPath config c.1) cs.
Proof.
  induction cs as [| c cs IH]; intros fs fs' fcs; simpl.
  - by intros [= _ <-].
  - unfold bind at 1.
    destruct (parseChange relevantFiles (workspaceRoot config) c fs)
      as [fs1 [fc | msg |]] eqn:Hfc; try done.
    unfold bind at 1.
    destruct (mapM _ cs fs1) as [fs2 [fcs' | msg |]] eqn:Hrest; try done.
    intros [= _ <-]. simpl. f_equal; [| by eapply IH].
    unfold parseChange, bind in Hfc.
    match type of Hfc with
    | context [match ?m fs with _ => _ end] => destruct (m fs) as [fs0 [o | |]]
    end; try done.
    unfold ret in Hfc. by injection Hfc as _ <-.
Qed.

Lemma generateFix_returned (config : AgentConfig) (relevantFiles : list RelevantFile)
    (previousAttempt : option (FixResult * string)) (w w1 : World) (fix' : FixResult) :
  generateFix config relevantFiles previousAttempt w = (w1, Returned fix') ->
  exists explanation approach cs,
    fixResponse (env w) (countEvents isGenerateFix (trace w)) previousAttempt
      = FixParsed explanation approach cs /\
    map (changePath config) (changes fix') = map (fun c => targetPath config c.1) cs.
Proof.
  unfold generateFix, callIndex, logEvent, liftStore, bind, gets, modify; simpl.
  destruct (fixResponse (env w) (countEvents isGenerateFix (trace w)) previousAttempt)
    as [msg | explanation approach cs]; simpl; [done |].
  unfold bind.
  destruct (mapM _ cs (store w)) as [fs1 [fcs | msg |]] eqn:Hmap; try done.
  unfold ret. intros [= _ <-]. simpl.
  exists explanation, approach, cs. split; [done |].
  by eapply mapM_parseChange_paths.
Qed.

Lemma applyChanges_unlocked (config : AgentConfig) (cs : list FileChange) :
  forall backup fs,
    Forall (fun c => changePath config c ∉ locked fs) cs ->
    exists fs1 backup1, applyChanges config cs backup fs = (fs1, Returned backup1).
Proof.
  induction cs as [| c cs IH]; intros backup fs Hfree; [by do 2 eexists |].
  apply Forall_cons in Hfree as [Hc Hfree].
  rewrite applyChanges_cons, decide_False by done. by apply IH.
Qed.

(** The store at the end of a run of the loop that reports failure, when
    every proposal the service makes applies cleanly. *)
Lemma attemptLoop_restores (config : AgentConfig) (input : FixAndVerifyInput)
    (relevantFiles : list RelevantFile) (ctx : option CodebaseContext) (w0 : World) :
  (forall n prev, appliesCleanly config (store w0) (fixResponse (env w0) n prev)) ->
  forall (remaining : nat) (attempt : Z) (previousAttempt : option (FixResult * string))
         (acc : list FixAttempt) (w : World),
    env w = env w0 -> store w = store w0 ->
    wp (attemptLoop remaining config input relevantFiles ctx attempt previousAttempt acc)
       (fun w' r => forall res, r = Returned res -> succeeded res = false ->
                                store w' = store w0) w.
Proof.
  intros Hclean.
  induction remaining as [| remaining IH];
    intros attempt previousAttempt acc w Henv Hstore; simpl.
  { apply wp_ret. by intros res [= <-] _. }
  apply wp_bind, wp_attempt. unfold wp at 1.
  destruct (generateFix config relevantFiles previousAttempt w) as [w1 r1] eqn:Hgen. simpl.
  destruct (wp_run _ _ _ _ _ (generateFix_spec config relevantFiles previousAttempt w) Hgen)
    as (Hstore1 & _ & [Henv1 _] & _).
  destruct r1 as [fix' | msg |]; [| apply IH; congruence | done].
  destruct (generateFix_returned _ _ _ _ _ _ Hgen)
    as (explanation & approach & cs & Hresp & Hpaths).
  specialize (Hclean (countEvents isGenerateFix (trace w)) previousAttempt).
  rewrite <- Henv, Hresp in Hclean. destruct Hclean as [Hnd Hfree].
  assert (Hdistinct : distinctTargets config fix').
  { unfold distinctTargets. by rewrite Hpaths. }
  assert (Hfree' : Forall (fun p => (p ∉ locked (store w1)) /\
                            files (store w1) !! p <> Some "")
                     (map (changePath config) (changes fix'))).
  { rewrite Hpaths, Hstore1, Hstore. by apply Forall_map. }
  apply wp_bind, wp_gets. apply wp_bind, wp_attempt, wp_liftStore.
  intros fs2 r2 Happly.
  destruct (applyChanges_unlocked config (changes fix') [] (store w1))
    as (fs2' & backup' & Hchanges).
  { apply Forall_map in Hfree'. eapply Forall_impl; [exact Hfree' |]. by intros c [? _]. }
  assert (Happly' : exists backup, r2 = Returned backup).
  { unfold applyFix, bind in Happly. rewrite Hchanges in Happly.
    unfold ret in Happly. injection Happly as _ <-. by eexists. }
  destruct Happly' as [backup ->].
  assert (Hroll : rollbackFix backup fs2 = (store w1, Returned tt)).
  { eapply apply_rollback_exact; [exact Hdistinct | | exact Happly].
    intros p Hp. rewrite Forall_forall in Hfree'. by apply Hfree'. }
  apply wp_bind, wp_attempt. eapply wp_mono; [apply runVerificationPipeline_spec |].
  intros w3 r3 (Hstore3 & (added & k & [Henv3 _] & _) & Hnd3 & _).
  simpl in Hstore3, Henv3.
  assert (Hrollback : forall prev (a : FixAttempt),
            wp (liftStore (rollbackFix backup) ;;;
                attemptLoop remaining config input relevantFiles ctx (attempt + 1)
                  prev (acc ++ [a]))
               (fun w' r => forall res, r = Returned res -> succeeded res = false ->
                                        store w' = store w0) w3).
  { intros prev a. apply wp_bind, wp_liftStore. intros fs5 r5 Hroll5.
    rewrite Hstore3 in Hroll5. simpl in Hroll5. rewrite Hroll in Hroll5.
    injection Hroll5 as <- <-. apply IH; simpl; congruence. }
  destruct r3 as [v | msg |]; [| apply Hrollback | done].
  destruct (overallPassed v); [| apply Hrollback].
  apply wp_ret. by intros res [= <-].
Qed.

(** The files that [applyFix] and [rollbackFix] write.  A run that reports
    failure leaves them exactly as it found them, provided every proposal
    of the service applies cleanly: no [applyFix] throws partway, no
    proposal names a file twice, and no proposal touches a file that exists
    with empty content.  (What a verification itself leaves behind, the
    generated test and the emptied output directory, is not part of the
    store followed here.) *)
Lemma failed_run_restores_store (config : AgentConfig) (input : FixAndVerifyInput)
    (w w' : World) (res : FixAndVerifyResult) :
  (forall n prev, appliesCleanly config (store w) (fixResponse (env w) n prev)) ->
  runFixAndVerifyPipeline config input w = (w', Returned res) ->
  succeeded res = false ->
  store w' = store w.
Proof.
  intros Hclean Hrun Hfail.
  assert (Hwp : wp (runFixAndVerifyPipeline config input)
                   (fun w' r => forall res, r = Returned res -> succeeded res = false ->
                                            store w' = store w) w).
  { unfold runFixAndVerifyPipeline.
    apply wp_bind, wp_liftStore. intros fs1 r1 Hctx.
    unfold readCodebaseContext in Hctx.
    match type of Hctx with firstExisting ?cands _ = _ =>
      destruct (firstExisting_reads cands (store w)) as [Hfs1 Hnd1] end.
    rewrite Hctx in Hfs1, Hnd1. simpl in Hfs1, Hnd1. subst fs1.
    destruct r1 as [ctx | msg |]; [| done | done].
    apply wp_bind, wp_gets, wp_bind, wp_liftStore. simpl. intros fs2 r2 Hsel.
    destruct (analyzeRelevantFiles_reads config (suggestResponse (env w))
                (in_hintFiles input) (store w)) as [Hfs Hnd].
    rewrite Hsel in Hfs, Hnd. simpl in Hfs, Hnd. subst fs2.
    destruct r2 as [relevantFiles | msg |]; [| done | done].
    by apply attemptLoop_restores. }
  by eapply (wp_run _ _ _ _ _ Hwp Hrun).
Qed.

(** * Further properties of the code *)

(** ** [readCodebaseContext] *)

Lemma firstExisting_first (candidates : list string) (fs : FS) :
  match firstExisting candidates fs with
  | (fs', Returned found) =>
      fs' = fs /\
      match found with
      | Some ctx =>
          exists earlier later,
            candidates = earlier ++ ctx_filePath ctx :: later /\
            Forall (absent fs) earlier /\
            (ctx_filePath ctx ∉ directories fs) /\
            files fs !! ctx_filePath ctx = Some (ctx_content ctx)
      | None => Forall (absent fs) candidates
      end
  | (fs', Thrown msg) =>
      fs' = fs /\ msg = directoryRead /\
      exists earlier c later,
        candidates = earlier ++ c :: later /\
        Forall (absent fs) earlier /\
        c ∈ directories fs
  | (_, Diverged) => False
  end.
Proof.
  induction candidates as [| c cs IH]; simpl; [done |].
  unfold bind at 1, existsSync, gets.
  destruct (decide (c ∈ directories fs)) as [Hdir | Hdir].
  - rewrite (bool_decide_eq_true_2 _ Hdir). simpl.
    unfold bind, readFileSync. rewrite decide_True by done.
    split_and!; [done | done |]. by exists [], c, cs.
  - rewrite (bool_decide_eq_false_2 _ Hdir). simpl.
    destruct (files fs !! c) as [content |] eqn:Hc.
    + unfold bind, readFileSync, ret. rewrite decide_False by done. rewrite Hc.
      split; [done |]. by exists [], cs.
    + destruct (firstExisting cs fs) as [fs' [[ctx |] | msg |]]; [| | | done].
      * destruct IH as (-> & earlier & later & -> & Hearlier & Hfile & Hctx).
        split; [done |]. exists (c :: earlier), later.
        split_and!; [done | by constructor | done | done].
      * destruct IH as (-> & Hall). split; [done |]. by constructor.
      * destruct IH as (-> & -> & earlier & d & later & -> & Hearlier & Hd).
        split_and!; [done | done |]. exists (c :: earlier), d, later.
        split_and!; [done | by constructor | done].
Qed.

(** X1 (readCodebaseContext).
    [readCodebaseContext] never writes.  It goes through its candidates in
    the order: the configured context file (when the setting is not empty),
    [codebase-context.md], [test-context.md], [ARCHITECTURE.md],
    [docs/architecture.md], each resolved against the workspace root, and
    stops at the first one that exists.  When that is a file, it returns
    it with its content; when it is a directory, the unguarded read throws.
    It returns [null] exactly when no candidate exists. *)
Theorem readCodebaseContext_first_existing (config : AgentConfig) (fs : FS) :
  match readCodebaseContext config fs with
  | (fs', Returned found) =>
      fs' = fs /\
      match found with
      | Some ctx =>
          exists earlier later,
            contextCandidates config = earlier ++ ctx_filePath ctx :: later /\
            Forall (absent fs) earlier /\
            (ctx_filePath ctx ∉ directories fs) /\
            files fs !! ctx_filePath ctx = Some (ctx_content ctx)
      | None => Forall (absent fs) (contextCandidates config)
      end
  | (fs', Thrown msg) =>
      fs' = fs /\ msg = directoryRead /\
      exists earlier c later,
        contextCandidates config = earlier ++ c :: later /\
        Forall (absent fs) earlier /\
        c ∈ directories fs
  | (_, Diverged) => False
  end.
Proof. apply firstExisting_first. Qed.

(** ** [applyFix] *)

Lemma applyPure_app (config : AgentConfig) (cs1 cs2 : list FileChange) :
  forall (m : gmap string string) (backup : list BackupFile),
    applyPure config (cs1 ++ cs2) m backup =
      applyPure config cs2 (applyPure config cs1 m backup).1
        (applyPure config cs1 m backup).2.
Proof.
  induction cs1 as [| c cs1 IH]; intros m backup; simpl; [done |]. apply IH.
Qed.

Lemma applyPure_backup_app (config : AgentConfig) (cs : list FileChange) :
  forall (m : gmap string string) (backup : list BackupFile),
    exists entries,
      (applyPure config cs m backup).2 = backup ++ entries /\
      map bk_filePath entries = targets config cs /\
      (forall c rest, cs = c :: rest ->
         entries !! 0%nat = Some (snapshot m (changePath config c))).
Proof.
  induction cs as [| c cs IH]; intros m backup; simpl.
  - exists []. by rewrite app_nil_r.
  - destruct (IH (<[changePath config c := modifiedContent c]> m)
                (backup ++ [snapshot m (changePath config c)]))
      as (entries & -> & Hpaths & _).
    exists (snapshot m (changePath config c) :: entries).
    rewrite <- app_assoc. split_and!; [done | by simpl; rewrite Hpaths |].
    by intros c' rest [= <- <-].
Qed.

Lemma applyPure_applied (config : AgentConfig) (before : list FileChange)
    (c : FileChange) (after : list FileChange)
    (m : gmap string string) (backup : list BackupFile) :
  changePath config c ∉ targets config after ->
  (applyPure config (before ++ c :: after) m backup).1 !! changePath config c
    = Some (modifiedContent c).
Proof.
  intros Hlater. rewrite applyPure_app. simpl.
  rewrite applyPure_lookup_other by done. apply lookup_insert_eq.
Qed.

Lemma applyPure_entry (config : AgentConfig) (before : list FileChange)
    (c : FileChange) (after : list FileChange) (m : gmap string string) :
  changePath config c ∉ targets config before ->
  (applyPure config (before ++ c :: after) m []).2 !! length before
    = Some (snapshot m (changePath config c)).
Proof.
  intros Hearlier. rewrite applyPure_app.
  destruct (applyPure_backup_app config before m []) as (entries & Hbk & Hpaths & _).
  destruct (applyPure_backup_app config (c :: after) (applyPure config before m []).1
              (applyPure config before m []).2) as (entries' & -> & _ & Hhead).
  rewrite Hbk. simpl.
  assert (Hlen : length entries = length before).
  { apply (f_equal length) in Hpaths. unfold targets in Hpaths.
    by rewrite !length_map in Hpaths. }
  rewrite lookup_app_r by (rewrite Hlen; lia).
  rewrite Hlen, Nat.sub_diag, (Hhead c after eq_refl).
  unfold snapshot. by rewrite applyPure_lookup_other.
Qed.

Lemma applyFix_returned (config : AgentConfig) (now : Z) (fixResult : FixResult)
    (fs fs1 : FS) (backup : FixBackup) :
  applyFix config now fixResult fs = (fs1, Returned backup) ->
  Forall (fun c => changePath config c ∉ locked fs) (changes fixResult) /\
  fs1 = withFiles (applyPure config (changes fixResult) (files fs) []).1 fs /\
  backup = mkFixBackup now (applyPure config (changes fixResult) (files fs) []).2.
Proof.
  unfold applyFix, bind. intros Happly.
  destruct (applyChanges config (changes fixResult) [] fs) as [fs' [b | msg |]] eqn:Hrun;
    try done.
  unfold ret in Happly. injection Happly as -> <-.
  by apply applyChanges_returned in Hrun as (Hfree & -> & ->).
Qed.

(** X2 (applyFix).
    What a successful [applyFix] leaves behind.  The backup carries the
    time of the call and one entry per change, in order, under the path that
    was written; the entry of the first change to a path holds the content
    the file had before the call (the empty string when it did not exist).
    Files that no change names are untouched, and every file that a change
    names holds the modified content of the last change naming it. *)
Theorem applyFix_effect (config : AgentConfig) (now : Z) (fixResult : FixResult)
    (fs fs1 : FS) (backup : FixBackup) :
  applyFix config now fixResult fs = (fs1, Returned backup) ->
  timestamp backup = now /\
  map bk_filePath (bk_files backup) = targets config (changes fixResult) /\
  (forall before c after,
      changes fixResult = before ++ c :: after ->
      changePath config c ∉ targets config before ->
      bk_files backup !! length before
        = Some (mkBackupFile (changePath config c)
                  (default "" (files fs !! changePath config c)))) /\
  locked fs1 = locked fs /\
  (forall p, p ∉ targets config (changes fixResult) -> files fs1 !! p = files fs !! p) /\
  applied config (changes fixResult) fs1.
Proof.
  intros Happly. apply applyFix_returned in Happly as (_ & -> & ->). simpl.
  split_and!; try done.
  - by destruct (applyPure_backup_app config (changes fixResult) (files fs) [])
      as (entries & -> & Hpaths & _).
  - intros before c after -> Hearlier. by apply applyPure_entry.
  - intros p Hp. by apply applyPure_lookup_other.
  - intros before c after -> Hlater. simpl. by apply applyPure_applied.
Qed.

Lemma applyFix_effect_witness :
  let run := applyFix sampleConfig 42 sampleFix sampleStore in
  exists fs1 backup,
    run = (fs1, Returned backup) /\
    timestamp backup = 42 /\
    map bk_filePath (bk_files backup) = ["/w/a.ts"; "/w/b.ts"] /\
    bk_files backup !! 0%nat = Some (mkBackupFile "/w/a.ts" "old") /\
    files fs1 !! "/w/a.ts" = Some "new" /\
    files fs1 !! "/w/b.ts" = Some "fresh".
Proof.
  pose proof (applyFix_effect sampleConfig 42 sampleFix sampleStore
                (applyFix sampleConfig 42 sampleFix sampleStore).1
                (mkFixBackup 42 [mkBackupFile "/w/a.ts" "old"; mkBackupFile "/w/b.ts" ""])
                ltac:(vm_compute; reflexivity))
    as (Htime & Hpaths & Hentry & _ & _ & Happlied).
  do 2 eexists. split; [vm_compute; reflexivity |].
  split_and!; [done | done | | |].
  - exact (Hentry [] (change "/w/a.ts" "new") [change "/w/b.ts" "fresh"] eq_refl
             ltac:(apply not_elem_of_nil)).
  - exact (Happlied [] (change "/w/a.ts" "new") [change "/w/b.ts" "fresh"] eq_refl
             ltac:(vm_compute; apply not_elem_of_cons; split;
                   [discriminate | apply not_elem_of_nil])).
  - exact (Happlied [change "/w/a.ts" "new"] (change "/w/b.ts" "fresh") [] eq_refl
             ltac:(apply not_elem_of_nil)).
Defined.



(** ** [rollbackFix] *)

Lemma restoredAt_other (p : string) (es : list BackupFile) (o : option string) :
  p ∉ map bk_filePath es -> restoredAt p es o = o.
Proof.
  revert o. induction es as [| e es IH]; intros o Hp; simpl; [done |].
  simpl in Hp. apply not_elem_of_cons in Hp as [Hne Hp].
  rewrite IH by done. by rewrite decide_False.
Qed.

Lemma restoredAt_last (before : list BackupFile) (e : BackupFile)
    (after : list BackupFile) (o : option string) :
  bk_filePath e ∉ map bk_filePath after ->
  restoredAt (bk_filePath e) (before ++ e :: after) o = restoredContent e.
Proof.
  revert o. induction before as [| b before IH]; intros o Hafter; simpl.
  - rewrite restoredAt_other by done. by rewrite decide_True.
  - by apply IH.
Qed.

Lemma rollbackOutcome_returned (fs : FS) (es : list BackupFile) :
  rollbackOutcome fs es = Returned tt -> unblockedPrefix fs es = es.
Proof.
  induction es as [| e es IH]; simpl; [done |].
  destruct (blocked fs e); [done |]. intros Hes. by rewrite IH.
Qed.

Lemma rollbackOutcome_thrown (fs : FS) (es : list BackupFile) (msg : string) :
  rollbackOutcome fs es = Thrown msg ->
  exists e, e ∈ es /\ blocked fs e = true /\ msg = rollbackError fs e.
Proof.
  induction es as [| e es IH]; simpl; [done |].
  destruct (blocked fs e) eqn:Hblocked.
  - intros [= <-]. exists e. split_and!; [apply list_elem_of_here | done | done].
  - intros Hes. destruct (IH Hes) as (e' & He' & Hrest).
    exists e'. split; [by apply list_elem_of_further | done].
Qed.

Lemma rollbackOutcome_not_diverged (fs : FS) (es : list BackupFile) :
  rollbackOutcome fs es <> Diverged.
Proof. induction es as [| e es IH]; simpl; [done |]. by destruct (blocked fs e). Qed.

(** X4 (rollbackFix).
    What [rollbackFix] does, for any backup.  When it returns, files
    outside the backup are untouched and the file of every entry holds what
    the last entry for its path says: the recorded content, or nothing when
    the recorded content is the empty string (deleting a file that is
    already gone is not an error).  It throws only at an entry with
    non-empty content whose path cannot be written, or at an entry with
    empty content whose path names a directory. *)
Theorem rollbackFix_effect (backup : FixBackup) (fs : FS) :
  match rollbackFix backup fs with
  | (fs', Returned _) =>
      locked fs' = locked fs /\
      (forall p, p ∉ map bk_filePath (bk_files backup) ->
                 files fs' !! p = files fs !! p) /\
      (forall before e after,
          bk_files backup = before ++ e :: after ->
          bk_filePath e ∉ map bk_filePath after ->
          files fs' !! bk_filePath e = restoredContent e)
  | (_, Thrown msg) =>
      exists e,
        e ∈ bk_files backup /\
        ((bk_originalContent e <> "" /\ (bk_filePath e ∈ locked fs) /\
          msg = writeError fs (bk_filePath e)) \/
         (bk_originalContent e = "" /\ (bk_filePath e ∈ directories fs) /\
          msg = "EISDIR: illegal operation on a directory, unlink '"
                +:+ bk_filePath e +:+ "'"))
  | (_, Diverged) => False
  end.
Proof.
  unfold rollbackFix. rewrite rollbackFiles_spec.
  destruct (rollbackOutcome fs (bk_files backup)) as [[] | msg |] eqn:Hout.
  - rewrite (rollbackOutcome_returned _ _ Hout). simpl. split_and!; [done | |].
    + intros p Hp. rewrite lookup_restored. by apply restoredAt_other.
    + intros before e after -> Hafter. rewrite lookup_restored. by apply restoredAt_last.
  - apply rollbackOutcome_thrown in Hout as (e & He & Hblocked & ->).
    exists e. split; [done |]. unfold blocked, rollbackError in *.
    destruct (String.eqb_spec (bk_originalContent e) "") as [Hempty | Hcontent].
    + right. apply bool_decide_eq_true in Hblocked. by split_and!.
    + left. apply bool_decide_eq_true in Hblocked. by split_and!.
  - by apply rollbackOutcome_not_diverged in Hout.
Qed.

(** A rollback of the backup that [applyFix] returned completes normally,
    whatever the changes were. *)
Lemma rollbackFix_after_applyFix (config : AgentConfig) (now : Z) (fixResult : FixResult)
    (fs fs1 : FS) (backup : FixBackup) :
  applyFix config now fixResult fs = (fs1, Returned backup) ->
  exists fs2, rollbackFix backup fs1 = (fs2, Returned tt) /\ locked fs2 = locked fs.
Proof.
  intros Happly. apply applyFix_returned in Happly as (Hfree & -> & ->).
  unfold rollbackFix. rewrite rollbackFiles_spec, rollbackOutcome_withFiles. simpl.
  destruct (rollbackOutcome fs _) as [[] | msg |] eqn:Hout.
  - by eexists.
  - apply rollbackOutcome_thrown in Hout as (e & He & Hblocked & _).
    destruct (applyPure_backup_app config (changes fixResult) (files fs) [])
      as (entries & Hbk & Hpaths & _).
    rewrite Hbk in He. simpl in He.
    assert (Hin : bk_filePath e ∈ targets config (changes fixResult)).
    { rewrite <- Hpaths. by apply list_elem_of_fmap_2. }
    unfold targets in Hin. apply list_elem_of_fmap in Hin as (c & Hc & Hcin).
    rewrite Forall_forall in Hfree.
    rewrite blocked_free in Hblocked; [done |]. rewrite Hc. by apply Hfree.
  - by apply rollbackOutcome_not_diverged in Hout.
Qed.

(** ** [generateSimpleDiff]: the changed lines *)

Lemma filter_isEdit_editsOf (origLine modLine : option string) :
  List.filter isEdit (editsOf origLine modLine) = editsOf origLine modLine.
Proof. by destruct origLine, modLine. Qed.

Lemma drop_2_app {A} (l r : list A) :
  (2 <= length l)%nat -> drop 2 (l ++ r) = drop 2 l ++ r.
Proof. intros Hlen. destruct l as [| a [| b l]]; simpl in *; [lia | lia | done]. Qed.

(** The [-] and [+] lines that the state of the loop holds. *)
Definition editsIn (st : DiffState) : list string :=
  List.filter isEdit (drop 2 (diffLines st)) ++ List.filter isEdit (hunkLines st).

Lemma diffStep_edits (origLines modLines : list string) (st : DiffState) (i : nat) :
  (2 <= length (diffLines st))%nat ->
  (2 <= length (diffLines (diffStep origLines modLines st i)))%nat /\
  editsIn (diffStep origLines modLines st i) =
    editsIn st ++ (if changedAt origLines modLines i
                   then editsOf (origLines !! i) (modLines !! i) else []).
Proof.
  intros Hlen. unfold diffStep, changedAt, editsIn.
  fold (editsOf (origLines !! i) (modLines !! i)).
  destruct (decide (origLines !! i = modLines !! i)) as [Heq | Hne].
  - rewrite (bool_decide_eq_true_2 _ Heq). cbn [negb]. rewrite app_nil_r.
    destruct (inHunk st); [| done].
    match goal with |- context [(3 <=? ?n)%nat] => destruct (3 <=? n)%nat end; simpl.
    + rewrite length_app. split; [lia |].
      rewrite drop_2_app, !List.filter_app by done. simpl.
      rewrite List.filter_app. simpl. by rewrite !app_nil_r.
    + split; [done |]. rewrite List.filter_app. simpl. by rewrite app_nil_r.
  - rewrite (bool_decide_eq_false_2 _ Hne). simpl.
    destruct (inHunk st); simpl.
    + split; [done |]. by rewrite List.filter_app, filter_isEdit_editsOf, app_assoc.
    + split; [done |]. rewrite List.filter_app, filter_isEdit_editsOf, app_assoc.
      destruct (0 <? i)%nat; [| done].
      rewrite List.filter_app. simpl. by rewrite app_nil_r.
Qed.

Lemma diffLoop_edits (origLines modLines : list string) (idx : list nat) :
  forall st,
    (2 <= length (diffLines st))%nat ->
    (2 <= length (diffLines (fold_left (diffStep origLines modLines) idx st)))%nat /\
    editsIn (fold_left (diffStep origLines modLines) idx st) =
      editsIn st ++
      concat (map (fun i => editsOf (origLines !! i) (modLines !! i))
                  (List.filter (changedAt origLines modLines) idx)).
Proof.
  induction idx as [| i idx IH]; intros st Hlen; simpl.
  - by rewrite app_nil_r.
  - destruct (diffStep_edits origLines modLines st i Hlen) as [Hlen' Hstep].
    destruct (IH _ Hlen') as [Hlen'' ->]. split; [done |].
    rewrite Hstep, <- app_assoc. by destruct (changedAt origLines modLines i).
Qed.

Lemma generateSimpleDiffLines_edits (fileName original modified : string) :
  List.filter isEdit (drop 2 (generateSimpleDiffLines fileName original modified))
    = changedLines (split_lines original) (split_lines modified).
Proof.
  unfold generateSimpleDiffLines, changedLines, changedPositions.
  set (origLines := split_lines original). set (modLines := split_lines modified).
  destruct (diffLoop_edits origLines modLines
              (seq 0 (Nat.max (length origLines) (length modLines)))
              (diffInit fileName) ltac:(simpl; lia)) as [Hlen Hedits].
  set (st := fold_left _ _ _) in *.
  unfold editsIn in Hedits. simpl in Hedits. rewrite <- Hedits.
  unfold diffFlush. destruct (0 <? length (hunkLines st))%nat eqn:Hopen.
  - by rewrite drop_2_app, List.filter_app.
  - destruct (hunkLines st); [| done]. simpl. by rewrite app_nil_r.
Qed.

(** X5 (generateSimpleDiff).
    The diff is positional and complete.  After the two header lines, the
    lines that start with [-] or [+] are, in order, those of the positions
    at which the two files differ: for such a position the line of the
    original (when it has one there) under [-], then the line of the
    modified file (when it has one there) under [+].  No changed position is
    left out, and no line of a position where the files agree is marked. *)
Theorem diff_changed_lines (fileName original modified : string) :
  List.filter isEdit (drop 2 (generateSimpleDiffLines fileName original modified))
    = changedLines (split_lines original) (split_lines modified) /\
  generateSimpleDiff fileName original modified
    = String.concat nl (generateSimpleDiffLines fileName original modified).
Proof. split; [apply generateSimpleDiffLines_edits | done]. Qed.

(** ** [generateSimpleDiff]: unchanged files *)

Lemma string_length_app (a b : string) :
  String.length (a +:+ b) = (String.length a + String.length b)%nat.
Proof. induction a as [| c a IH]; simpl; [done |]. by rewrite IH. Qed.

Lemma split_lines_cons (s : string) : exists line rest, split_lines s = line :: rest.
Proof.
  induction s as [| c s (line & rest & IH)]; simpl; [by eexists _, _ |].
  destruct (Ascii.eqb c newline); [by eexists _, _ |].
  rewrite IH. by eexists _, _.
Qed.

(** [s.split('\n').join('\n')] gives [s] back. *)
Lemma join_split_lines (s : string) : String.concat nl (split_lines s) = s.
Proof.
  induction s as [| c s IH]; [done |].
  destruct (split_lines_cons s) as (line & rest & Hs).
  cbn [split_lines]. rewrite Hs in *.
  destruct (Ascii.eqb_spec c newline) as [-> | Hc].
  - change (String.concat nl ("" :: line :: rest))
      with (String newline (String.concat nl (line :: rest))).
    by rewrite IH.
  - rewrite <- IH. by destruct rest.
Qed.

Lemma split_lines_inj (s t : string) : split_lines s = split_lines t -> s = t.
Proof.
  intros Heq. by rewrite <- (join_split_lines s), <- (join_split_lines t), Heq.
Qed.

Lemma changedPositions_same (ls : list string) : changedPositions ls ls = [].
Proof.
  unfold changedPositions. induction (seq 0 _) as [| i idx IH]; simpl; [done |].
  unfold changedAt at 1. by rewrite bool_decide_eq_true_2.
Qed.

Lemma differing_position (l1 : list string) :
  forall l2, l1 <> l2 -> exists i, l1 !! i <> l2 !! i.
Proof.
  induction l1 as [| a l1 IH]; intros [| b l2] Hne; try done; try by exists 0%nat.
  destruct (decide (a = b)) as [-> | Hab]; [| exists 0%nat; simpl; congruence].
  destruct (IH l2) as [i Hi]; [congruence |]. by exists (S i).
Qed.

Lemma changedPositions_differ (origLines modLines : list string) :
  origLines <> modLines ->
  exists i, i ∈ changedPositions origLines modLines.
Proof.
  intros Hne. destruct (differing_position _ _ Hne) as [i Hi].
  exists i. unfold changedPositions.
  apply list_elem_of_In, filter_In. split.
  - apply in_seq. split; [lia |]. simpl.
    destruct (decide (i < length origLines)%nat) as [| Ho]; [lia |].
    destruct (decide (i < length modLines)%nat) as [| Hm]; [lia |].
    rewrite !lookup_ge_None_2 in Hi by lia. done.
  - unfold changedAt. by rewrite bool_decide_eq_false_2.
Qed.

Lemma changedLines_differ (origLines modLines : list string) :
  origLines <> modLines -> changedLines origLines modLines <> [].
Proof.
  intros Hne. destruct (changedPositions_differ _ _ Hne) as [i Hi].
  unfold changedLines.
  assert (Hchanged : changedAt origLines modLines i = true).
  { unfold changedPositions in Hi. apply list_elem_of_In, filter_In in Hi. tauto. }
  apply list_elem_of_split in Hi as (l1 & l2 & ->).
  rewrite map_app, concat_app. simpl.
  unfold changedAt in Hchanged. apply negb_true_iff, bool_decide_eq_false in Hchanged.
  destruct (origLines !! i), (modLines !! i); simpl; try done;
    by intros Hnil; apply app_eq_nil in Hnil as [_ Hnil].
Qed.

(** X6 (generateSimpleDiff).
    The diff shows no hunk exactly when the two contents are the same
    string: its text is then the two header lines and nothing else. *)
Theorem diff_header_only_iff_unchanged (fileName original modified : string) :
  generateSimpleDiff fileName original modified
    = String.concat nl ["--- a/" +:+ fileName; "+++ b/" +:+ fileName]
  <-> original = modified.
Proof.
  pose proof (generateSimpleDiffLines_edits fileName original modified) as Hedits.
  destruct (generateSimpleDiffLines_hunks fileName original modified)
    as (closed & last & Hlines & Hclosed & Hlast & _).
  unfold generateSimpleDiff. rewrite Hlines in *. simpl in Hedits.
  split.
  - intros Hdiff. apply split_lines_inj.
    destruct (decide (split_lines original = split_lines modified)) as [| Hne]; [done |].
    apply changedLines_differ in Hne. rewrite <- Hedits in Hne.
    destruct (concat (map renderHunk (closed ++ last))) as [| l body]; [done |].
    apply (f_equal String.length) in Hdiff. simpl in Hdiff.
    rewrite !string_length_app in Hdiff. simpl in Hdiff.
    destruct body; simpl in Hdiff; rewrite ?string_length_app in Hdiff; simpl in Hdiff; lia.
  - intros <-. unfold changedLines in Hedits. rewrite changedPositions_same in Hedits.
    simpl in Hedits.
    destruct (closed ++ last) as [| h hs] eqn:Hhunks; [done |].
    assert (Hshape : hunkShape h).
    { assert (Hin : h ∈ closed ++ last) by (rewrite Hhunks; apply list_elem_of_here).
      apply elem_of_app in Hin as [Hin | Hin].
      - rewrite Forall_forall in Hclosed. by destruct (Hclosed h Hin).
      - rewrite Forall_forall in Hlast. by destruct (Hlast h Hin). }
    destruct Hshape as (_ & Hhas & _). simpl in Hedits.
    rewrite List.filter_app in Hedits. apply app_eq_nil in Hedits as [Hnone _].
    unfold hasEdit in Hhas. apply existsb_exists in Hhas as (l & Hl & Hedit).
    assert (Hkept : In l (List.filter isEdit h.2)) by (apply filter_In; by split).
    rewrite Hnone in Hkept. done.
Qed.

(** ** [runTests]: how a call ends *)

Lemma countEvents_procs (kind : Event -> bool) (procs : list Event) :
  (forall e, isProcessEvent e = true -> kind e = false) ->
  Forall (fun e => isProcessEvent e = true) procs ->
  countEvents kind procs = 0%nat.
Proof.
  intros Hkind. induction 1 as [| e procs He _ IH]; [done |].
  unfold countEvents in *. simpl. by rewrite (Hkind e He).
Qed.

(** Every way a call to [runTests] ends. *)
Lemma runTests_cases (config : AgentConfig) (options : RunnerOptions) (w w' : World)
    (r : Outcome TestResult) :
  runTests config options w = (w', r) ->
  env w' = env w /\ store w' = store w /\
  (exists procs,
      trace w' = procs ++ EvRunTests :: trace w /\
      Forall (fun e => isProcessEvent e = true) procs) /\
  match r with
  | Returned res =>
      runnerResponse (env w) (countEvents isRunTests (trace w)) = RunnerDone res
  | Thrown msg =>
      (opt_startServer options = true /\
       serverReady (env w) (countEvents isSpawn (trace w)) = false /\
       msg = "Dev server did not become ready at " +:+ baseUrl config +:+ " within "
             +:+ showZ 30000 +:+ "ms") \/
      runnerResponse (env w) (countEvents isRunTests (trace w)) = RunnerThrows msg
  | Diverged => False
  end.
Proof.
  unfold_runner.
  destruct (opt_startServer options); simpl.
  - destruct (serverReady (env w) (countEvents isSpawn (trace w))) eqn:Hready; simpl.
    + destruct (runnerResponse (env w) (countEvents isRunTests (trace w))) as [msg | res];
        simpl; intros [= <- <-]; simpl; (split_and!; [done | done | | by auto]);
        eexists [_; _]; (split; [done | by repeat constructor]).
    + intros [= <- <-]. simpl. split_and!; [done | done | | by left].
      eexists [_]. split; [done | by repeat constructor].
  - destruct (runnerResponse (env w) (countEvents isRunTests (trace w))) as [msg | res];
      simpl; intros [= <- <-]; simpl; (split_and!; [done | done | | by auto]);
      exists []; by split.
Qed.

(** ** [runVerificationPipeline]: what [retryCount] counts *)

Lemma regenerateTest_cases (config : AgentConfig) (input : TestGenerationInput)
    (previousTest errorMessage : string) (w w' : World)
    (r : Outcome (string + TestGenerationResult)) :
  attempt_ (regenerateTest config input previousTest errorMessage) w = (w', r) ->
  env w' = env w /\ trace w' = EvRegenerateTest :: trace w /\
  exists answer, r = Returned answer.
Proof.
  unfold attempt_, regenerateTest, callIndex, logEvent, bind, gets, modify, ret, throw; simpl.
  destruct (regenResponse (env w) _ _ _ _); intros [= <- <-]; by eauto.
Qed.

Ltac count_events :=
  rewrite ?countEvents_app;
  repeat match goal with
         | H : Forall (fun e => isProcessEvent e = true) ?procs
           |- context [countEvents ?kind ?procs] =>
             rewrite (countEvents_procs kind procs) by (done || by intros [])
         end;
  change (countEvents ?kind [?e]) with (if kind e then 1%nat else 0%nat);
  cbn [isRunTests isRegenerateTest isGenerateTest isAnalyzeScreenshots isGenerateFix].

Ltac split_five := split; [| split; [| split; [| split]]].

(** The accounting of the self-healing loop, from the retry count
    [retryCount] it starts with. *)
Lemma selfHealLoop_accounting (config : AgentConfig) (input : VerificationInput) :
  forall (budget : nat) (testGen : TestGenerationResult) (retryCount : Z) (w w' : World)
         (r : Outcome (TestGenerationResult * TestResult * Z)),
    selfHealLoop budget config input testGen retryCount w = (w', r) ->
    exists added,
      trace w' = added ++ trace w /\ env w' = env w /\
      countEvents isGenerateTest added = 0%nat /\
      countEvents isAnalyzeScreenshots added = 0%nat /\
      match r with
      | Returned (_, res, retryCount') =>
          Z.of_nat (countEvents isRunTests added)
            = retryCount' - retryCount + (if passed res then 1 else 0) /\
          Z.of_nat (countEvents isRegenerateTest added) <= retryCount' - retryCount /\
          (if passed res
           then retryCount <= retryCount' < Z.max (retryCount + 1) (retryLimit config)
           else retryCount < retryCount' <= Z.max (retryCount + 1) (retryLimit config))
      | Thrown msg =>
          exists n, countEvents isRunTests (trace w') = S n /\
                    runThrew config input w n msg
      | Diverged => True
      end.
Proof.
  induction budget as [| budget IH]; intros testGen retryCount w w' r; simpl.
  - intros [= <- <-]. exists []. by split_and!.
  - unfold bind at 1.
    destruct (runTests config _ w) as [w1 r1] eqn:Hrun.
    apply runTests_cases in Hrun as (Henv1 & _ & (procs & Htrace1 & Hprocs) & Hr1).
    assert (Hadd1 : trace w1 = (procs ++ [EvRunTests]) ++ trace w)
      by (by rewrite <- app_assoc).
    assert (Hruns1 : countEvents isRunTests (trace w1)
                     = S (countEvents isRunTests (trace w))).
    { rewrite Hadd1. count_events. lia. }
    destruct r1 as [res | msg |]; [| | done].
    2: { intros [= <- <-]. exists (procs ++ [EvRunTests]).
         split_five; [done | done | by count_events | by count_events |].
         exists (countEvents isRunTests (trace w)). split; [done |].
         destruct Hr1 as [(Hstart & Hready & ->) | Hthrew]; [left | by right].
         simpl in Hstart. by eauto. }
    destruct (passed res) eqn:Hpassed.
    { intros [= <- <-]. exists (procs ++ [EvRunTests]).
      split_five; [done | done | by count_events | by count_events |].
      rewrite Hpassed. count_events. split_and!; lia. }
    rewrite reaches_limit. destruct (retryCount + 1 >=? retryLimit config) eqn:Hstop.
    { intros [= <- <-]. exists (procs ++ [EvRunTests]).
      split_five; [done | done | by count_events | by count_events |].
      rewrite Hpassed. count_events. rewrite Z.geb_leb in Hstop.
      apply Z.leb_le in Hstop. split_and!; lia. }
    rewrite Z.geb_leb in Hstop. apply Z.leb_gt in Hstop.
    unfold bind at 1.
    destruct (attempt_ (regenerateTest config _ _ _) w1) as [w2 r2] eqn:Hregen.
    apply regenerateTest_cases in Hregen as (Henv2 & Htrace2 & [answer ->]).
    assert (Hadd2 : trace w2 = ([EvRegenerateTest] ++ procs ++ [EvRunTests]) ++ trace w).
    { rewrite Htrace2, Hadd1. by rewrite <- !app_assoc. }
    destruct answer as [msg | testGen2].
    { intros [= <- <-]. exists ([EvRegenerateTest] ++ procs ++ [EvRunTests]).
      split_five; [done | congruence | by count_events | by count_events |].
      rewrite Hpassed. count_events. split_and!; lia. }
    intros Hrest. apply IH in Hrest
      as (added & Htrace' & Henv' & Hgen & Hvis & Hr).
    exists (added ++ [EvRegenerateTest] ++ procs ++ [EvRunTests]).
    split_five.
    + by rewrite Htrace', Hadd2, <- !app_assoc.
    + congruence.
    + count_events. lia.
    + count_events. lia.
    + destruct r as [[[testGen' res'] retryCount'] | msg |]; [| | done].
      * destruct Hr as (Hruns & Hregens & Hbound). count_events.
        split_and!; [lia | lia |]. destruct (passed res'); lia.
      * destruct Hr as (n & Hn & Hthrew). exists n. split; [done |].
        unfold runThrew in *. by rewrite Henv2, Henv1 in Hthrew.
Qed.

Lemma generateTest_cases (config : AgentConfig) (input : TestGenerationInput)
    (w w' : World) (r : Outcome TestGenerationResult) :
  try_catch (generateTest config input)
    (fun msg => throw ("Test generation failed: " +:+ msg)) w = (w', r) ->
  env w' = env w /\ trace w' = EvGenerateTest :: trace w /\
  match r with
  | Returned testGen =>
      testGenResponse (env w) (countEvents isGenerateTest (trace w)) input = GenOk testGen
  | Thrown msg =>
      exists m,
        testGenResponse (env w) (countEvents isGenerateTest (trace w)) input = GenThrows m /\
        msg = "Test generation failed: " +:+ m
  | Diverged => False
  end.
Proof.
  unfold try_catch, generateTest, callIndex, logEvent, bind, gets, modify, ret, throw; simpl.
  destruct (testGenResponse (env w) _ _) eqn:Hanswer; intros [= <- <-]; by eauto.
Qed.

Lemma visualPhase_cases (config : AgentConfig) (input : VerificationInput)
    (res : TestResult) (w w' : World) (r : Outcome (option VisualReport)) :
  visualPhase config input res w = (w', r) ->
  env w' = env w /\
  trace w' = (if enableVisualAnalysis config && (0 <? length (screenshots res))%nat
              then [EvAnalyzeScreenshots] else []) ++ trace w /\
  exists visualReport, r = Returned visualReport.
Proof.
  unfold visualPhase.
  destruct (enableVisualAnalysis config && (0 <? length (screenshots res))%nat).
  - unfold try_catch, analyzeScreenshots, callIndex, logEvent, bind, gets, modify, ret, throw;
      simpl.
    destruct (visualResponse (env w) _ _ _); intros [= <- <-]; by eauto.
  - intros [= <- <-]. by eauto.
Qed.

(** X8 (runVerificationPipeline).
    What [retryCount] counts.  When [runVerificationPipeline] returns, it
    has generated one test, and the number of test executions is
    [retryCount], plus one when the last execution passed: [retryCount] is
    the number of failed executions.  The test was regenerated at most
    [retryCount] times.  [maxRetries] is a number that need not be whole,
    and [retryCount] reaches it at the next whole number at or above it: a
    run that passed has [retryCount] below the larger of 1 and that whole
    number; a run that failed has it between 1 and that bound.  The
    screenshots are analysed once when the analysis is enabled and the last
    execution left screenshots, and not at all otherwise. *)
Theorem retryCount_counts_failed_runs (config : AgentConfig) (input : VerificationInput)
    (w w' : World) (v : VerificationResult) :
  runVerificationPipeline config input w = (w', Returned v) ->
  exists added,
    trace w' = added ++ trace w /\
    countEvents isGenerateTest added = 1%nat /\
    Z.of_nat (countEvents isRunTests added)
      = retryCount v + (if overallPassed v then 1 else 0) /\
    Z.of_nat (countEvents isRegenerateTest added) <= retryCount v /\
    countEvents isAnalyzeScreenshots added
      = (if enableVisualAnalysis config
            && (0 <? length (screenshots (testResult v)))%nat
         then 1%nat else 0%nat) /\
    (if overallPassed v
     then 0 <= retryCount v < Z.max 1 (retryLimit config)
     else 1 <= retryCount v <= Z.max 1 (retryLimit config)).
Proof.
  unfold runVerificationPipeline, cleanTestResults.
  unfold bind at 1, ret at 1. unfold bind at 1.
  destruct (try_catch (generateTest config (testInput input)) _ w)
    as [w1 r1] eqn:Hgen.
  apply generateTest_cases in Hgen as (Henv1 & Htrace1 & Hr1).
  destruct r1 as [testGen | msg |]; [| done | done].
  unfold bind at 1.
  destruct (selfHealLoop _ config input testGen 0 w1) as [w2 r2] eqn:Hloop.
  apply selfHealLoop_accounting in Hloop as (added & Htrace2 & Henv2 & Hgen2 & Hvis2 & Hr2).
  destruct r2 as [[[testGen2 res] retryCount2] | msg |]; [| done | done].
  unfold bind at 1.
  destruct (visualPhase config input res w2) as [w3 r3] eqn:Hvisual.
  apply visualPhase_cases in Hvisual as (Henv3 & Htrace3 & [visualReport ->]).
  unfold ret. intros [= <- <-]. simpl.
  destruct Hr2 as (Hruns & Hregens & Hbound). rewrite Z.sub_0_r in *.
  set (visual := if enableVisualAnalysis config && (0 <? length (screenshots res))%nat
                 then [EvAnalyzeScreenshots] else []) in *.
  assert (Hvisual : forall kind, kind EvAnalyzeScreenshots = false ->
                                 countEvents kind visual = 0%nat).
  { intros kind Hkind. unfold visual. destruct (_ && _); [| done].
    unfold countEvents. simpl. by rewrite Hkind. }
  exists (visual ++ added ++ [EvGenerateTest]).
  split_and!.
  - by rewrite Htrace3, Htrace2, Htrace1, <- !app_assoc.
  - count_events. rewrite Hvisual by done. lia.
  - count_events. rewrite Hvisual by done. lia.
  - count_events. rewrite Hvisual by done. lia.
  - count_events. rewrite Hvis2. unfold visual. by destruct (_ && _).
  - simpl in Hbound. destruct (passed res); lia.
Qed.

Lemma retryCount_counts_failed_runs_witness :
  let w := startWorld scenarioEnv sampleStore in
  let w' := (runVerificationPipeline sampleConfig scenarioVerification w).1 in
  exists added,
    trace w' = added ++ trace w /\
    countEvents isGenerateTest added = 1%nat /\
    Z.of_nat (countEvents isRunTests added)
      = retryCount scenarioVerdict + (if overallPassed scenarioVerdict then 1 else 0) /\
    Z.of_nat (countEvents isRegenerateTest added) <= retryCount scenarioVerdict /\
    countEvents isAnalyzeScreenshots added
      = (if enableVisualAnalysis sampleConfig
            && (0 <? length (screenshots (testResult scenarioVerdict)))%nat
         then 1%nat else 0%nat) /\
    (if overallPassed scenarioVerdict
     then 0 <= retryCount scenarioVerdict < Z.max 1 (retryLimit sampleConfig)
     else 1 <= retryCount scenarioVerdict <= Z.max 1 (retryLimit sampleConfig)).
Proof.
  apply (retryCount_counts_failed_runs sampleConfig scenarioVerification
           (startWorld scenarioEnv sampleStore)).
  vm_compute. reflexivity.
Defined.


(** ** [runFixAndVerifyPipeline]: the attempts of a run *)

Lemma World_eta (w : World) : mkWorld (env w) (store w) (running w) (trace w) = w.
Proof. by destruct w. Qed.

Lemma generateFix_cases (config : AgentConfig) (relevant : list RelevantFile)
    (previousAttempt : option (FixResult * string)) (w w' : World)
    (r : Outcome (string + FixResult)) :
  attempt_ (generateFix config relevant previousAttempt) w = (w', r) ->
  store w' = store w /\ exists answer, r = Returned answer.
Proof.
  intros Hrun. pose proof (generateFix_spec config relevant previousAttempt w) as Hspec.
  unfold wp in Hspec. unfold attempt_ in Hrun.
  destruct (generateFix config relevant previousAttempt w) as [w1 [a | msg |]];
    destruct Hspec as (Hstore & _ & _ & Hnd); [| | done];
    injection Hrun as <- <-; by eauto.
Qed.

Lemma verification_cases (config : AgentConfig) (input : VerificationInput)
    (w w' : World) (r : Outcome (string + VerificationResult)) :
  attempt_ (runVerificationPipeline config input) w = (w', r) ->
  store w' = store w /\ exists answer, r = Returned answer.
Proof.
  intros Hrun. pose proof (runVerificationPipeline_spec config input w) as Hspec.
  unfold wp in Hspec. unfold attempt_ in Hrun.
  destruct (runVerificationPipeline config input w) as [w1 [a | msg |]];
    destruct Hspec as (Hstore & _ & Hnd & _); [| | done];
    injection Hrun as <- <-; by eauto.
Qed.

Lemma applyChanges_locked (config : AgentConfig) (cs : list FileChange) :
  forall backup fs, locked (applyChanges config cs backup fs).1 = locked fs.
Proof.
  induction cs as [| c cs IH]; intros backup fs; [done |].
  rewrite applyChanges_cons.
  destruct (decide (changePath config c ∈ locked fs)); [done |]. by rewrite IH.
Qed.

Lemma applyFix_locked (config : AgentConfig) (now : Z) (fixResult : FixResult) (fs : FS) :
  locked (applyFix config now fixResult fs).1 = locked fs.
Proof.
  unfold applyFix, bind.
  pose proof (applyChanges_locked config (changes fixResult) [] fs) as Hlocked.
  by destruct (applyChanges config (changes fixResult) [] fs) as [fs1 [b | msg |]].
Qed.

Lemma applyFix_applied (config : AgentConfig) (now : Z) (fixResult : FixResult)
    (fs fs1 : FS) (backup : FixBackup) :
  applyFix config now fixResult fs = (fs1, Returned backup) ->
  applied config (changes fixResult) fs1.
Proof.
  intros Happly. apply applyFix_returned in Happly as (_ & -> & _).
  intros before c after -> Hlater. simpl. by apply applyPure_applied.
Qed.

(** Every way a run of the attempt loop ends: it returns, and the attempts
    it added are failed attempts, followed in a successful run by the
    attempt whose fix is then on disk. *)
Lemma attemptLoop_outcome (config : AgentConfig) (input : FixAndVerifyInput)
    (relevant : list RelevantFile) (ctx : option CodebaseContext) :
  forall (remaining : nat) (attempt : Z) (previousAttempt : option (FixResult * string))
         (acc : list FixAttempt) (w w' : World) (r : Outcome FixAndVerifyResult),
    attemptLoop remaining config input relevant ctx attempt previousAttempt acc w = (w', r) ->
    exists res news,
      r = Returned res /\
      locked (store w') = locked (store w) /\
      attempts res = acc ++ news /\
      relevantFiles res = relevant /\ codebaseContext res = ctx /\
      if succeeded res
      then exists olds a fix' v,
             news = olds ++ [a] /\ Forall attemptFailed olds /\
             fix_ a = fix' /\ verification a = Some v /\ error a = None /\
             overallPassed v = true /\
             finalFix res = Some fix' /\ finalVerification res = Some v /\
             applied config (changes fix') (store w')
      else Forall attemptFailed news /\ length news = remaining /\
           finalFix res = None /\ finalVerification res = None.
Proof.
  induction remaining as [| remaining IH];
    intros attempt previousAttempt acc w w' r; simpl.
  - intros [= <- <-]. exists (mkResult false acc None None relevant ctx), [].
    rewrite app_nil_r. by split_and!.
  - assert (Hcontinue : forall prev a w1,
              locked (store w1) = locked (store w) ->
              attemptFailed a ->
              attemptLoop remaining config input relevant ctx (attempt + 1) prev
                (acc ++ [a]) w1 = (w', r) ->
              exists res news,
                r = Returned res /\
                locked (store w') = locked (store w) /\
                attempts res = acc ++ news /\
                relevantFiles res = relevant /\ codebaseContext res = ctx /\
                if succeeded res
                then exists olds a fix' v,
                       news = olds ++ [a] /\ Forall attemptFailed olds /\
                       fix_ a = fix' /\ verification a = Some v /\ error a = None /\
                       overallPassed v = true /\
                       finalFix res = Some fix' /\ finalVerification res = Some v /\
                       applied config (changes fix') (store w')
                else Forall attemptFailed news /\ length news = S remaining /\
                     finalFix res = None /\ finalVerification res = None).
    { intros prev a w1 Hlocked Ha Hrest.
      apply IH in Hrest as (res & news & -> & Hlocked' & Hatt & Hrel & Hctx & Hshape).
      exists res, (a :: news). split_and!; try done.
      - congruence.
      - by rewrite Hatt, <- app_assoc.
      - destruct (succeeded res).
        + destruct Hshape as (olds & a' & fix' & v & -> & Holds & Hrest).
          exists (a :: olds), a', fix', v. split_and!; try tauto. by constructor.
        + destruct Hshape as (Hall & Hlen & Hnone).
          split_and!; try tauto; [by constructor | simpl; lia]. }
    unfold bind at 1.
    destruct (attempt_ (generateFix config relevant previousAttempt) w) as [w1 r1] eqn:Hgen.
    apply generateFix_cases in Hgen as (Hstore1 & [generated ->]).
    destruct generated as [msg | fix'].
    { apply Hcontinue; [congruence |]. unfold attemptFailed. simpl. left. by exists msg. }
    unfold bind at 1, gets at 1. unfold bind at 1.
    unfold attempt_ at 1, liftStore at 1.
    destruct (applyFix config _ fix' (store w1)) as [fs2 r2] eqn:Happly.
    pose proof (applyFix_locked config (dateNow (env w1) (length (trace w1))) fix'
                  (store w1)) as Hlocked2.
    rewrite Happly in Hlocked2. simpl in Hlocked2.
    destruct r2 as [backup | msg |].
    3: { by destruct (applyFix_terminates config (dateNow (env w1) (length (trace w1)))
                        fix' (store w1)); rewrite Happly. }
    2: { apply Hcontinue; [simpl; congruence |].
         unfold attemptFailed. simpl. right. left. by exists msg. }
    unfold bind at 1.
    destruct (attempt_ (runVerificationPipeline config _) _) as [w3 r3] eqn:Hverify.
    apply verification_cases in Hverify as (Hstore3 & [verified ->]). simpl in Hstore3.
    destruct (rollbackFix_after_applyFix _ _ _ _ _ _ Happly) as (fs4 & Hroll & Hlocked4).
    assert (Hrollback : liftStore (rollbackFix backup) w3
                        = (mkWorld (env w3) fs4 (running w3) (trace w3), Returned tt)).
    { unfold liftStore. by rewrite Hstore3, Hroll. }
    destruct verified as [msg | verification].
    { unfold bind at 1. rewrite Hrollback.
      apply Hcontinue; [simpl; congruence |].
      unfold attemptFailed. simpl. right. right. by exists msg. }
    destruct (overallPassed verification) eqn:Hpassed.
    { intros [= <- <-]. eexists _, [_]. split; [done |]. simpl.
      split_and!; try done; [congruence |].
      eexists [], _, fix', verification. split_and!; try done.
      rewrite Hstore3. by eapply applyFix_applied. }
    unfold bind at 1. rewrite Hrollback.
    apply Hcontinue; [simpl; congruence |].
    unfold attemptFailed. by simpl.
Qed.

(** The start of a run: the context file is read, the relevant files are
    selected, and the loop over the attempts begins, unless one of the
    first two throws. *)
Lemma pipeline_start (config : AgentConfig) (input : FixAndVerifyInput) (w : World) :
  runFixAndVerifyPipeline config input w =
    match readCodebaseContext config (store w) with
    | (_, Returned ctx) =>
        match analyzeRelevantFiles config (suggestResponse (env w))
                (in_hintFiles input) (store w) with
        | (_, Returned relevant) =>
            attemptLoop (Z.to_nat (attemptLimit config)) config input relevant ctx 1
              None [] w
        | (_, Thrown msg) => (w, Thrown msg)
        | (_, Diverged) => (w, Diverged)
        end
    | (_, Thrown msg) => (w, Thrown msg)
    | (_, Diverged) => (w, Diverged)
    end.
Proof.
  unfold runFixAndVerifyPipeline, bind, liftStore, gets.
  destruct (firstExisting_reads (contextCandidates config) (store w)) as [Hfs1 _].
  unfold contextCandidates in Hfs1. unfold readCodebaseContext.
  match goal with
  | |- context [firstExisting ?cands (store w)] =>
      destruct (firstExisting cands (store w)) as [fs1 r1]
  end.
  simpl in Hfs1. subst fs1. rewrite World_eta.
  destruct r1 as [ctx | msg |]; [| done | done]. simpl.
  destruct (analyzeRelevantFiles_reads config (suggestResponse (env w))
              (in_hintFiles input) (store w)) as [Hfs2 _].
  destruct (analyzeRelevantFiles _ _ _ _) as [fs2 r2]. simpl in Hfs2. subst fs2.
  rewrite World_eta. by destruct r2.
Qed.


Lemma pipeline_returned (config : AgentConfig) (input : FixAndVerifyInput)
    (w w' : World) (res : FixAndVerifyResult) :
  runFixAndVerifyPipeline config input w = (w', Returned res) ->
  exists relevant ctx,
    attemptLoop (Z.to_nat (attemptLimit config)) config input relevant ctx 1 None [] w
      = (w', Returned res).
Proof.
  rewrite pipeline_start.
  destruct (readCodebaseContext config (store w)) as [fs1 [ctx | msg |]]; [| done | done].
  destruct (analyzeRelevantFiles _ _ _ _) as [fs2 [relevant | msg |]]; [| done | done].
  intros Hloop. by exists relevant, ctx.
Qed.

(** X11 (runFixAndVerifyPipeline).
    A run that reports failure has used its whole budget: it recorded as
    many attempts as there are whole numbers from 1 up to [maxRetries]
    (none when [maxRetries] is below 1), each of them a failed attempt -- a
    verification that ran and did not pass, or the error of the phase that
    threw -- and it names no final fix and no final verification. *)
Theorem failed_run_uses_every_attempt (config : AgentConfig) (input : FixAndVerifyInput)
    (w w' : World) (res : FixAndVerifyResult) :
  runFixAndVerifyPipeline config input w = (w', Returned res) ->
  succeeded res = false ->
  length (attempts res) = Z.to_nat (attemptLimit config) /\
  Forall attemptFailed (attempts res) /\
  finalFix res = None /\ finalVerification res = None.
Proof.
  intros Hrun Hfailed. apply pipeline_returned in Hrun as (relevant & ctx & Hloop).
  apply attemptLoop_outcome in Hloop as (res' & news & [= <-] & _ & Hatt & _ & _ & Hshape).
  rewrite Hfailed in Hshape. simpl in Hatt. rewrite Hatt. tauto.
Qed.

Lemma failed_run_uses_every_attempt_witness :
  let run := runFixAndVerifyPipeline sampleConfig sampleInput
               (startWorld failingEnv sampleStore) in
  let res := resultOf run.2 in
  length (attempts res) = 3%nat /\
  Forall attemptFailed (attempts res) /\
  finalFix res = None /\ finalVerification res = None.
Proof.
  refine (failed_run_uses_every_attempt sampleConfig sampleInput
            (startWorld failingEnv sampleStore) _ _ _ _).
  - vm_compute. reflexivity.
  - vm_compute. reflexivity.
Defined.




(** ** The one budget of both loops *)

(** *** A run in which every test fails *)

Section Exhausted.

Variable config : AgentConfig.
Variable e : Env.

Hypothesis Hgenerated :
  forall n request, exists test, testGenResponse e n request = GenOk test.
Hypothesis Hregenerated :
  forall n request previousTest errorMessage,
    exists test, regenResponse e n request previousTest errorMessage = GenOk test.
Hypothesis Hfailing :
  forall n, exists res, runnerResponse e n = RunnerDone res /\ passed res = false.






End Exhausted.

(** *** The attempts of such a run *)






(** *** The claim *)


(** The run of the counterexample is one in which every test fails. *)
Example failing_run_exhausts_budget :
  let config := numberConfig (21 # 10) in
  let w := startWorld failingEnv sampleStore in
  everyTestFails config sampleInput w /\
  testsPerAttempt (trace (runFixAndVerifyPipeline config sampleInput w).1) = [3; 3]%nat.
Proof.
  split; [| by vm_compute].
  split_and!; try (intros; simpl; by eauto).
  intros n prev. simpl. split; [apply NoDup_singleton |].
  constructor; [| constructor]. split; [by vm_compute; set_solver | by vm_compute].
Qed.


(** ** [escapeHtml] *)

Lemma string_app_assoc (a b c : string) : (a +:+ b) +:+ c = a +:+ (b +:+ c).
Proof.
  induction a as [| x a IH]; [done |].
  change (String x ((a +:+ b) +:+ c) = String x (a +:+ (b +:+ c))). by f_equal.
Qed.

Lemma string_app_nil_r (a : string) : a +:+ "" = a.
Proof.
  induction a as [| x a IH]; [done |].
  change (String x (a +:+ "") = String x a). by f_equal.
Qed.

Lemma replaceAll_app (c : ascii) (r a b : string) :
  replaceAll c r (a +:+ b) = replaceAll c r a +:+ replaceAll c r b.
Proof.
  induction a as [| x a IH]; [done |].
  change (String x a +:+ b) with (String x (a +:+ b)). cbn [replaceAll].
  rewrite IH. destruct (Ascii.eqb x c); [| done].
  by rewrite string_app_assoc.
Qed.

(** Case analysis on a character: one of the five that are replaced, or
    none of them. *)
Ltac classify a :=
  unfold escapeChar, special;
  destruct (Ascii.eqb_spec a "&") as [-> | ?];
  [| destruct (Ascii.eqb_spec a "<") as [-> | ?];
     [| destruct (Ascii.eqb_spec a ">") as [-> | ?];
        [| destruct (Ascii.eqb_spec a doubleQuote) as [-> | ?];
           [| destruct (Ascii.eqb_spec a "'") as [-> | ?]]]]].

Lemma escapeHtml_cons (a : ascii) (text : string) :
  escapeHtml (String a text) = escapeChar a +:+ escapeHtml text.
Proof.
  unfold escapeHtml. classify a; simpl; try done.
  repeat match goal with
         | H : a <> ?c |- context [Ascii.eqb a ?c] =>
             rewrite (proj2 (Ascii.eqb_neq a c) H); simpl
         end.
  done.
Qed.

Lemma escapeHtml_app (a b : string) :
  escapeHtml (a +:+ b) = escapeHtml a +:+ escapeHtml b.
Proof. unfold escapeHtml. by rewrite !replaceAll_app. Qed.

Lemma list_ascii_app (a b : string) :
  list_ascii_of_string (a +:+ b) = list_ascii_of_string a ++ list_ascii_of_string b.
Proof.
  induction a as [| x a IH]; [done |].
  change (x :: list_ascii_of_string (a +:+ b)
          = x :: (list_ascii_of_string a ++ list_ascii_of_string b)).
  by f_equal.
Qed.

Lemma escapeChar_piece (a : ascii) : escapedPiece (escapeChar a).
Proof.
  unfold escapedPiece, entities.
  classify a; try (left; set_solver).
  right. exists a. split; [done |].
  unfold special.
  repeat match goal with
         | H : a <> ?c |- context [Ascii.eqb a ?c] =>
             rewrite (proj2 (Ascii.eqb_neq a c) H)
         end.
  done.
Qed.

Lemma escapeChar_chars (a x : ascii) :
  In x (list_ascii_of_string (escapeChar a)) -> special x = false \/ x = "&"%char.
Proof.
  classify a; simpl; try (intros Hin; repeat destruct Hin as [<- | Hin]; by auto).
  intros [<- | []]. left. unfold special.
  repeat match goal with
         | H : a <> ?c |- context [Ascii.eqb a ?c] =>
             rewrite (proj2 (Ascii.eqb_neq a c) H)
         end.
  done.
Qed.

(** X14 (escapeHtml).
    The output of [escapeHtml] is inert markup.  It is a sequence of
    pieces, each one of the five entities or a character that needs no
    escaping; so none of [<], [>], the double quote and the single quote
    occurs in it, and every [&] in it opens an entity. *)
Theorem escapeHtml_safe (text : string) :
  (exists pieces,
      escapeHtml text = String.concat "" pieces /\ Forall escapedPiece pieces) /\
  (forall x, In x (list_ascii_of_string (escapeHtml text)) ->
             x <> "<"%char /\ x <> ">"%char /\ x <> doubleQuote /\ x <> "'"%char).
Proof.
  split.
  - induction text as [| a text (pieces & IH & Hpieces)].
    + by exists [].
    + exists (escapeChar a :: pieces). rewrite escapeHtml_cons, IH. split.
      * destruct pieces; [apply string_app_nil_r | done].
      * constructor; [apply escapeChar_piece | done].
  - induction text as [| a text IH]; [done |].
    intros x. rewrite escapeHtml_cons, list_ascii_app, in_app_iff.
    intros [Hx | Hx]; [| by apply IH].
    apply escapeChar_chars in Hx as [Hx | ->]; [| by split_and!].
    unfold special in Hx. repeat (apply orb_false_iff in Hx as [Hx ?]).
    split_and!; by apply Ascii.eqb_neq.
Qed.

Lemma escapeChar_prefix_free (a b : ascii) (x y : string) :
  escapeChar a +:+ x = escapeChar b +:+ y -> a = b /\ x = y.
Proof.
  classify a; classify b; simpl; intros Heq; try by (injection Heq; auto).
  all: try (by injection Heq; intros; subst).
Qed.

Lemma escapeChar_not_empty (a : ascii) (x : string) : escapeChar a +:+ x <> "".
Proof. classify a; done. Qed.

(** X15 (escapeHtml).
    [escapeHtml] loses nothing: two texts with the same escaped form are
    the same text. *)
Theorem escapeHtml_injective (text1 text2 : string) :
  escapeHtml text1 = escapeHtml text2 <-> text1 = text2.
Proof.
  split; [| by intros ->].
  revert text2. induction text1 as [| a text1 IH]; intros [| b text2].
  - done.
  - rewrite escapeHtml_cons. intros Heq. symmetry in Heq.
    by apply escapeChar_not_empty in Heq.
  - rewrite escapeHtml_cons. intros Heq. by apply escapeChar_not_empty in Heq.
  - rewrite !escapeHtml_cons. intros Heq.
    apply escapeChar_prefix_free in Heq as [-> Heq]. f_equal. by apply IH.
Qed.

(** X16 (escapeHtml).
    [escapeHtml] works character by character: escaping a concatenation is
    concatenating the escaped parts, whatever the parts are, so text that
    is escaped piece by piece is escaped as a whole; and a single character
    is replaced by its entity or left alone.  In particular the ampersand
    of an entity that an earlier replacement wrote is not escaped again by
    a later one. *)
Theorem escapeHtml_concat (pieces : list string) :
  escapeHtml (fold_right String.append "" pieces)
    = fold_right String.append "" (map escapeHtml pieces) /\
  (forall a, escapeHtml (String a "") = escapeChar a).
Proof.
  split.
  - induction pieces as [| piece pieces IH]; [done |].
    simpl. by rewrite escapeHtml_app, IH.
  - intros a. rewrite escapeHtml_cons. apply string_app_nil_r.
Qed.

(** ** [generateTestName] *)

Lemma dashRuns_chars (s : list N) :
  forall inRun,
    Forall (fun c => isLowerOrDigit c || isWhiteSpace c = true) s ->
    Forall (fun c => isLowerOrDigit c = true \/ c = dash) (dashRuns inRun s).
Proof.
  induction s as [| c s IH]; intros inRun Hs; simpl; [done |].
  apply Forall_cons in Hs as [Hc Hs].
  destruct (isWhiteSpace c) eqn:Hspace.
  - destruct inRun; [by apply IH |]. constructor; [by right | by apply IH].
  - constructor; [| by apply IH]. left. by rewrite orb_false_r in Hc.
Qed.

(** In text without dashes, [dashRuns] writes no two dashes in a row, and
    none at the start when the text continues a run of white space. *)
Lemma dashRuns_no_double (s : list N) :
  forall inRun,
    Forall (fun c => c <> dash) s ->
    (inRun = true -> head (dashRuns inRun s) <> Some dash) /\
    (forall i, dashRuns inRun s !! i = Some dash ->
               dashRuns inRun s !! S i <> Some dash).
Proof.
  induction s as [| c s IH]; intros inRun Hs; simpl; [done |].
  apply Forall_cons in Hs as [Hc Hs].
  destruct (IH true Hs) as [Hhead_run Hrun].
  destruct (IH false Hs) as [_ Hplain].
  destruct (isWhiteSpace c) eqn:Hspace.
  - destruct inRun; [by split |]. split; [done |].
    intros [| i]; simpl; [| by apply Hrun].
    intros _. specialize (Hhead_run eq_refl).
    by destruct (dashRuns true s).
  - split; [intros _; simpl; congruence |].
    intros [| i]; simpl; [congruence | by apply Hplain].
Qed.

Lemma isWhiteSpace_dash : isWhiteSpace dash = false.
Proof. done. Qed.

Lemma isLowerOrDigit_dash : isLowerOrDigit dash = false.
Proof. done. Qed.

(** X17 (generateTestName).
    The name of a generated test is a safe file-name stem.  It is the
    prefix [fix-verification-] followed by at most 50 code units, each a
    lower-case ASCII letter, a digit or a dash (so no path separator, no
    dot, nothing a shell would expand), and a dash in that part is never
    followed by another dash: dashes typed in the description are dropped,
    and a run of white space gives a single dash. *)
Theorem generateTestName_shape (toLowerCase : list N -> list N)
    (bugDescription : list N) :
  exists stem,
    generateTestName toLowerCase bugDescription = ofAscii "fix-verification-" ++ stem /\
    (length stem <= 50)%nat /\
    Forall (fun c => isLowerOrDigit c = true \/ c = dash) stem /\
    (forall i, stem !! i = Some dash -> stem !! S i <> Some dash).
Proof.
  unfold generateTestName.
  set (kept := List.filter _ (toLowerCase bugDescription)).
  assert (Hkept : Forall (fun c => isLowerOrDigit c || isWhiteSpace c = true) kept).
  { apply Forall_forall. intros c Hc. apply list_elem_of_In, filter_In in Hc. tauto. }
  assert (Hnodash : Forall (fun c => c <> dash) kept).
  { eapply Forall_impl; [exact Hkept |]. intros c Hc ->. done. }
  eexists. split; [done |]. split_and!.
  - rewrite length_take. lia.
  - apply Forall_take. by apply dashRuns_chars.
  - intros i Hi. destruct (dashRuns_no_double kept false Hnodash) as [_ Hrun].
    apply lookup_take_Some in Hi as [Hi Hlt].
    intros Hnext. apply lookup_take_Some in Hnext as [Hnext _].
    by apply (Hrun i).
Qed.

(** ** The typed file list *)

Lemma trimStart_head (s : list N) (c : N) :
  head (trimStart s) = Some c -> isWhiteSpace c = false.
Proof.
  induction s as [| x s IH]; simpl; [done |].
  destruct (isWhiteSpace x) eqn:Hx; [done |]. simpl. by intros [= <-].
Qed.

Lemma trimStart_suffix (s : list N) : exists pad, s = pad ++ trimStart s.
Proof.
  induction s as [| x s [pad IH]]; simpl; [by exists [] |].
  destruct (isWhiteSpace x); [| by exists []].
  exists (x :: pad). simpl. by f_equal.
Qed.

Lemma trimStart_plain (s : list N) :
  (forall c, head s = Some c -> isWhiteSpace c = false) -> trimStart s = s.
Proof.
  destruct s as [| x s]; simpl; [done |]. intros Hhead.
  by rewrite (Hhead x eq_refl).
Qed.

Lemma trimStart_pad (pad s : list N) :
  Forall (fun c => isWhiteSpace c = true) pad -> trimStart (pad ++ s) = trimStart s.
Proof. induction 1 as [| c pad Hc _ IH]; simpl; [done |]. by rewrite Hc. Qed.

Lemma head_rev (s : list N) : head (rev s) = last s.
Proof.
  induction s as [| x s IH] using rev_ind; [done |].
  by rewrite rev_unit, last_snoc.
Qed.

Lemma last_rev (s : list N) : last (rev s) = head s.
Proof. by rewrite <- head_rev, rev_involutive. Qed.

Lemma trimEnd_plain (s : list N) :
  (forall c, last s = Some c -> isWhiteSpace c = false) -> trimEnd s = s.
Proof.
  intros Hlast. unfold trimEnd. rewrite trimStart_plain; [apply rev_involutive |].
  intros c. rewrite head_rev. apply Hlast.
Qed.

Lemma trim_plain (pad name : list N) :
  Forall (fun c => isWhiteSpace c = true) pad -> plainName name ->
  trim (pad ++ name) = name.
Proof.
  intros Hpad (_ & _ & Hhead & Hlast). unfold trim.
  rewrite trimStart_pad, trimStart_plain by done. by apply trimEnd_plain.
Qed.

(** What [trim] returns starts and ends with a unit that is not white
    space, and is a part of what it was given. *)
Lemma trim_spec (s : list N) :
  (forall c, head (trim s) = Some c -> isWhiteSpace c = false) /\
  (forall c, last (trim s) = Some c -> isWhiteSpace c = false) /\
  exists before after, s = before ++ trim s ++ after.
Proof.
  unfold trim, trimEnd.
  set (t := trimStart s).
  destruct (trimStart_suffix s) as [pad Hpad]. fold t in Hpad.
  destruct (trimStart_suffix (rev t)) as [pad' Hpad'].
  assert (Ht : t = rev (trimStart (rev t)) ++ rev pad').
  { rewrite <- (rev_involutive t) at 1. rewrite Hpad' at 1. by rewrite rev_app_distr. }
  split_and!.
  - intros c Hc. destruct (trimStart (rev t)) as [| y ys] eqn:Hys using rev_ind;
      [done |]. clear IHys.
    rewrite rev_unit in Hc, Ht. simpl in Hc. injection Hc as ->.
    apply (trimStart_head s). fold t. by rewrite Ht.
  - intros c. rewrite last_rev. apply trimStart_head.
  - exists pad, (rev pad'). by rewrite <- Ht.
Qed.

Lemma splitOn_cons (sep : N) (s : list N) :
  exists piece pieces, splitOn sep s = piece :: pieces.
Proof.
  induction s as [| c s (piece & pieces & IH)]; simpl; [by eexists _, _ |].
  destruct (c =? sep)%N; [by eexists _, _ |]. rewrite IH. by eexists _, _.
Qed.

Lemma splitOn_pieces (sep : N) (s : list N) :
  Forall (fun piece => sep ∉ piece) (splitOn sep s).
Proof.
  induction s as [| c s IH]; simpl.
  - constructor; [apply not_elem_of_nil | done].
  - destruct (N.eqb_spec c sep) as [-> | Hc].
    + constructor; [apply not_elem_of_nil | done].
    + destruct (splitOn sep s) as [| piece pieces]; simpl.
      * constructor; [| done]. by apply not_elem_of_cons; split; [| apply not_elem_of_nil].
      * apply Forall_cons in IH as [Hpiece Hpieces].
        constructor; [| done]. by apply not_elem_of_cons.
Qed.

Lemma splitOn_app (sep : N) (name rest : list N) :
  sep ∉ name -> splitOn sep (name ++ sep :: rest) = name :: splitOn sep rest.
Proof.
  induction name as [| c name IH]; intros Hname; simpl.
  - by rewrite N.eqb_refl.
  - apply not_elem_of_cons in Hname as [Hc Hname].
    rewrite (proj2 (N.eqb_neq c sep)) by done. by rewrite IH.
Qed.

Lemma splitOn_plain (sep : N) (name : list N) : sep ∉ name -> splitOn sep name = [name].
Proof.
  induction name as [| c name IH]; intros Hname; simpl; [done |].
  apply not_elem_of_cons in Hname as [Hc Hname].
  rewrite (proj2 (N.eqb_neq c sep)) by done. by rewrite IH.
Qed.

Lemma whiteSpace_not_comma (pad : list N) :
  Forall (fun c => isWhiteSpace c = true) pad -> comma ∉ pad.
Proof.
  intros Hpad Hin. rewrite Forall_forall in Hpad. by specialize (Hpad comma Hin).
Qed.

(** X18 (fixAndVerifyCommand, parseArgs).
    Every path read from the input box is a plain name: not empty, free
    of commas and of white space at its ends.  Empty items (two commas in
    a row, a trailing comma, blank input) are dropped. *)
Theorem parseFileList_plain (input : list N) :
  Forall plainName (parseFileList input).
Proof.
  unfold parseFileList. apply Forall_forall. intros name Hname.
  apply list_elem_of_In, filter_In in Hname as [Hin Hfull].
  apply in_map_iff in Hin as (piece & <- & Hpiece).
  pose proof (splitOn_pieces comma input) as Hpieces.
  rewrite Forall_forall in Hpieces. apply list_elem_of_In in Hpiece.
  specialize (Hpieces piece Hpiece).
  destruct (trim_spec piece) as (Hhead & Hlast & before & after & Hpart).
  split_and!; try done.
  - by destruct (trim piece).
  - intros Hcomma. apply Hpieces. rewrite Hpart.
    apply elem_of_app. right. apply elem_of_app. by left.
Qed.

Lemma parseFileList_join (pad0 pad : list N) (names : list (list N)) :
  Forall (fun c => isWhiteSpace c = true) pad0 ->
  Forall (fun c => isWhiteSpace c = true) pad ->
  Forall plainName names -> names <> [] ->
  map trim (splitOn comma (pad0 ++ joinWith (comma :: pad) names)) = names.
Proof.
  intros Hpad0 Hpad Hnames. revert pad0 Hpad0.
  induction Hnames as [| name names Hname Hnames IH]; intros pad0 Hpad0 Hne; [done |].
  assert (Hfree : comma ∉ pad0 ++ name).
  { intros Hin. apply elem_of_app in Hin as [Hin | Hin].
    - by apply (whiteSpace_not_comma pad0).
    - by destruct Hname as (_ & Hcomma & _). }
  destruct names as [| name' names].
  - simpl. rewrite splitOn_plain by done. simpl. by rewrite trim_plain.
  - change (joinWith (comma :: pad) (name :: name' :: names))
      with (name ++ (comma :: pad) ++ joinWith (comma :: pad) (name' :: names)).
    rewrite app_assoc. simpl. rewrite splitOn_app by done. simpl.
    rewrite trim_plain by done. f_equal. by apply IH.
Qed.

(** X19 (fixAndVerifyCommand, parseArgs).
    Reading back a list that was typed the usual way.  For plain names,
    joined by a comma that may be followed by white space, the parsed list
    is the list of the names, in order. *)
Theorem parseFileList_round_trip (pad : list N) (names : list (list N)) :
  Forall (fun c => isWhiteSpace c = true) pad ->
  Forall plainName names ->
  parseFileList (joinWith (comma :: pad) names) = names.
Proof.
  intros Hpad Hnames. unfold parseFileList.
  destruct names as [| name names]; [done |].
  change (joinWith (comma :: pad) (name :: names))
    with ([] ++ joinWith (comma :: pad) (name :: names)).
  rewrite (parseFileList_join [] pad (name :: names)) by done.
  apply forallb_filter_id, forallb_forall. intros n Hn.
  rewrite Forall_forall in Hnames. apply list_elem_of_In in Hn.
  destruct (Hnames n Hn) as (Hfull & _). by destruct n.
Qed.

Lemma parseFileList_round_trip_witness :
  parseFileList (joinWith (comma :: ofAscii " ")
                   [ofAscii "src/Counter.tsx"; ofAscii "src/useCounter.ts"])
    = [ofAscii "src/Counter.tsx"; ofAscii "src/useCounter.ts"].
Proof.
  apply (parseFileList_round_trip (ofAscii " ")
           [ofAscii "src/Counter.tsx"; ofAscii "src/useCounter.ts"]).
  - by repeat constructor.
  - repeat constructor; try done; try (by intros c [= <-]).
    all: vm_compute; intros Hin;
      repeat (apply elem_of_cons in Hin as [Hin | Hin]; [discriminate |]);
      by apply not_elem_of_nil in Hin.
Defined.

(** ** [analyzeScreenshots] *)

Lemma requestsFrom_paths (service : VisualAnalyzer.Service) (bugDescription : string)
    (fs : FS) (screenshotPaths : list string) :
  forall n,
    map fst (requestsFrom service bugDescription fs screenshotPaths n)
      = existingPaths fs screenshotPaths.
Proof.
  induction screenshotPaths as [| p rest IH]; intros n; simpl; [done |].
  destruct (files fs !! p); simpl; by rewrite IH.
Qed.

Lemma loopOutcome_cons (p : string) (reply : VisualAnalyzer.Reply)
    (requests : list (string * VisualAnalyzer.Reply))
    (results : list VisualAnalyzer.VisualAnalysisResult) :
  loopOutcome ((p, reply) :: requests) results =
    match reply with
    | VisualAnalyzer.ReplyThrows msg => Thrown msg
    | _ => loopOutcome requests
             (results ++ match resultOfReply (p, reply) with
                         | Some r => [r]
                         | None => []
                         end)
    end.
Proof.
  unfold loopOutcome. destruct reply as [msg | | text | a i c].
  - done.
  - change (List.find isRejected ((p, VisualAnalyzer.ReplyNoObject) :: requests))
      with (List.find isRejected requests).
    change (omap resultOfReply ((p, VisualAnalyzer.ReplyNoObject) :: requests))
      with (omap resultOfReply requests).
    change (resultOfReply (p, VisualAnalyzer.ReplyNoObject)) with (@None VisualAnalyzer.VisualAnalysisResult).
    by rewrite app_nil_r.
  - set (r := VisualAnalyzer.mkAnalysis p text [] "low").
    change (List.find isRejected ((p, VisualAnalyzer.ReplyBadJson text) :: requests))
      with (List.find isRejected requests).
    change (omap resultOfReply ((p, VisualAnalyzer.ReplyBadJson text) :: requests))
      with (r :: omap resultOfReply requests).
    change (resultOfReply (p, VisualAnalyzer.ReplyBadJson text)) with (Some r).
    by rewrite <- app_assoc.
  - set (r := VisualAnalyzer.mkAnalysis p (or_string a "No assessment available")
                (default [] i) (or_string c "low")).
    change (List.find isRejected ((p, VisualAnalyzer.ReplyParsed a i c) :: requests))
      with (List.find isRejected requests).
    change (omap resultOfReply ((p, VisualAnalyzer.ReplyParsed a i c) :: requests))
      with (r :: omap resultOfReply requests).
    change (resultOfReply (p, VisualAnalyzer.ReplyParsed a i c)) with (Some r).
    by rewrite <- app_assoc.
Qed.

(** One pass of the loop over the screenshots. *)
Lemma analyzeEach_cons (service : VisualAnalyzer.Service) (bugDescription : string)
    (fs : FS) (p : string) (rest : list string) (n : nat)
    (results : list VisualAnalyzer.VisualAnalysisResult) :
  VisualAnalyzer.analyzeEach service bugDescription (p :: rest) n results fs =
    if decide (p ∈ directories fs) then (fs, Thrown directoryRead)
    else match files fs !! p with
         | None => VisualAnalyzer.analyzeEach service bugDescription rest n results fs
         | Some imageData =>
             match service n bugDescription p imageData with
             | VisualAnalyzer.ReplyThrows msg => (fs, Thrown msg)
             | reply =>
                 VisualAnalyzer.analyzeEach service bugDescription rest (S n)
                   (results ++ match resultOfReply (p, reply) with
                               | Some r => [r]
                               | None => []
                               end) fs
             end
         end.
Proof.
  simpl. unfold bind at 1, existsSync, gets.
  destruct (decide (p ∈ directories fs)) as [Hdir | Hfile].
  - rewrite (bool_decide_eq_true_2 _ Hdir). simpl.
    unfold bind, readFileSync. by rewrite (decide_True _ _ Hdir).
  - rewrite (bool_decide_eq_false_2 _ Hfile). simpl.
    destruct (files fs !! p) as [imageData |] eqn:Hp; [| done].
    unfold bind, readFileSync. rewrite (decide_False _ _ Hfile), Hp.
    destruct (service n bugDescription p imageData); unfold resultOfReply; simpl;
      by rewrite ?app_nil_r.
Qed.

(** The loop over the screenshots reads the store.  It stops at the first
    path that names a directory, where the read fails, and at the first
    rejected request; otherwise it pushes the results of the replies, in
    order. *)
Lemma analyzeEach_spec (service : VisualAnalyzer.Service) (bugDescription : string)
    (fs : FS) (screenshotPaths : list string) :
  forall n results,
    let run := VisualAnalyzer.analyzeEach service bugDescription screenshotPaths n results fs in
    let requests := requestsFrom service bugDescription fs screenshotPaths n in
    run.1 = fs /\
    match run.2 with
    | Returned _ =>
        Forall (fun p => p ∉ directories fs) screenshotPaths /\
        run.2 = loopOutcome requests results
    | Thrown msg =>
        (exists p, (p, VisualAnalyzer.ReplyThrows msg) ∈ requests) \/
        (msg = directoryRead /\ Exists (fun p => p ∈ directories fs) screenshotPaths)
    | Diverged => False
    end.
Proof.
  induction screenshotPaths as [| p rest IH]; intros n results; cbv zeta.
  - simpl. split; [done |]. split; [constructor |]. unfold loopOutcome. simpl.
    by rewrite app_nil_r.
  - rewrite analyzeEach_cons.
    change (requestsFrom service bugDescription fs (p :: rest) n) with
      (match files fs !! p with
       | Some imageData =>
           (p, service n bugDescription p imageData)
           :: requestsFrom service bugDescription fs rest (S n)
       | None => requestsFrom service bugDescription fs rest n
       end).
    destruct (decide (p ∈ directories fs)) as [Hdir | Hfile].
    { simpl. split; [done |]. right. split; [done | by left]. }
    destruct (files fs !! p) as [imageData |] eqn:Hp.
    + rewrite loopOutcome_cons.
      destruct (service n bugDescription p imageData) as [msg | | text | a i c] eqn:Hreply.
      { simpl. split; [done |]. left. exists p. left. }
      all: match goal with
           | |- context [VisualAnalyzer.analyzeEach _ _ _ ?m ?rs _] =>
               destruct (IH m rs) as [Hstore Hrun];
               destruct (VisualAnalyzer.analyzeEach service bugDescription rest m rs fs)
                 as [fs1 [rs' | msg |]]
           end; simpl in Hstore, Hrun; simpl; (split; [exact Hstore |]); [| | done].
      all: try (destruct Hrun as [Hnone Heq]; split; [by constructor | exact Heq]).
      all: destruct Hrun as [[q Hq] | [-> Hdir]];
        [left; exists q; by right | right; split; [done | by right]].
    + destruct (IH n results) as [Hstore Hrun].
      destruct (VisualAnalyzer.analyzeEach service bugDescription rest n results fs)
        as [fs1 [rs' | msg |]]; simpl in Hstore, Hrun; simpl;
        (split; [exact Hstore |]); [| | done].
      * destruct Hrun as [Hnone Heq]. split; [by constructor | done].
      * destruct Hrun as [Hrej | [-> Hdir]]; [by left | right; split; [done | by right]].
Qed.

Lemma omap_results_sublist (requests : list (string * VisualAnalyzer.Reply)) :
  map VisualAnalyzer.screenshot (omap resultOfReply requests)
    `sublist_of` map fst requests.
Proof.
  induction requests as [| [p reply] requests IH]; simpl; [done |].
  unfold resultOfReply at 1. simpl.
  destruct reply; simpl; by constructor.
Qed.

(** X20 (analyzeScreenshots).
    What [analyzeScreenshots] touches and whom it asks.  It never writes.
    It asks about the screenshot files that exist, in order, one request
    each.  It throws only when a request is rejected, with that error, or
    when a listed path names a directory, whose read fails.  When it
    returns, no listed path names a directory, the report carries the bug
    description, its results are about existing screenshots, in order (a
    screenshot whose reply holds no JSON object has no result), and a reply
    that is not valid JSON makes the report fail. *)
Theorem analyzeScreenshots_requests (service : VisualAnalyzer.Service)
    (bugDescription : string) (screenshotPaths : list string) (fs : FS) :
  let run := VisualAnalyzer.analyzeScreenshots service bugDescription screenshotPaths fs in
  let requests := requestsFrom service bugDescription fs screenshotPaths 0 in
  run.1 = fs /\
  map fst requests = existingPaths fs screenshotPaths /\
  match run.2 with
  | Returned report =>
      Forall (fun p => p ∉ directories fs) screenshotPaths /\
      VisualAnalyzer.bugDescription report = bugDescription /\
      map VisualAnalyzer.screenshot (VisualAnalyzer.screenshots report)
        `sublist_of` existingPaths fs screenshotPaths /\
      (forall p text, (p, VisualAnalyzer.ReplyBadJson text) ∈ requests ->
                      VisualAnalyzer.passed report = false)
  | Thrown msg =>
      (exists p, (p, VisualAnalyzer.ReplyThrows msg) ∈ requests) \/
      (msg = directoryRead /\ exists p, p ∈ screenshotPaths /\ p ∈ directories fs)
  | Diverged => False
  end.
Proof.
  intros run requests. unfold run, VisualAnalyzer.analyzeScreenshots, bind.
  destruct (analyzeEach_spec service bugDescription fs screenshotPaths 0 [])
    as [Hstore Hrun]. fold requests in Hrun.
  destruct (VisualAnalyzer.analyzeEach service bugDescription screenshotPaths 0 [] fs)
    as [fs1 [results | msg |]]; simpl in Hstore, Hrun; subst fs1; simpl;
    (split; [done |]); (split; [apply requestsFrom_paths |]); [| | done].
  - destruct Hrun as [Hnone Heq]. split; [exact Hnone |]. split; [done |].
    unfold loopOutcome in Heq.
    assert (Hresults : results = omap resultOfReply requests).
    { destruct (List.find isRejected requests) as [[p []] |]; by inversion Heq. }
    subst results. split.
    + rewrite <- (requestsFrom_paths service bugDescription fs screenshotPaths 0).
      apply omap_results_sublist.
    + intros p text Hin. apply andb_false_iff. right.
      apply not_true_is_false. intros Hall. rewrite forallb_forall in Hall.
      specialize (Hall (VisualAnalyzer.mkAnalysis p text [] "low")).
      unfold VisualAnalyzer.isHigh in Hall. simpl in Hall.
      assert (Hfalse : false = true); [| done]. apply Hall.
      apply list_elem_of_In, list_elem_of_omap. by exists (p, VisualAnalyzer.ReplyBadJson text).
  - destruct Hrun as [Hrej | [-> Hdir]]; [by left | right]. split; [done |].
    by apply Exists_exists in Hdir.
Qed.

(** X22 (analyzeScreenshots, generateOverallAssessment).
    Nothing to analyse.  When nothing exists at any of the screenshot
    paths, no request is sent, whatever the service would answer, and the
    report passes: it has no results and the "no screenshots were
    available" assessment. *)
Theorem analyzeScreenshots_without_files (service : VisualAnalyzer.Service)
    (bugDescription : string) (screenshotPaths : list string) (fs : FS) :
  Forall (absent fs) screenshotPaths ->
  VisualAnalyzer.analyzeScreenshots service bugDescription screenshotPaths fs
    = (fs, Returned (VisualAnalyzer.mkReport bugDescription nothingAnalysed [] true)).
Proof.
  intros Hnone. unfold VisualAnalyzer.analyzeScreenshots, bind.
  assert (Hloop : forall n,
            VisualAnalyzer.analyzeEach service bugDescription screenshotPaths n [] fs
              = (fs, Returned [])).
  { induction Hnone as [| p rest [Hp Hdir] _ IH]; intros n; simpl; [done |].
    unfold bind, existsSync, gets. rewrite (bool_decide_eq_false_2 _ Hdir), Hp. simpl.
    apply IH. }
  by rewrite Hloop.
Qed.

Lemma analyzeScreenshots_without_files_witness :
  VisualAnalyzer.analyzeScreenshots (fun _ _ _ _ => VisualAnalyzer.ReplyThrows "rejected")
    "counter does not reset to zero" ["/w/test-results/missing.png"] screenshotStore
    = (screenshotStore,
       Returned (VisualAnalyzer.mkReport "counter does not reset to zero"
                   nothingAnalysed [] true)).
Proof.
  apply (analyzeScreenshots_without_files
           (fun _ _ _ _ => VisualAnalyzer.ReplyThrows "rejected")
           "counter does not reset to zero" ["/w/test-results/missing.png"]
           screenshotStore).
  repeat constructor. vm_compute. set_solver.
Defined.

(** ** The step list of the live panel *)

Lemma find_none_ids (wanted : string) (steps : list LivePanel.LiveStep) :
  LivePanel.find wanted steps = None <-> wanted ∉ map LivePanel.id steps.
Proof.
  unfold LivePanel.find. induction steps as [| s steps IH]; simpl.
  - split; [intros _; apply not_elem_of_nil | done].
  - destruct (String.eqb_spec (LivePanel.id s) wanted) as [<- | Hne].
    + split; [done |]. intros Hnot. destruct Hnot. apply list_elem_of_here.
    + rewrite IH, not_elem_of_cons. split; [by intros H | by intros [_ H]].
Qed.

Lemma assignFirst_ids (wanted : string) (source : LivePanel.Updates)
    (steps : list LivePanel.LiveStep) :
  LivePanel.u_id source = None \/ LivePanel.u_id source = Some wanted ->
  map LivePanel.id (LivePanel.assignFirst wanted source steps) = map LivePanel.id steps.
Proof.
  intros Hid. induction steps as [| s steps IH]; simpl; [done |].
  destruct (String.eqb_spec (LivePanel.id s) wanted) as [Heq | Hne]; simpl.
  - f_equal. by destruct Hid as [-> | ->].
  - by rewrite IH.
Qed.

Lemma call_ids (c : LivePanel.Call) (steps : list LivePanel.LiveStep) :
  keepsId c ->
  NoDup (map LivePanel.id steps) ->
  NoDup (map LivePanel.id (LivePanel.call c steps)) /\
  (forall i, i ∈ map LivePanel.id steps -> i ∈ map LivePanel.id (LivePanel.call c steps)).
Proof.
  intros Hkeeps Hnd. destruct c as [step | wanted updates]; simpl.
  - unfold LivePanel.addStep.
    destruct (LivePanel.find (LivePanel.l_id step) steps) eqn:Hfind.
    + rewrite assignFirst_ids by (by right). by split.
    + apply find_none_ids in Hfind. rewrite map_app. simpl. split.
      * apply NoDup_app. split_and!; [done | | apply NoDup_singleton].
        intros i Hi Hin. apply list_elem_of_singleton in Hin as ->. done.
      * intros i Hi. apply elem_of_app. by left.
  - unfold LivePanel.updateStep.
    destruct (LivePanel.find wanted steps); [| by split].
    rewrite assignFirst_ids by done. by split.
Qed.

(** X23 (LivePanel.addStep, LivePanel.updateStep).
    The ids of the step list stay pairwise distinct.  Starting from the
    empty list that [createOrShow] sets, any sequence of [addStep] and
    [updateStep] calls -- the updates leaving the id alone, as every call
    site does -- ends in a list in which no id occurs twice; [addStep]
    merges into the step of the same id instead of adding a second one. *)
Theorem step_ids_stay_distinct (calls : list LivePanel.Call) :
  Forall keepsId calls ->
  NoDup (map LivePanel.id (LivePanel.after calls)).
Proof.
  unfold LivePanel.after.
  assert (Hgen : forall steps,
            Forall keepsId calls -> NoDup (map LivePanel.id steps) ->
            NoDup (map LivePanel.id
                     (fold_left (fun steps c => LivePanel.call c steps) calls steps))).
  { induction calls as [| c calls IH]; intros steps Hcalls Hnd; simpl; [done |].
    apply Forall_cons in Hcalls as [Hc Hcalls].
    apply IH; [done |]. by apply call_ids. }
  intros Hcalls. apply Hgen; [done | apply NoDup_nil_2].
Qed.

Lemma step_ids_stay_distinct_witness :
  NoDup (map LivePanel.id
           (LivePanel.after
              [LivePanel.CallAdd
                 (LivePanel.mkLiteral "fix" "Generating fix" LivePanel.pending
                    None None None None);
               LivePanel.CallUpdate "fix"
                 (LivePanel.mkUpdates None None (Some LivePanel.running)
                    None None None None);
               LivePanel.CallAdd
                 (LivePanel.mkLiteral "fix" "Generating fix" LivePanel.success
                    (Some (Some "done")) None None None)])).
Proof.
  apply step_ids_stay_distinct. repeat constructor.
Defined.

Lemma find_assignFirst (wanted : string) (source : LivePanel.Updates)
    (steps : list LivePanel.LiveStep) (old : LivePanel.LiveStep) :
  LivePanel.u_id source = None \/ LivePanel.u_id source = Some wanted ->
  LivePanel.find wanted steps = Some old ->
  LivePanel.find wanted (LivePanel.assignFirst wanted source steps)
    = Some (LivePanel.assign old source) /\
  length (LivePanel.assignFirst wanted source steps) = length steps /\
  (forall other, other <> wanted ->
     LivePanel.find other (LivePanel.assignFirst wanted source steps)
       = LivePanel.find other steps).
Proof.
  intros Hid. unfold LivePanel.find.
  induction steps as [| s steps IH]; simpl; [done |].
  destruct (String.eqb_spec (LivePanel.id s) wanted) as [Heq | Hne]; simpl.
  - intros [= <-].
    assert (Hsame : LivePanel.id (LivePanel.assign s source) = wanted).
    { simpl. by destruct Hid as [-> | ->]. }
    simpl in Hsame. rewrite Hsame, String.eqb_refl. split_and!; [done | done |].
    intros other Hother.
    rewrite Heq. by rewrite (proj2 (String.eqb_neq wanted other)) by done.
  - intros Hfind. destruct (IH Hfind) as (Hfound & Hlen & Hothers).
    rewrite (proj2 (String.eqb_neq (LivePanel.id s) wanted)) by done.
    split_and!; [done | by rewrite Hlen |].
    intros other Hother. destruct (String.eqb (LivePanel.id s) other); [done |].
    by apply Hothers.
Qed.

Lemma find_app_new (wanted : string) (steps : list LivePanel.LiveStep)
    (s : LivePanel.LiveStep) (other : string) :
  LivePanel.find (LivePanel.id s) steps = None ->
  LivePanel.find other (steps ++ [s]) =
    if String.eqb (LivePanel.id s) other then Some s else LivePanel.find other steps.
Proof.
  intros Hnew. unfold LivePanel.find in *.
  induction steps as [| x steps IH]; simpl in *.
  - by destruct (String.eqb (LivePanel.id s) other).
  - destruct (String.eqb_spec (LivePanel.id x) (LivePanel.id s)) as [Heq | Hne]; [done |].
    destruct (String.eqb_spec (LivePanel.id x) other) as [Hx | Hx].
    + subst other. by rewrite (proj2 (String.eqb_neq (LivePanel.id s) (LivePanel.id x))).
    + by apply IH.
Qed.

(** X24 (LivePanel.addStep).
    Adding a step and reading it back.  After [addStep], the step found
    under the id of the literal carries its label and status; each optional
    field holds what the literal gave for it, and, where the literal does
    not name the field, what the step of that id held before (nothing for a
    new id).  The list grows by one exactly when the id is new, in which
    case the step comes last; steps under other ids are found as before. *)
Theorem addStep_then_find (step : LivePanel.StepLiteral)
    (steps : list LivePanel.LiveStep) :
  let before := LivePanel.find (LivePanel.l_id step) steps in
  let steps' := LivePanel.addStep step steps in
  LivePanel.find (LivePanel.l_id step) steps'
    = Some (LivePanel.mkStep (LivePanel.l_id step) (LivePanel.l_label step)
              (LivePanel.l_status step)
              (merged LivePanel.detail before (LivePanel.l_detail step))
              (merged LivePanel.code before (LivePanel.l_code step))
              (merged LivePanel.codeLanguage before (LivePanel.l_codeLanguage step))
              (merged LivePanel.duration before (LivePanel.l_duration step))) /\
  length steps' = match before with
                  | Some _ => length steps
                  | None => S (length steps)
                  end /\
  match before with
  | Some _ => True
  | None => steps' = steps ++ [LivePanel.stored step]
  end /\
  forall other, other <> LivePanel.l_id step ->
    LivePanel.find other steps' = LivePanel.find other steps.
Proof.
  simpl. unfold LivePanel.addStep.
  destruct (LivePanel.find (LivePanel.l_id step) steps) as [s |] eqn:Hfind.
  - destruct (find_assignFirst (LivePanel.l_id step) (LivePanel.updatesOf step) steps s
                ltac:(by right) Hfind) as (Hfound & Hlen & Hothers).
    by split_and!.
  - split_and!.
    + rewrite (find_app_new (LivePanel.l_id step)) by done. simpl.
      by rewrite String.eqb_refl.
    + rewrite length_app. simpl. lia.
    + done.
    + intros other Hother. rewrite (find_app_new (LivePanel.l_id step)) by done.
      simpl. by rewrite (proj2 (String.eqb_neq (LivePanel.l_id step) other)).
Qed.

(** X25 (LivePanel.updateStep).
    [updateStep] on an id that no step carries changes nothing; on an id
    that is present it merges the updates into the first step of that id
    and leaves the number of steps and the steps under other ids as they
    were. *)
Theorem updateStep_effect (wanted : string) (updates : LivePanel.Updates)
    (steps : list LivePanel.LiveStep) :
  LivePanel.u_id updates = None ->
  match LivePanel.find wanted steps with
  | None => LivePanel.updateStep wanted updates steps = steps
  | Some old =>
      LivePanel.find wanted (LivePanel.updateStep wanted updates steps)
        = Some (LivePanel.assign old updates) /\
      length (LivePanel.updateStep wanted updates steps) = length steps /\
      (forall other, other <> wanted ->
         LivePanel.find other (LivePanel.updateStep wanted updates steps)
           = LivePanel.find other steps)
  end.
Proof.
  intros Hid. unfold LivePanel.updateStep.
  destruct (LivePanel.find wanted steps) as [old |] eqn:Hfind; [| done].
  by apply find_assignFirst; [left |].
Qed.

Lemma updateStep_effect_witness :
  let steps := LivePanel.after
                 [LivePanel.CallAdd
                    (LivePanel.mkLiteral "fix" "Generating fix" LivePanel.pending
                       None None None None)] in
  LivePanel.updateStep "apply"
    (LivePanel.mkUpdates None None (Some LivePanel.running) None None None None) steps
  = steps.
Proof.
  exact (updateStep_effect "apply"
           (LivePanel.mkUpdates None None (Some LivePanel.running) None None None None)
           (LivePanel.after
              [LivePanel.CallAdd
                 (LivePanel.mkLiteral "fix" "Generating fix" LivePanel.pending
                    None None None None)])
           eq_refl).
Defined.

(** ** The code taken from a reply *)

Lemma startsWith_spec (prefix s : list N) :
  Units.startsWith prefix s = true <-> exists rest, s = prefix ++ rest.
Proof.
  revert s. induction prefix as [| p prefix IH]; intros s; simpl.
  - split; [by exists s | done].
  - destruct s as [| c s].
    + split; [done | by intros [rest Hrest]].
    + rewrite andb_true_iff, N.eqb_eq, IH. split.
      * intros [-> [rest ->]]. by exists rest.
      * intros [rest [= -> ->]]. split; [done | by exists rest].
Qed.

Lemma indexOf_unfold (needle s : list N) :
  Units.indexOf needle s =
    if Units.startsWith needle s then Some 0%nat
    else match s with
         | [] => None
         | _ :: rest => S <$> Units.indexOf needle rest
         end.
Proof. by destruct s. Qed.

Lemma indexOf_found (needle s : list N) (i : nat) :
  Units.indexOf needle s = Some i -> Units.startsWith needle (drop i s) = true.
Proof.
  revert i. induction s as [| c s IH]; intros i; rewrite indexOf_unfold.
  - destruct (Units.startsWith needle []) eqn:Hstart; [| done].
    intros [= <-]. done.
  - destruct (Units.startsWith needle (c :: s)) eqn:Hstart.
    + intros [= <-]. done.
    + destruct (Units.indexOf needle s) as [j |]; [| done].
      intros [= <-]. simpl. by apply IH.
Qed.

Lemma indexOf_after_pad (needle pad s : list N) (c : N) :
  Forall (fun x => isWhiteSpace x = true) pad ->
  head needle = Some c -> isWhiteSpace c = false ->
  Units.startsWith needle s = true ->
  Units.indexOf needle (pad ++ s) = Some (length pad).
Proof.
  intros Hpad Hhead Hc Hstart. induction Hpad as [| x pad Hx _ IH]; simpl app.
  - rewrite indexOf_unfold. by rewrite Hstart.
  - rewrite indexOf_unfold.
    destruct needle as [| p needle]; [done |]. injection Hhead as ->.
    cbn [Units.startsWith].
    destruct (N.eqb_spec c x) as [-> | Hne]; [congruence |].
    cbn [andb]. by rewrite IH.
Qed.

Lemma trimStart_split (s : list N) :
  exists pad, Forall (fun c => isWhiteSpace c = true) pad /\ s = pad ++ trimStart s.
Proof.
  induction s as [| x s (pad & Hpad & IH)]; simpl; [by exists [] |].
  destruct (isWhiteSpace x) eqn:Hx; [| by exists []].
  exists (x :: pad). split; [by constructor |]. simpl. by f_equal.
Qed.

Lemma trimStart_app_plain (a b : list N) :
  b <> [] -> (forall c, head b = Some c -> isWhiteSpace c = false) ->
  trimStart (a ++ b) = trimStart a ++ b.
Proof.
  intros Hb Hhead. induction a as [| x a IH]; simpl.
  - by apply trimStart_plain.
  - by destruct (isWhiteSpace x).
Qed.

Lemma trimEnd_app_plain (w rest : list N) :
  w <> [] -> (forall c, last w = Some c -> isWhiteSpace c = false) ->
  trimEnd (w ++ rest) = w ++ trimEnd rest.
Proof.
  intros Hw Hlast. unfold trimEnd. rewrite rev_app_distr, trimStart_app_plain.
  - by rewrite rev_app_distr, rev_involutive.
  - intros Hrev. apply Hw. by rewrite <- (rev_involutive w), Hrev.
  - intros c. rewrite head_rev. apply Hlast.
Qed.

Lemma trimEnd_split (s : list N) :
  exists pad, Forall (fun c => isWhiteSpace c = true) pad /\ s = trimEnd s ++ pad.
Proof.
  destruct (trimStart_split (rev s)) as (pad & Hpad & Hs).
  exists (rev pad). split.
  - rewrite Forall_forall in *. intros c Hc. apply Hpad.
    apply list_elem_of_In, in_rev. by apply list_elem_of_In.
  - unfold trimEnd. rewrite <- rev_app_distr, <- Hs. by rewrite rev_involutive.
Qed.

Lemma trim_idem (s : list N) : trim (trim s) = trim s.
Proof.
  destruct (trim_spec s) as (Hhead & Hlast & _).
  unfold trim at 1. rewrite trimStart_plain by done. by apply trimEnd_plain.
Qed.

Lemma trimStart_idem (s : list N) : trimStart (trimStart s) = trimStart s.
Proof. apply trimStart_plain, trimStart_head. Qed.

Lemma import_head :
  head importWord = Some 105%N /\ isWhiteSpace 105 = false /\
  importWord <> [] /\ (forall c, last importWord = Some c -> isWhiteSpace c = false).
Proof. split_and!; [done | done | done |]. by intros c [= <-]. Qed.

(** When the trimmed response starts with [import], the first [import] of
    the response is that one, and cutting there loses nothing. *)
Lemma import_at_start (response : list N) :
  Units.startsWith importWord (trim response) = true ->
  exists i, Units.indexOf importWord response = Some i /\
            trim (drop i response) = trim response.
Proof.
  intros Hstart. destruct import_head as (Hhead & Hc & _).
  destruct (trimStart_split response) as (pad & Hpad & Hresp).
  destruct (trimEnd_split (trimStart response)) as (pad' & _ & Hend).
  apply startsWith_spec in Hstart as [rest Hrest].
  assert (Ht : Units.startsWith importWord (trimStart response) = true).
  { apply startsWith_spec. exists (rest ++ pad').
    rewrite Hend. fold (trim response). rewrite Hrest. by rewrite <- app_assoc. }
  exists (length pad). split.
  - rewrite Hresp. by apply (indexOf_after_pad _ _ _ 105%N).
  - rewrite Hresp at 1. rewrite drop_app_length. unfold trim.
    by rewrite trimStart_idem.
Qed.

(** X26 (extractCode).
    Whatever the code-fence pattern captures, the
    code that [extractCode] returns has no white space at either end.
    With a fence it is the trimmed capture.  Without one it is the
    response from its first [import] on, trimmed -- hence it starts with
    [import] -- and, where the response holds no [import], the trimmed
    response; the test whether the trimmed response starts with [import]
    never changes the result. *)
Theorem extractCode_result (fencedBody : list N -> option (list N))
    (response : list N) :
  let code := extractCode fencedBody response in
  trim code = code /\
  match fencedBody response with
  | Some body => code = trim body
  | None =>
      match Units.indexOf importWord response with
      | Some importIndex =>
          code = trim (drop importIndex response) /\
          Units.startsWith importWord code = true
      | None => code = trim response
      end
  end.
Proof.
  cbv zeta. split.
  - unfold extractCode.
    destruct (fencedBody response); [apply trim_idem |].
    destruct (Units.startsWith importWord (trim response)); [apply trim_idem |].
    destruct (Units.indexOf importWord response); apply trim_idem.
  - unfold extractCode. destruct (fencedBody response) as [body |]; [done |].
    destruct (Units.startsWith importWord (trim response)) eqn:Hstart.
    + destruct (import_at_start response Hstart) as (i & -> & Hcut).
      by rewrite Hcut.
    + destruct (Units.indexOf importWord response) as [i |] eqn:Hindex; [| done].
      split; [done |].
      apply indexOf_found, startsWith_spec in Hindex as [rest ->].
      destruct import_head as (_ & Hc & Hne & Hlast).
      unfold trim. rewrite trimStart_plain by (by intros c [= <-]).
      rewrite trimEnd_app_plain by done.
      apply startsWith_spec. by eexists.
Qed.

(** ** The [.env] file *)

Lemma splitOn_snoc (sep : N) (s line : list N) :
  sep ∉ line -> splitOn sep (s ++ sep :: line) = splitOn sep s ++ [line].
Proof.
  intros Hline. induction s as [| c s IH]; simpl.
  - by rewrite N.eqb_refl, splitOn_plain.
  - rewrite IH. destruct (c =? sep)%N; [done |].
    by destruct (splitOn_cons sep s) as (piece & pieces & ->).
Qed.

Lemma readDotEnvContent_snoc (content line : list N) :
  lineFeed ∉ line ->
  readDotEnvContent (content ++ lineFeed :: line)
    = readLine (readDotEnvContent content) line.
Proof.
  intros Hline. unfold readDotEnvContent.
  by rewrite splitOn_snoc, fold_left_app.
Qed.

Lemma startsWith_unit (c : N) (s : list N) :
  Units.startsWith [c] s = true <-> head s = Some c.
Proof.
  destruct s as [| x s]; simpl; [done |].
  rewrite andb_true_r, N.eqb_eq. split; [by intros -> | by intros [= ->]].
Qed.

Lemma indexOf_first (sep : N) (a rest : list N) :
  sep ∉ a -> Units.indexOf [sep] (a ++ sep :: rest) = Some (length a).
Proof.
  induction a as [| c a IH]; intros Ha; simpl app; rewrite indexOf_unfold.
  - by rewrite (proj2 (startsWith_unit sep (sep :: rest))).
  - apply not_elem_of_cons in Ha as [Hc Ha].
    destruct (Units.startsWith [sep] (c :: a ++ sep :: rest)) eqn:Hstart.
    + apply startsWith_unit in Hstart. simpl in Hstart. congruence.
    + by rewrite IH.
Qed.

Lemma indexOf_take (sep : N) (s : list N) (i : nat) :
  Units.indexOf [sep] s = Some i -> sep ∉ take i s.
Proof.
  revert i. induction s as [| c s IH]; intros i; rewrite indexOf_unfold.
  - destruct (Units.startsWith [sep] []); [| done].
    intros [= <-]. apply not_elem_of_nil.
  - destruct (Units.startsWith [sep] (c :: s)) eqn:Hstart.
    + intros [= <-]. apply not_elem_of_nil.
    + destruct (Units.indexOf [sep] s) as [j |]; [| done].
      intros [= <-]. simpl. apply not_elem_of_cons. split; [| by apply IH].
      intros ->. by rewrite (proj2 (startsWith_unit c (c :: s))) in Hstart.
Qed.

Lemma trimStart_blank (pad : list N) :
  Forall (fun c => isWhiteSpace c = true) pad -> trimStart pad = [].
Proof. induction 1 as [| c pad Hc _ IH]; simpl; [done |]. by rewrite Hc. Qed.

Lemma trimEnd_blank (pad : list N) :
  Forall (fun c => isWhiteSpace c = true) pad -> trimEnd pad = [].
Proof.
  intros Hpad. unfold trimEnd. rewrite trimStart_blank; [done |].
  rewrite Forall_forall in *. intros c Hc. apply Hpad.
  apply list_elem_of_In, in_rev. by apply list_elem_of_In.
Qed.

Lemma blanks_white (pad : list N) :
  blanks pad -> Forall (fun c => isWhiteSpace c = true) pad.
Proof. intros Hpad. eapply Forall_impl; [exact Hpad |]. by intros c [Hc _]. Qed.

Lemma blanks_one_line (pad : list N) : blanks pad -> lineFeed ∉ pad.
Proof.
  intros Hpad Hin. unfold blanks in Hpad. rewrite Forall_forall in Hpad.
  by destruct (Hpad _ Hin).
Qed.

Lemma blanks_no_equals (pad : list N) : blanks pad -> equalsSign ∉ pad.
Proof.
  intros Hpad Hin. unfold blanks in Hpad. rewrite Forall_forall in Hpad.
  by destruct (Hpad _ Hin).
Qed.

(** [trim] of a text with blanks on both sides. *)
Lemma trim_between (before s after : list N) :
  Forall (fun c => isWhiteSpace c = true) before ->
  Forall (fun c => isWhiteSpace c = true) after ->
  (forall c, head s = Some c -> isWhiteSpace c = false) ->
  (forall c, last s = Some c -> isWhiteSpace c = false) ->
  trim (before ++ s ++ after) = s.
Proof.
  intros Hbefore Hafter Hhead Hlast. unfold trim. rewrite trimStart_pad by done.
  destruct s as [| c s].
  - simpl app. by rewrite trimStart_blank, (trimEnd_blank []) by done.
  - rewrite trimStart_plain by (simpl; apply Hhead).
    rewrite trimEnd_app_plain by done. rewrite trimEnd_blank by done.
    by rewrite app_nil_r.
Qed.

Lemma unquote_part (value : list N) (c : N) : c ∈ unquote value -> c ∈ value.
Proof.
  unfold unquote, sliceInner. destruct (isQuoted value); [| done].
  intros Hc. apply elem_of_take in Hc as (i & Hc & _).
  apply list_elem_of_lookup_2 in Hc.
  rewrite <- (take_drop 1 value). apply elem_of_app. by right.
Qed.

Lemma trim_part (s : list N) (c : N) : c ∈ trim s -> c ∈ s.
Proof.
  destruct (trim_spec s) as (_ & _ & before & after & Hs). intros Hc.
  rewrite Hs. apply elem_of_app. right. apply elem_of_app. by left.
Qed.

Lemma take_part (i : nat) (s : list N) (c : N) : c ∈ take i s -> c ∈ s.
Proof. intros Hc. rewrite <- (take_drop i s). apply elem_of_app. by left. Qed.

Lemma drop_part (i : nat) (s : list N) (c : N) : c ∈ drop i s -> c ∈ s.
Proof. intros Hc. rewrite <- (take_drop i s). apply elem_of_app. by right. Qed.

Lemma readLine_keys (result : gmap (list N) (list N)) (line : list N) :
  lineFeed ∉ line ->
  map_Forall (fun key value => envKey key /\ lineFeed ∉ value) result ->
  map_Forall (fun key value => envKey key /\ lineFeed ∉ value) (readLine result line).
Proof.
  intros Hline Hresult. unfold readLine.
  destruct (trim_spec line) as (Hhead & _ & _).
  assert (Hpart : forall c, c ∈ trim line -> c ∈ line) by apply trim_part.
  set (trimmed := trim line) in *. clearbody trimmed.
  destruct (isEmpty trimmed || Units.startsWith [hash] trimmed) eqn:Hskip; [done |].
  apply orb_false_iff in Hskip as [Hempty Hhash].
  destruct (Units.indexOf [equalsSign] trimmed) as [eqIndex |] eqn:Hindex; [| done].
  destruct eqIndex as [| n]; [done |]. cbn [Nat.ltb Nat.leb].
  unfold assignKey.
  match goal with |- context [decide ?P] => destruct (decide P) as [| Hproto] end;
    [done |].
  apply map_Forall_insert_2; [| done].
  apply indexOf_take in Hindex.
  destruct trimmed as [| c rest]; [done |]. simpl take in *.
  assert (Hc : isWhiteSpace c = false) by by apply Hhead.
  assert (Hkey : trim (c :: take n rest) = c :: trimEnd (take n rest)).
  { unfold trim. rewrite trimStart_plain by (by intros ? [= <-]).
    apply (trimEnd_app_plain [c]); [done | by intros ? [= <-]]. }
  destruct (trim_spec (c :: take n rest)) as (_ & Hlast & _).
  assert (Hin : forall x, x ∈ trim (c :: take n rest) -> x ∈ c :: rest).
  { intros x Hx. apply trim_part in Hx.
    apply elem_of_cons in Hx as [-> | Hx]; [apply list_elem_of_here |].
    apply list_elem_of_further. by apply (take_part n). }
  split.
  - split_and!.
    + by rewrite Hkey.
    + intros Hx. by apply Hindex, trim_part.
    + intros Hx. by apply Hline, Hpart, Hin.
    + done.
    + rewrite Hkey. simpl. intros [= ->].
      by rewrite (proj2 (startsWith_unit hash (hash :: rest))) in Hhash.
    + rewrite Hkey. simpl. by intros ? [= <-].
    + done.
  - intros Hx. apply unquote_part, trim_part, (drop_part (S (S n))) in Hx.
    by apply Hline, Hpart.
Qed.

(** X27 (readDotEnv).
    Every key that [readDotEnv] returns is not empty,
    holds no [=] and no line feed, has no white space at either end, does
    not start with [#] and is not [__proto__]; no value holds a line
    feed. *)
Theorem readDotEnv_keys (content key value : list N) :
  readDotEnvContent content !! key = Some value ->
  envKey key /\ lineFeed ∉ value.
Proof.
  unfold readDotEnvContent.
  assert (Hgen : forall pieces result,
            Forall (fun line => lineFeed ∉ line) pieces ->
            map_Forall (fun key value => envKey key /\ lineFeed ∉ value) result ->
            map_Forall (fun key value => envKey key /\ lineFeed ∉ value)
              (fold_left readLine pieces result)).
  { induction pieces as [| line pieces IH]; intros result Hlines Hresult; simpl;
      [done |].
    apply Forall_cons in Hlines as [Hline Hlines].
    apply IH; [done |]. by apply readLine_keys. }
  intros Hlookup.
  exact (Hgen (splitOn lineFeed content) ∅ (splitOn_pieces lineFeed content)
           (map_Forall_empty _) key value Hlookup).
Qed.

Lemma readDotEnv_keys_witness :
  readDotEnvContent (ofAscii "# local settings" ++ lineFeed :: ofAscii " API_KEY = 'abc' ")
    !! ofAscii "API_KEY" = Some (ofAscii "abc") /\
  envKey (ofAscii "API_KEY").
Proof.
  assert (Hlookup :
    readDotEnvContent
      (ofAscii "# local settings" ++ lineFeed :: ofAscii " API_KEY = 'abc' ")
      !! ofAscii "API_KEY" = Some (ofAscii "abc")) by (vm_compute; reflexivity).
  split; [exact Hlookup |].
  exact (proj1 (readDotEnv_keys _ _ _ Hlookup)).
Defined.

Lemma readLine_assignment (result : gmap (list N) (list N))
    (p1 p2 p3 p4 key value : list N) :
  envKey key -> envValue value ->
  blanks p1 -> blanks p2 -> blanks p3 -> blanks p4 ->
  readLine result (p1 ++ key ++ p2 ++ [equalsSign] ++ p3 ++ value ++ p4)
    = <[key := unquote value]> result.
Proof.
  intros (Hne & Heq & _ & Hproto & Hhash & Hhead & Hlast) (_ & Hvhead & Hvlast)
    Hp1 Hp2 Hp3 Hp4.
  apply blanks_no_equals in Hp2 as Hp2eq.
  apply blanks_white in Hp1, Hp2, Hp3, Hp4.
  assert (Htail : trim (p3 ++ value ++ p4) = value) by by apply trim_between.
  assert (Htrimmed :
    trim (p1 ++ key ++ p2 ++ [equalsSign] ++ p3 ++ value ++ p4)
      = (key ++ p2) ++ equalsSign :: trimEnd (p3 ++ value ++ p4)).
  { unfold trim. rewrite trimStart_pad by done.
    destruct key as [| c key]; [done |].
    rewrite trimStart_plain by (simpl; apply Hhead).
    change ((c :: key) ++ p2 ++ [equalsSign] ++ p3 ++ value ++ p4)
      with ((c :: key) ++ p2 ++ [equalsSign] ++ (p3 ++ value ++ p4)).
    rewrite !(app_assoc _ _ (p3 ++ value ++ p4)).
    rewrite trimEnd_app_plain.
    - by rewrite <- !app_assoc.
    - done.
    - intros x. rewrite app_assoc, last_snoc. by intros [= <-]. }
  unfold readLine. rewrite Htrimmed.
  assert (Hstart : isEmpty ((key ++ p2) ++ equalsSign :: trimEnd (p3 ++ value ++ p4))
                   || Units.startsWith [hash]
                        ((key ++ p2) ++ equalsSign :: trimEnd (p3 ++ value ++ p4))
                   = false).
  { destruct key as [| c key]; [done |]. simpl isEmpty. cbn [orb].
    destruct (Units.startsWith [hash] _) eqn:Hstart; [| done].
    apply startsWith_unit in Hstart. simpl in Hstart, Hhash. congruence. }
  rewrite Hstart, indexOf_first.
  2: { intros Hin. apply elem_of_app in Hin as [Hin | Hin]; [by apply Heq | by apply Hp2eq]. }
  assert (Hpos : (0 <? length (key ++ p2))%nat = true).
  { destruct key; [done |]. done. }
  rewrite Hpos, take_app_length.
  assert (Hkey : trim (key ++ p2) = key).
  { rewrite <- (app_nil_l (key ++ p2)). by apply trim_between. }
  rewrite Hkey.
  assert (Hdrop : drop (S (length (key ++ p2)))
                    ((key ++ p2) ++ equalsSign :: trimEnd (p3 ++ value ++ p4))
                  = trimEnd (p3 ++ value ++ p4)).
  { change (equalsSign :: trimEnd (p3 ++ value ++ p4))
      with ([equalsSign] ++ trimEnd (p3 ++ value ++ p4)).
    rewrite app_assoc.
    replace (S (length (key ++ p2))) with (length ((key ++ p2) ++ [equalsSign]))
      by (rewrite (length_app _ [equalsSign]); simpl; lia).
    apply drop_app_length. }
  rewrite Hdrop.
  assert (Hvalue : trim (trimEnd (p3 ++ value ++ p4)) = value).
  { destruct value as [| v value].
    - simpl app. rewrite trimEnd_blank; [done |]. by apply Forall_app.
    - rewrite (app_assoc p3), trimEnd_app_plain.
      + rewrite trimEnd_blank, app_nil_r by done.
        rewrite <- (app_nil_r (p3 ++ v :: value)), <- app_assoc.
        by apply trim_between.
      + by destruct p3.
      + intros x Hx. apply Hvlast. rewrite last_app in Hx.
        destruct (last (v :: value)) eqn:Hl; [done | by apply last_None in Hl]. }
  rewrite Hvalue. unfold assignKey. by rewrite decide_False.
Qed.

(** X28 (readDotEnv).
    The last assignment wins.  When a line
    [KEY=VALUE] is appended to a file -- with blanks, a carriage return
    among them, allowed before and after key and value -- reading the file
    gives what reading it without that line gave, with the key set to the
    value (less its quotes, if it is in quotes).  The value may hold [=],
    [#] and inner white space. *)
Theorem readDotEnv_last_assignment (content p1 p2 p3 p4 key value : list N) :
  envKey key -> envValue value ->
  blanks p1 -> blanks p2 -> blanks p3 -> blanks p4 ->
  readDotEnvContent
    (content ++ [lineFeed] ++ p1 ++ key ++ p2 ++ [equalsSign] ++ p3 ++ value ++ p4)
    = <[key := unquote value]> (readDotEnvContent content).
Proof.
  intros Hkey Hvalue Hp1 Hp2 Hp3 Hp4.
  change ([lineFeed] ++ p1 ++ key ++ p2 ++ [equalsSign] ++ p3 ++ value ++ p4)
    with (lineFeed :: (p1 ++ key ++ p2 ++ [equalsSign] ++ p3 ++ value ++ p4)).
  rewrite readDotEnvContent_snoc; [by apply readLine_assignment |].
  destruct Hkey as (_ & _ & Hkey & _). destruct Hvalue as (Hvalue & _).
  apply blanks_one_line in Hp1, Hp2, Hp3, Hp4.
  rewrite !not_elem_of_app. split_and!; try done.
  apply not_elem_of_cons. split; [done | apply not_elem_of_nil].
Qed.

Lemma absent_unit (c : N) (s : list N) :
  forallb (fun x => negb (x =? c)%N) s = true -> c ∉ s.
Proof.
  intros Hall Hin. rewrite forallb_forall in Hall.
  apply list_elem_of_In, Hall in Hin. by rewrite N.eqb_refl in Hin.
Qed.

Lemma readDotEnv_last_assignment_witness :
  let content := ofAscii "API_KEY=old" in
  let line := ofAscii "API_KEY" ++ [32%N] ++ [equalsSign] ++ [32%N]
              ++ ofAscii "new=1 #x" ++ [13%N] in
  readDotEnvContent (content ++ [lineFeed] ++ [] ++ line)
    = <[ofAscii "API_KEY" := unquote (ofAscii "new=1 #x")]> (readDotEnvContent content).
Proof.
  apply (readDotEnv_last_assignment (ofAscii "API_KEY=old") [] [32%N] [32%N] [13%N]
           (ofAscii "API_KEY") (ofAscii "new=1 #x")).
  - split_and!; try done.
    + by apply absent_unit.
    + by apply absent_unit.
    + by intros c [= <-].
    + by intros c [= <-].
  - split_and!.
    + by apply absent_unit.
    + by intros c [= <-].
    + by intros c [= <-].
  - constructor.
  - by repeat constructor.
  - by repeat constructor.
  - by repeat constructor.
Defined.

Lemma endsWith_snoc (c : N) (s : list N) : Units.endsWith [c] (s ++ [c]) = true.
Proof.
  unfold Units.endsWith. rewrite rev_unit. simpl. by rewrite N.eqb_refl.
Qed.

Lemma sliceInner_quoted (q : N) (inner : list N) :
  sliceInner (q :: inner ++ [q]) = inner.
Proof.
  unfold sliceInner. simpl. rewrite length_app. simpl.
  replace (length inner + 1 - 1)%nat with (length inner) by lia.
  apply take_app_length.
Qed.

(** X29 (readDotEnv).
    A value in double or in single quotes loses that
    pair and nothing else, whatever is between them.  A value that is one
    quote character alone counts as quoted and becomes the empty string;
    with a double quote at one end and a single quote at the other the
    value is kept as it is. *)
Theorem unquote_cases (inner : list N) :
  unquote (doubleQuoteUnit :: inner ++ [doubleQuoteUnit]) = inner /\
  unquote (singleQuoteUnit :: inner ++ [singleQuoteUnit]) = inner /\
  unquote [doubleQuoteUnit] = [] /\
  unquote [singleQuoteUnit] = [] /\
  unquote (doubleQuoteUnit :: inner ++ [singleQuoteUnit])
    = doubleQuoteUnit :: inner ++ [singleQuoteUnit] /\
  unquote (singleQuoteUnit :: inner ++ [doubleQuoteUnit])
    = singleQuoteUnit :: inner ++ [doubleQuoteUnit].
Proof.
  assert (Hquoted : forall q, q = doubleQuoteUnit \/ q = singleQuoteUnit ->
            unquote (q :: inner ++ [q]) = inner).
  { intros q Hq. unfold unquote, isQuoted.
    assert (Hends : Units.endsWith [q] (q :: inner ++ [q]) = true).
    { rewrite (app_comm_cons inner [q] q). apply endsWith_snoc. }
    assert (Hstarts : Units.startsWith [q] (q :: inner ++ [q]) = true)
      by by apply startsWith_unit.
    destruct Hq as [-> | ->]; rewrite Hends, Hstarts; cbn [andb orb];
      rewrite ?orb_true_r; apply sliceInner_quoted. }
  assert (Hmixed : forall q r, q <> r ->
            Units.startsWith [r] (q :: inner ++ [r]) = false /\
            Units.endsWith [q] (q :: inner ++ [r]) = false).
  { intros q r Hqr. split.
    - simpl. by rewrite (proj2 (N.eqb_neq r q)).
    - unfold Units.endsWith. rewrite (app_comm_cons inner [r] q), rev_unit. simpl.
      by rewrite (proj2 (N.eqb_neq q r)). }
  split_and!; [by apply Hquoted; left | by apply Hquoted; right | done | done | |].
  - unfold unquote, isQuoted.
    destruct (Hmixed doubleQuoteUnit singleQuoteUnit ltac:(done)) as [-> ->].
    by rewrite andb_false_r.
  - unfold unquote, isQuoted.
    destruct (Hmixed singleQuoteUnit doubleQuoteUnit ltac:(done)) as [-> ->].
    by rewrite andb_false_r.
Qed.
